(** * PseudocodeInterpreter: a shallow embedding of src/lib/pseudocode-interpreter.tsx

    The interpreter executes a line-oriented, Spanish-keyword pseudocode
    language.  The embedding follows the TypeScript class member by member:
    the private fields become the record [interp], every method becomes a
    function that threads this record, [executeLine] is a fuel-indexed
    function with three outcomes (normal return, thrown exception, fuel
    exhausted), and the host facilities the class relies on (strings,
    regular expressions, number/string conversions) are written out below.

    Conventions.
    - Strings are Latin-1 code units ([string] of [ascii]); the identifier
      range [À-ɏ] of the source is therefore cut at [ÿ].
    - Numbers are the decimal numbers [m / 10^d] together with NaN and the
      two infinities; this is exact for the decimal literals the interpreter
      parses and prints, and integers are exact below 2^53.
    - [new Function("return " + text)()] is the host's evaluator.  It is not
      code of this repository, so it is a [Variable] of the section holding
      the interpreter, of type [string -> option jsval] ([None] when the
      call throws). *)

From Stdlib Require Import List String Ascii Bool Arith NArith ZArith Lia.
From Stdlib Require Import DecimalString.
From Stdlib Require DecimalNat DecimalFacts.
Import ListNotations.
Local Open Scope string_scope.
Local Open Scope list_scope.

Set Implicit Arguments.
Set Warnings "-register-all".

(** ** Characters *)

Module Chars.

Definition code (c : ascii) : nat := nat_of_ascii c.

Definition in_range (lo hi : nat) (c : ascii) : bool :=
  (lo <=? code c)%nat && (code c <=? hi)%nat.

Definition is_digit (c : ascii) : bool := in_range 48 57 c.
Definition is_upper_az (c : ascii) : bool := in_range 65 90 c.
Definition is_lower_az (c : ascii) : bool := in_range 97 122 c.

(** [\w]: ASCII letters, digits and underscore. *)
Definition is_word (c : ascii) : bool :=
  is_digit c || is_upper_az c || is_lower_az c || (code c =? 95)%nat.

(** [\s], also the set removed by [trim]: TAB, LF, VT, FF, CR, space, NBSP. *)
Definition is_space (c : ascii) : bool :=
  in_range 9 13 c || (code c =? 32)%nat || (code c =? 160)%nat.

(** Line terminators, excluded by [.]. *)
Definition is_line_terminator (c : ascii) : bool :=
  (code c =? 10)%nat || (code c =? 13)%nat.

(** The accented identifier range [À-ɏ], cut at [ÿ]. *)
Definition is_accented (c : ascii) : bool := in_range 192 255 c.

(** [toLowerCase] on one Latin-1 code unit: A-Z and the capitals
    [À-Þ] except the multiplication sign. *)
Definition to_lower (c : ascii) : ascii :=
  if is_upper_az c then ascii_of_nat (code c + 32)
  else if in_range 192 222 c && negb (code c =? 215)%nat
       then ascii_of_nat (code c + 32)
  else c.

(** The inverse direction, used by case-insensitive regular expressions. *)
Definition to_upper (c : ascii) : ascii :=
  if is_lower_az c then ascii_of_nat (code c - 32)
  else if in_range 224 254 c && negb (code c =? 247)%nat
       then ascii_of_nat (code c - 32)
  else c.

(** The double quote, and the two accented letters of the messages. *)
Definition dquote : ascii := ascii_of_nat 34.
Definition i_acute : ascii := ascii_of_nat 237.
Definition n_tilde : ascii := ascii_of_nat 241.

End Chars.

(** ** Strings: the methods of [String.prototype] the interpreter calls *)

Module Str.

Definition chars (s : string) : list ascii := list_ascii_of_string s.
Definition of_chars (l : list ascii) : string := string_of_list_ascii l.

Definition toLowerCase (s : string) : string :=
  of_chars (map Chars.to_lower (chars s)).

Fixpoint drop_while (p : ascii -> bool) (l : list ascii) : list ascii :=
  match l with
  | c :: r => if p c then drop_while p r else l
  | [] => []
  end.

Definition trim_chars (l : list ascii) : list ascii :=
  rev (drop_while Chars.is_space (rev (drop_while Chars.is_space l))).

Definition trim (s : string) : string := of_chars (trim_chars (chars s)).

Definition startsWith (s p : string) : bool := String.prefix p s.

Definition endsWith (s p : string) : bool :=
  String.prefix (of_chars (rev (chars p))) (of_chars (rev (chars s))).

Fixpoint includes_from (l : list ascii) (p : string) : bool :=
  String.prefix p (of_chars l) ||
  match l with
  | _ :: r => includes_from r p
  | [] => false
  end.

Definition includes (s p : string) : bool := includes_from (chars s) p.

(** [s.slice(1, -1)]. *)
Definition slice_1_m1 (s : string) : string :=
  match chars s with
  | _ :: r => of_chars (removelast r)
  | [] => ""
  end.

(** [s.split(sep)] for a one-character separator. *)
Fixpoint split_chars (sep : ascii) (cur : list ascii) (l : list ascii)
  : list string :=
  match l with
  | [] => [of_chars (rev cur)]
  | c :: r =>
      if Ascii.eqb c sep then of_chars (rev cur) :: split_chars sep [] r
      else split_chars sep (c :: cur) r
  end.

Definition split (sep : ascii) (s : string) : list string :=
  split_chars sep [] (chars s).

(** [parts.join(sep)] on strings. *)
Fixpoint join (sep : string) (parts : list string) : string :=
  match parts with
  | [] => ""
  | [p] => p
  | p :: r => p ++ sep ++ join sep r
  end.

Definition is_empty (s : string) : bool :=
  match s with EmptyString => true | _ => false end.

End Str.

(** ** Regular expressions

    A backtracking matcher for the fragment of ECMAScript regular
    expressions that occurs in the source: literals, classes, greedy and
    lazy repetition of a class, optional groups, capture groups,
    alternation, [^], [$], [\b] and one-character negative look-around.
    Matching follows the ECMAScript semantics: leftmost start, alternatives
    and repetitions tried in priority order. *)

Module Re.

Inductive item : Type :=
| IChar (c : ascii)
| IRange (lo hi : nat)
| IWord                     (* \w *)
| IDigit                    (* \d *)
| ISpace                    (* \s *)
| IAny.                     (* .  *)

Definition cset := list item.

Inductive re : Type :=
| Eps
| Chr (cs : cset)                          (* one character of the class *)
| NChr (cs : cset)                         (* one character outside it *)
| Seq (r1 r2 : re)
| Alt (r1 r2 : re)
| Rep (cs : cset) (min : nat) (greedy : bool)   (* cs* cs+ cs*? cs+? *)
| Opt (r : re)                             (* (?:r)? *)
| Grp (n : nat) (r : re)                   (* n-th capture group *)
| Bol | Eol                                (* ^ and $ *)
| WordB                                    (* \b *)
| NotBehind (cs : cset)                    (* (?<![cs]) *)
| NotAhead (cs : cset).                    (* (?![cs]) *)

(** A literal word as a sequence of one-character classes. *)
Fixpoint lit_chars (l : list ascii) : re :=
  match l with
  | [] => Eps
  | [c] => Chr [IChar c]
  | c :: r => Seq (Chr [IChar c]) (lit_chars r)
  end.
Definition lit (s : string) : re := lit_chars (Str.chars s).

Fixpoint seq (rs : list re) : re :=
  match rs with
  | [] => Eps
  | [r] => r
  | r :: rest => Seq r (seq rest)
  end.

Definition item_matches_exact (it : item) (c : ascii) : bool :=
  match it with
  | IChar a => Ascii.eqb a c
  | IRange lo hi => Chars.in_range lo hi c
  | IWord => Chars.is_word c
  | IDigit => Chars.is_digit c
  | ISpace => Chars.is_space c
  | IAny => negb (Chars.is_line_terminator c)
  end.

(** With the [i] flag a character matches when some member of the class has
    the same canonical (upper-case) form. *)
Definition item_matches (ci : bool) (it : item) (c : ascii) : bool :=
  item_matches_exact it c ||
  (ci && (item_matches_exact it (Chars.to_upper c)
          || item_matches_exact it (Chars.to_lower c))).

Definition cset_matches (ci : bool) (cs : cset) (c : ascii) : bool :=
  existsb (fun it => item_matches ci it c) cs.

(** The cursor: characters already consumed (most recent first) and the
    characters still ahead. *)
Record cursor : Type := Cursor { before : list ascii; after : list ascii }.

Definition caps := list (nat * string).

Fixpoint get_cap (n : nat) (cs : caps) : option string :=
  match cs with
  | [] => None
  | (k, s) :: r => if (k =? n)%nat then Some s else get_cap n r
  end.

(** The text consumed between two cursors of one scan. *)
Definition consumed (c0 c1 : cursor) : string :=
  Str.of_chars
    (rev (firstn (List.length (before c1) - List.length (before c0)) (before c1))).

Definition is_word_opt (o : option ascii) : bool :=
  match o with Some c => Chars.is_word c | None => false end.

Definition at_word_boundary (cur : cursor) : bool :=
  xorb (is_word_opt (hd_error (before cur))) (is_word_opt (hd_error (after cur))).

Section Matcher.
Variable ci : bool.
Variable R : Type.

Definition cont := cursor -> caps -> option R.

(** [cs{min,}], greedy: take as many as possible, give back one at a
    time. *)
Fixpoint rep_greedy (cs : cset) (min : nat) (k : cont) (n : nat)
         (bef aft : list ascii) (cp : caps) : option R :=
  let stop := if (min <=? n)%nat then k (Cursor bef aft) cp else None in
  match aft with
  | c :: rest =>
      if cset_matches ci cs c then
        match rep_greedy cs min k (S n) (c :: bef) rest cp with
        | Some x => Some x
        | None => stop
        end
      else stop
  | [] => stop
  end.

(** [cs{min,}?], lazy: take as few as possible. *)
Fixpoint rep_lazy (cs : cset) (min : nat) (k : cont) (n : nat)
         (bef aft : list ascii) (cp : caps) : option R :=
  let more :=
    match aft with
    | c :: rest =>
        if cset_matches ci cs c
        then rep_lazy cs min k (S n) (c :: bef) rest cp
        else None
    | [] => None
    end in
  if (min <=? n)%nat then
    match k (Cursor bef aft) cp with
    | Some x => Some x
    | None => more
    end
  else more.

Fixpoint m (r : re) (k : cont) (cur : cursor) (cp : caps) : option R :=
  match r with
  | Eps => k cur cp
  | Chr cs =>
      match after cur with
      | c :: rest =>
          if cset_matches ci cs c
          then k (Cursor (c :: before cur) rest) cp else None
      | [] => None
      end
  | NChr cs =>
      match after cur with
      | c :: rest =>
          if cset_matches ci cs c
          then None else k (Cursor (c :: before cur) rest) cp
      | [] => None
      end
  | Seq r1 r2 => m r1 (fun cur' cp' => m r2 k cur' cp') cur cp
  | Alt r1 r2 =>
      match m r1 k cur cp with
      | Some x => Some x
      | None => m r2 k cur cp
      end
  | Rep cs min greedy =>
      if greedy then rep_greedy cs min k 0 (before cur) (after cur) cp
      else rep_lazy cs min k 0 (before cur) (after cur) cp
  | Opt r1 =>
      match m r1 k cur cp with
      | Some x => Some x
      | None => k cur cp
      end
  | Grp n r1 =>
      m r1 (fun cur' cp' => k cur' ((n, consumed cur cur') :: cp')) cur cp
  | Bol => match before cur with [] => k cur cp | _ => None end
  | Eol => match after cur with [] => k cur cp | _ => None end
  | WordB => if at_word_boundary cur then k cur cp else None
  | NotBehind cs =>
      match before cur with
      | c :: _ => if cset_matches ci cs c then None else k cur cp
      | [] => k cur cp
      end
  | NotAhead cs =>
      match after cur with
      | c :: _ => if cset_matches ci cs c then None else k cur cp
      | [] => k cur cp
      end
  end.
End Matcher.

(** A successful match: the text before it, the matched text, the cursor
    after it and the capture groups. *)
Record found : Type := Found {
  f_prefix : string;          (* input before the match *)
  f_text : string;            (* $& *)
  f_end : cursor;
  f_caps : caps
}.

Definition match_at (ci : bool) (r : re) (cur : cursor) : option found :=
  m ci r
    (fun cur' cp =>
       Some (Found (Str.of_chars (rev (before cur))) (consumed cur cur') cur' cp))
    cur [].

(** Leftmost match at or after the cursor. *)
Fixpoint search (ci : bool) (r : re) (bef aft : list ascii) : option found :=
  match match_at ci r (Cursor bef aft) with
  | Some f => Some f
  | None =>
      match aft with
      | c :: rest => search ci r (c :: bef) rest
      | [] => None
      end
  end.

(** [re.exec(s)] / [s.match(re)] without the [g] flag. *)
Definition exec (ci : bool) (r : re) (s : string) : option found :=
  search ci r [] (Str.chars s).

(** [re.test(s)]. *)
Definition test (ci : bool) (r : re) (s : string) : bool :=
  match exec ci r s with Some _ => true | None => false end.

(** The n-th group of a match ([undefined] is [None]). *)
Definition group (f : found) (n : nat) : option string := get_cap n (f_caps f).

(** Expansion of a replacement string: [$$], [$&], [$`], [$'] and [$1]..[$9]
    (a digit that names no group of the expression stays literal). *)
Fixpoint expand (ngroups : nat) (f : found) (repl : list ascii) : list ascii :=
  match repl with
  | [] => []
  | c0 :: tl =>
      if negb (Ascii.eqb c0 "$") then c0 :: expand ngroups f tl
      else
        match tl with
        | [] => [c0]
        | c :: rest =>
            if Ascii.eqb c "$" then "$"%char :: expand ngroups f rest
            else if Ascii.eqb c "&"
                 then Str.chars (f_text f) ++ expand ngroups f rest
            else if Ascii.eqb c "`"
                 then Str.chars (f_prefix f) ++ expand ngroups f rest
            else if Ascii.eqb c "'"
                 then after (f_end f) ++ expand ngroups f rest
            else if Chars.is_digit c
                      && (1 <=? Chars.code c - 48)%nat
                      && (Chars.code c - 48 <=? ngroups)%nat
                 then match group f (Chars.code c - 48) with
                      | Some g => Str.chars g ++ expand ngroups f rest
                      | None => expand ngroups f rest
                      end
            else "$"%char :: expand ngroups f tl
        end
  end.

(** [s.replace(re, repl)] without the [g] flag: the first match only. *)
Definition replace_first (ci : bool) (r : re) (ngroups : nat) (repl s : string)
  : string :=
  match exec ci r s with
  | Some f =>
      f_prefix f
      ++ Str.of_chars (expand ngroups f (Str.chars repl))
      ++ Str.of_chars (after (f_end f))
  | None => s
  end.

(** [s.replace(re, repl)] with the [g] flag.  [bef]/[aft] is the scan
    position, [done] the output produced so far (reversed), [pending] the
    unmatched input since the last match (reversed).  After an empty match
    the scan advances by one character. *)
Fixpoint replace_loop (fuel : nat) (ci : bool) (r : re) (ngroups : nat)
         (repl : list ascii) (bef aft : list ascii) (out : list ascii)
  : list ascii :=
  match fuel with
  | O => rev out ++ aft
  | S fuel' =>
      match search ci r bef aft with
      | None => rev out ++ aft
      | Some f =>
          let skipped :=
            firstn (String.length (f_prefix f) - List.length bef) aft in
          let out' := rev (expand ngroups f repl) ++ rev skipped ++ out in
          let e := f_end f in
          if Str.is_empty (f_text f) then
            match after e with
            | c :: rest =>
                replace_loop fuel' ci r ngroups repl
                             (c :: before e) rest (c :: out')
            | [] => rev out'
            end
          else replace_loop fuel' ci r ngroups repl (before e) (after e) out'
      end
  end.

Definition replace_all (ci : bool) (r : re) (ngroups : nat) (repl s : string)
  : string :=
  Str.of_chars
    (replace_loop (S (String.length s)) ci r ngroups (Str.chars repl)
                  [] (Str.chars s) []).

End Re.

(** ** Numbers *)

Module Num.

(** A JavaScript number: NaN, an infinity, or the decimal [± m / 10^d].
    In normal form [d = 0] or the last digit of [m] is not zero, so an
    integer is [Fin _ m 0]; [Fin true 0 0] is the negative zero. *)
Inductive jsnum : Type :=
| NaN
| Inf (neg : bool)
| Fin (neg : bool) (m : N) (d : N).

Definition of_N (n : N) : jsnum := Fin false n 0.
Definition zero : jsnum := of_N 0.

Definition isNaN (x : jsnum) : bool :=
  match x with NaN => true | _ => false end.

Definition is_zero (x : jsnum) : bool :=
  match x with Fin _ 0%N _ => true | _ => false end.

(** Truthiness of a number: everything but NaN and the two zeros. *)
Definition truthy (x : jsnum) : bool := negb (isNaN x || is_zero x).

(** [x === y] on numbers. *)
Definition strict_eq (x y : jsnum) : bool :=
  match x, y with
  | NaN, _ | _, NaN => false
  | Inf a, Inf b => Bool.eqb a b
  | Fin a m d, Fin b m' d' =>
      if (m =? 0)%N && (m' =? 0)%N then true
      else Bool.eqb a b && (m =? m')%N && (d =? d')%N
  | _, _ => false
  end.

(** Removal of trailing zeros behind the decimal point. *)
Fixpoint strip (fuel : nat) (m d : N) : N * N :=
  match fuel with
  | O => (m, d)
  | S f =>
      if (0 <? d)%N && (m mod 10 =? 0)%N then strip f (m / 10)%N (d - 1)%N
      else (m, d)
  end.

(** The number [± m * 10^e] in normal form. *)
Definition make (neg : bool) (m : N) (e : Z) : jsnum :=
  if (m =? 0)%N then Fin neg 0 0
  else if (0 <=? e)%Z then Fin neg (m * 10 ^ Z.to_N e)%N 0
  else let (m', d') := strip (N.to_nat (Z.to_N (- e))) m (Z.to_N (- e)) in
       Fin neg m' d'.

Definition digit_val (c : ascii) : N := N.of_nat (Chars.code c - 48).

Fixpoint digits_val (acc : N) (l : list ascii) : N :=
  match l with
  | [] => acc
  | c :: r => digits_val (acc * 10 + digit_val c)%N r
  end.

(** The longest prefix of decimal digits and the rest. *)
Fixpoint span_digits (l : list ascii) : list ascii * list ascii :=
  match l with
  | c :: r =>
      if Chars.is_digit c
      then let (ds, rest) := span_digits r in (c :: ds, rest)
      else ([], l)
  | [] => ([], [])
  end.

(** [parseInt(s)] on a string of decimal digits (the only use in the
    source: the argument was matched by [\d+]).  The result is the integer
    the digits write; the host's is the double nearest to it, the same
    number up to 2^53.  The theorems on [dimension] and [para] carry that
    bound on the literals they read. *)
Definition parseInt (s : string) : N := digits_val 0 (Str.chars s).

(** The optional exponent part [e±digits]; it is consumed only when at
    least one digit follows. *)
Definition exponent (l : list ascii) : Z * list ascii :=
  match l with
  | c :: r =>
      if Ascii.eqb c "e" || Ascii.eqb c "E" then
        let '(neg, r') :=
          match r with
          | s :: r2 =>
              if Ascii.eqb s "-" then (true, r2)
              else if Ascii.eqb s "+" then (false, r2)
              else (false, r)
          | [] => (false, r)
          end in
        match span_digits r' with
        | ([], _) => (0%Z, l)
        | (ds, rest) =>
            let v := Z.of_N (digits_val 0 ds) in
            ((if neg then - v else v)%Z, rest)
        end
      else (0%Z, l)
  | [] => (0%Z, l)
  end.

(** The longest prefix that is a decimal literal (after the sign), with
    the unread rest; [None] when there is none. *)
Definition decimal_prefix (neg : bool) (l : list ascii)
  : option (jsnum * list ascii) :=
  if String.prefix "Infinity" (Str.of_chars l)
  then Some (Inf neg, skipn 8 l)
  else
    let (ip, r1) := span_digits l in
    let '(fp, r2, dot) :=
      match r1 with
      | c :: r =>
          if Ascii.eqb c "."
          then let (fp, r2) := span_digits r in (fp, r2, true)
          else ([], r1, false)
      | [] => ([], r1, false)
      end in
    match ip, fp with
    | [], [] => None
    | _, _ =>
        let (e, r3) := exponent r2 in
        Some (make neg (digits_val 0 (ip ++ fp))
                   (e - Z.of_nat (List.length fp)), r3)
    end.

Definition signed_prefix (l : list ascii) : option (jsnum * list ascii) :=
  match l with
  | c :: r =>
      if Ascii.eqb c "-" then decimal_prefix true r
      else if Ascii.eqb c "+" then decimal_prefix false r
      else decimal_prefix false l
  | [] => None
  end.

(** [parseFloat(s)]: leading white space is skipped, the longest decimal
    prefix is read, anything behind it is ignored.  The result is the
    decimal the prefix writes; the host's is the double nearest to it, so
    the two differ in value only past the precision of a double (integers
    above 2^53, more than 17 significant digits, exponents out of range). *)
Definition parseFloat (s : string) : jsnum :=
  match signed_prefix (Str.drop_while Chars.is_space (Str.chars s)) with
  | Some (x, _) => x
  | None => NaN
  end.

Fixpoint digits_val_base (base : N) (acc : N) (l : list ascii) : option N :=
  match l with
  | [] => Some acc
  | c :: r =>
      let c' := Chars.to_lower c in
      let v := if Chars.is_digit c' then Some (digit_val c')
               else if Chars.in_range 97 102 c'
                    then Some (N.of_nat (Chars.code c' - 87))
               else None in
      match v with
      | Some d => if (d <? base)%N
                  then digits_val_base base (acc * base + d)%N r else None
      | None => None
      end
  end.

(** [Number(s)] on a string: the whole trimmed text has to be a numeric
    literal; the empty text is 0. *)
Definition of_string (s : string) : jsnum :=
  match Str.trim_chars (Str.chars s) with
  | [] => zero
  | "0"%char :: x :: (_ :: _) as ds =>
      let radix :=
        if Ascii.eqb (Chars.to_lower x) "x" then Some 16%N
        else if Ascii.eqb (Chars.to_lower x) "o" then Some 8%N
        else if Ascii.eqb (Chars.to_lower x) "b" then Some 2%N
        else None in
      match radix with
      | Some b =>
          match digits_val_base b 0 ds with
          | Some n => of_N n
          | None => NaN
          end
      | None =>
          match signed_prefix ("0"%char :: x :: ds) with
          | Some (v, []) => v
          | _ => NaN
          end
      end
  | l =>
      match signed_prefix l with
      | Some (v, []) => v
      | _ => NaN
      end
  end.

Definition N_digits (n : N) : list ascii :=
  Str.chars (DecimalString.NilZero.string_of_uint (N.to_uint n)).

Definition strip_zeros_right (l : list ascii) : list ascii :=
  rev (Str.drop_while (fun c => Ascii.eqb c "0") (rev l)).

(** Exponential notation: digits [ds] (no trailing zero), decimal point
    after the first one, exponent [e]. *)
Definition exponential (ds : list ascii) (e : Z) : list ascii :=
  let mant :=
    match ds with
    | c :: (_ :: _) as rest => c :: "."%char :: rest
    | _ => ds
    end in
  mant ++ ("e"%char :: (if (0 <=? e)%Z then "+"%char else "-"%char)
                    :: N_digits (Z.to_N (Z.abs e))).

(** [String(x)] on a number (Number::toString, radix 10). *)
Definition to_string (x : jsnum) : string :=
  match x with
  | NaN => "NaN"
  | Inf neg => if neg then "-Infinity" else "Infinity"
  | Fin neg m d =>
      if (m =? 0)%N then "0"
      else
        let ds := N_digits m in
        let n := (Z.of_nat (List.length ds) - Z.of_N d)%Z in
        let body :=
          if (d =? 0)%N then
            if (n <=? 21)%Z then ds
            else exponential (strip_zeros_right ds) (n - 1)
          else if (0 <? n)%Z && (n <=? 21)%Z then
            firstn (Z.to_nat n) ds ++ "."%char :: skipn (Z.to_nat n) ds
          else if (-6 <? n)%Z && (n <=? 0)%Z then
            "0"%char :: "."%char :: repeat "0"%char (Z.to_nat (- n)) ++ ds
          else exponential ds (n - 1) in
        Str.of_chars ((if neg then ["-"%char] else []) ++ body)
  end.

End Num.

(** ** Values *)

Module Val.

Import Num.

(** The values a variable can hold: what the interpreter stores itself
    (numbers, strings, booleans, [null], arrays) and [undefined], which the
    evaluator can return and which fills the holes of an extended array. *)
Inductive jsval : Type :=
| JUndefined
| JNull
| JBool (b : bool)
| JNum (x : jsnum)
| JStr (s : string)
| JArr (l : list jsval).

Definition is_number (v : jsval) : bool :=
  match v with JNum _ => true | _ => false end.

Definition isArray (v : jsval) : bool :=
  match v with JArr _ => true | _ => false end.

(** [String(v)]; inside an array [null] and [undefined] print as nothing. *)
Fixpoint to_string (v : jsval) : string :=
  match v with
  | JUndefined => "undefined"
  | JNull => "null"
  | JBool b => if b then "true" else "false"
  | JNum x => Num.to_string x
  | JStr s => s
  | JArr l =>
      Str.join ","
        (map (fun e => match e with
                       | JUndefined | JNull => ""
                       | _ => to_string e
                       end) l)
  end.

Definition hex_digit (n : nat) : ascii :=
  if (n <? 10)%nat then ascii_of_nat (48 + n) else ascii_of_nat (87 + n).

(** One character of a JSON string literal. *)
Definition json_char (c : ascii) : list ascii :=
  let n := Chars.code c in
  if (n =? 34)%nat then ["\"%char; Chars.dquote]
  else if (n =? 92)%nat then ["\"%char; "\"%char]
  else if (n =? 8)%nat then ["\"%char; "b"%char]
  else if (n =? 12)%nat then ["\"%char; "f"%char]
  else if (n =? 10)%nat then ["\"%char; "n"%char]
  else if (n =? 13)%nat then ["\"%char; "r"%char]
  else if (n =? 9)%nat then ["\"%char; "t"%char]
  else if (n <? 32)%nat
       then ["\"%char; "u"%char; "0"%char; "0"%char;
             hex_digit (n / 16); hex_digit (n mod 16)]
  else [c].

Definition json_quote (s : string) : string :=
  Str.of_chars (Chars.dquote :: flat_map json_char (Str.chars s) ++ [Chars.dquote]).

(** [JSON.stringify(v)]; [None] is the [undefined] it returns for
    [undefined]. *)
Fixpoint json (v : jsval) : option string :=
  match v with
  | JUndefined => None
  | JNull => Some "null"
  | JBool b => Some (if b then "true" else "false")
  | JNum x =>
      Some (match x with
            | NaN | Inf _ => "null"
            | _ => Num.to_string x
            end)
  | JStr s => Some (json_quote s)
  | JArr l =>
      Some ("[" ++ Str.join ","
                     (map (fun e => match json e with
                                    | Some s => s
                                    | None => "null"
                                    end) l)
                ++ "]")%string
  end.

(** A value used as replacement text: [undefined] becomes its name. *)
Definition json_text (v : jsval) : string :=
  match json v with Some s => s | None => "undefined" end.

(** [Boolean(v)]. *)
Definition truthy (v : jsval) : bool :=
  match v with
  | JUndefined | JNull => false
  | JBool b => b
  | JNum x => Num.truthy x
  | JStr s => negb (Str.is_empty s)
  | JArr _ => true
  end.

(** [Number(v)]. *)
Definition to_number (v : jsval) : jsnum :=
  match v with
  | JUndefined => NaN
  | JNull => zero
  | JBool b => if b then of_N 1 else zero
  | JNum x => x
  | JStr s => Num.of_string s
  | JArr _ => Num.of_string (to_string v)
  end.

(** The array index a number denotes as a property key: an integer below
    2^32 - 1 (the negative zero is the key "0"). *)
Definition array_index (x : jsnum) : option nat :=
  match x with
  | Fin neg m 0%N =>
      if (negb neg || (m =? 0)%N) && (m <? 4294967295)%N
      then Some (N.to_nat m) else None
  | _ => None
  end.

(** [a[i] = v]: inside the array the element is overwritten, past its end
    the array grows and the skipped positions are holes. *)
Fixpoint array_set (l : list jsval) (i : nat) (v : jsval) : list jsval :=
  match l, i with
  | _ :: r, O => v :: r
  | [], O => [v]
  | x :: r, S i' => x :: array_set r i' v
  | [], S i' => JUndefined :: array_set [] i' v
  end.

(** [new Array(n).fill(0)]. *)
Definition zeros (n : N) : list jsval := repeat (JNum zero) (N.to_nat n).

End Val.

(** ** The regular expressions of the source *)

Module Pat.

Import Re.

Definition sp1 : re := Rep [ISpace] 1 true.           (* \s+ *)
Definition sp0 : re := Rep [ISpace] 0 true.           (* \s* *)
Definition ident : cset := [IWord; IRange 192 255].   (* [\wÀ-ɏ] *)
Definition word1 : re := Rep [IWord] 1 true.          (* \w+ *)
Definition digits1 : re := Rep [IDigit] 1 true.       (* \d+ *)
Definition ident1 : re := Rep ident 1 true.
Definition any1 : re := Rep [IAny] 1 true.            (* .+ *)
Definition any1_lazy : re := Rep [IAny] 1 false.      (* .+? *)

(** [/;$/] *)
Definition trailing_semicolon : re := seq [lit ";"; Eol].

(** [/;\s*(Entonces|entonces)/gi] *)
Definition semicolon_entonces : re :=
  seq [lit ";"; sp0; Grp 1 (Alt (lit "Entonces") (lit "entonces"))].

(** [/definir\s+([\wÀ-ɏ]+)\s+como\s+(\w+)/i] *)
Definition definir : re :=
  seq [lit "definir"; sp1; Grp 1 ident1; sp1; lit "como"; sp1; Grp 2 word1].

(** [/dimension\s+(\w+)\[(\d+)\]/i] *)
Definition dimension : re :=
  seq [lit "dimension"; sp1; Grp 1 word1; lit "["; Grp 2 digits1; lit "]"].

(** [/leer\s+(.+)/i] *)
Definition leer : re := seq [lit "leer"; sp1; Grp 1 any1].

(** [/^\s*verdadero\s*$/i] *)
Definition verdadero_input : re := seq [Bol; sp0; lit "verdadero"; sp0; Eol].

(** [/escribir\s+(.+)/i] *)
Definition escribir : re := seq [lit "escribir"; sp1; Grp 1 any1].

(** [/mientras\s+(.+)\s+hacer/i] *)
Definition mientras : re :=
  seq [lit "mientras"; sp1; Grp 1 any1; sp1; lit "hacer"].

(** [/para\s+(\w+)\s*<-\s*(\d+)\s+hasta\s+(\d+)(?:\s+con\s+paso\s+(\d+))?/i] *)
Definition para : re :=
  seq [lit "para"; sp1; Grp 1 word1; sp0; lit "<-"; sp0; Grp 2 digits1;
       sp1; lit "hasta"; sp1; Grp 3 digits1;
       Opt (seq [sp1; lit "con"; sp1; lit "paso"; sp1; Grp 4 digits1])].

(** [/segun\s+([\wÀ-ɏ]+)\s+hacer/i] *)
Definition segun : re :=
  seq [lit "segun"; sp1; Grp 1 ident1; sp1; lit "hacer"].

(** [/^(C+):$/i] where the class C is: digit, word character, accented
    letter, white space, comma, single quote, double quote. *)
Definition case_label : re :=
  seq [Bol;
       Grp 1 (Rep [IDigit; IWord; IRange 192 255; ISpace;
                   IChar ","; IChar "'"; IChar Chars.dquote] 1 true);
       lit ":"; Eol].

(** [/si\s+(.+?)\s+entonces/i] *)
Definition si : re := seq [lit "si"; sp1; Grp 1 any1_lazy; sp1; lit "entonces"].

(** [/^si\s+/] *)
Definition si_open : re := seq [Bol; lit "si"; sp1].

(** [/^sino\s+si\s+/] *)
Definition sino_si_open : re := seq [Bol; lit "sino"; sp1; lit "si"; sp1].

(** [/sino\s+si\s+(.+?)\s+entonces/i] *)
Definition sino_si : re :=
  seq [lit "sino"; sp1; lit "si"; sp1; Grp 1 any1_lazy; sp1; lit "entonces"].

(** [/([\wÀ-ɏ]+(?:\[[\wÀ-ɏ]+\])?)\s*(?:<-|=)\s*(.+)/i] *)
Definition assignment : re :=
  seq [Grp 1 (Seq ident1 (Opt (seq [lit "["; ident1; lit "]"])));
       sp0; Alt (lit "<-") (lit "="); sp0; Grp 2 any1].

(** [/(\w+)\[(\w+)\]/] *)
Definition array_target : re :=
  seq [Grp 1 word1; lit "["; Grp 2 word1; lit "]"].

(** [/^[a-zA-Z_À-ɏ][\wÀ-ɏ]*$/] *)
Definition identifier : re :=
  seq [Bol;
       Chr [IRange 97 122; IRange 65 90; IChar "_"; IRange 192 255];
       Rep ident 0 true; Eol].

(** [/^\d+$/] *)
Definition all_digits : re := seq [Bol; digits1; Eol].

(** [(?<![\wÀ-ɏ])name(?![\wÀ-ɏ])], built from a
    variable's key; the key is matched literally. *)
Definition whole_word (name : string) : re :=
  seq [NotBehind ident; lit name; NotAhead ident].

(** [/fn\s*\(\s*(.+?)\s*\)/gi] for a built-in function name. *)
Definition call (fn : string) : re :=
  seq [lit fn; sp0; lit "("; sp0; Grp 1 any1_lazy; sp0; lit ")"].

(** [/\bword\b/gi] *)
Definition bounded (w : string) : re := seq [WordB; lit w; WordB].

(** [/(?<![<>!])=(?!=)/g] *)
Definition lone_equals : re :=
  seq [NotBehind [IChar "<"; IChar ">"; IChar "!"]; lit "=";
       NotAhead [IChar "="]].

End Pat.

(** ** The interpreter state *)

Import Val.

Record Var : Type := mkVar {
  name : string;
  type : string;
  value : jsval
}.

Inductive NodeType : Type := start | end_ | process | decision | input | output_.

Record FlowchartNode : Type := mkNode {
  id : string;
  kind : NodeType;            (* the field [type] of the source *)
  text : string;
  children : list string
}.

Record ExecutionResult : Type := mkResult {
  r_output : list string;
  r_errors : list string;
  r_flowchart : list FlowchartNode
}.

(** One call of [executeLine], as the ghost log keeps it: the line index,
    and the value of [hasError] and the number of recorded errors when the
    call was entered. *)
Record dispatch_event : Type := mkEvent {
  at_index : nat;
  flag_on_entry : bool;
  errors_on_entry : nat
}.

(** The fields of [PseudocodeInterpreter].  [variables] is the [Map] in
    insertion order.  An attached input callback is a function of the
    number of earlier calls and of the prompt.  The last three fields are
    ghost state: the number of input calls made, the snapshots handed to the
    variable-change callback, and the log of every call of [executeLine]
    ([dispatch_event]). *)
Record interp : Type := mkInterp {
  variables : list (string * Var);
  output : list string;
  errors : list string;
  flowchart : list FlowchartNode;
  nodeCounter : nat;
  inputCallback : option (nat -> string -> string);
  variableChangeCallback : bool;
  hasError : bool;
  inputsRead : nat;
  notifications : list (list Var);
  dispatched : list dispatch_event
}.

(** The three ways a call can end: it returns, it throws, or the model runs
    out of fuel; each carries the state reached. *)
Inductive outcome (A : Type) : Type :=
| Ret (a : A) (st : interp)
| Throw (err : string) (st : interp)
| Timeout (st : interp).
Arguments Throw {A} err st.
Arguments Timeout {A} st.

(** Computations over the interpreter's fields. *)
Definition M (A : Type) : Type := interp -> outcome A.

Definition ret {A} (a : A) : M A := fun st => Ret a st.

Definition bind {A B} (c : M A) (k : A -> M B) : M B :=
  fun st =>
    match c st with
    | Ret a st' => k a st'
    | Throw e st' => Throw e st'
    | Timeout st' => Timeout st'
    end.

Definition throw {A} (e : string) : M A := fun st => Throw e st.
Definition out_of_fuel {A} : M A := fun st => Timeout st.
Definition gets {A} (f : interp -> A) : M A := fun st => Ret (f st) st.
Definition modify (f : interp -> interp) : M unit := fun st => Ret tt (f st).

Declare Scope interp_scope.
Delimit Scope interp_scope with interp.
Notation "x <- c ;; k" := (bind c (fun x => k))
  (at level 61, c at next level, right associativity) : interp_scope.
Notation "c ;;; k" := (bind c (fun _ => k))
  (at level 61, right associativity) : interp_scope.
Local Open Scope interp_scope.

(** ** Field updates *)

Definition set_variables (x : list (string * Var)) (st : interp) : interp :=
  mkInterp x (output st) (errors st) (flowchart st) (nodeCounter st)
           (inputCallback st) (variableChangeCallback st) (hasError st)
           (inputsRead st) (notifications st) (dispatched st).

Definition push_output (s : string) (st : interp) : interp :=
  mkInterp (variables st) (output st ++ [s]) (errors st) (flowchart st)
           (nodeCounter st) (inputCallback st) (variableChangeCallback st)
           (hasError st) (inputsRead st) (notifications st) (dispatched st).

Definition push_error (s : string) (st : interp) : interp :=
  mkInterp (variables st) (output st) (errors st ++ [s]) (flowchart st)
           (nodeCounter st) (inputCallback st) (variableChangeCallback st)
           (hasError st) (inputsRead st) (notifications st) (dispatched st).

Definition set_hasError (b : bool) (st : interp) : interp :=
  mkInterp (variables st) (output st) (errors st) (flowchart st)
           (nodeCounter st) (inputCallback st) (variableChangeCallback st)
           b (inputsRead st) (notifications st) (dispatched st).

(** [this.errors.push(msg); this.hasError = true] *)
Definition fail_with (msg : string) (st : interp) : interp :=
  set_hasError true (push_error msg st).

Definition log_dispatch (index : nat) (st : interp) : interp :=
  mkInterp (variables st) (output st) (errors st) (flowchart st)
           (nodeCounter st) (inputCallback st) (variableChangeCallback st)
           (hasError st) (inputsRead st) (notifications st)
           (dispatched st
              ++ [mkEvent index (hasError st) (List.length (errors st))]).

Definition nat_to_string (n : nat) : string :=
  NilZero.string_of_uint (Nat.to_uint n).

Definition N_to_string (n : N) : string := Num.to_string (Num.of_N n).

Definition quoted (s : string) : string :=
  String Chars.dquote (s ++ String Chars.dquote EmptyString).

(** [Map.prototype.get] *)
Fixpoint lookup (key : string) (vars : list (string * Var)) : option Var :=
  match vars with
  | [] => None
  | (k, v) :: r => if String.eqb k key then Some v else lookup key r
  end.

(** [Map.prototype.set]: an existing key keeps its place. *)
Fixpoint map_set (key : string) (v : Var) (vars : list (string * Var))
  : list (string * Var) :=
  match vars with
  | [] => [(key, v)]
  | (k, w) :: r =>
      if String.eqb k key then (k, v) :: r else (k, w) :: map_set key v r
  end.

(** [existingVar.value = x], the variable object being the one stored under
    [key]. *)
Fixpoint set_value (key : string) (x : jsval) (vars : list (string * Var))
  : list (string * Var) :=
  match vars with
  | [] => []
  | (k, w) :: r =>
      if String.eqb k key then (k, mkVar (name w) (type w) x) :: r
      else (k, w) :: set_value key x r
  end.

Definition notifyVariableChange (st : interp) : interp :=
  if variableChangeCallback st then
    mkInterp (variables st) (output st) (errors st) (flowchart st)
             (nodeCounter st) (inputCallback st) (variableChangeCallback st)
             (hasError st) (inputsRead st)
             (notifications st ++ [map snd (variables st)]) (dispatched st)
  else st.

Definition reset (st : interp) : interp :=
  mkInterp [] [] [] [] 0 (inputCallback st) (variableChangeCallback st)
           false 0 [] [].

(** A fresh interpreter with the two callbacks set. *)
Definition new_interpreter (cb : option (nat -> string -> string))
           (sink : bool) : interp :=
  mkInterp [] [] [] [] 0 cb sink false 0 [] [].

Definition addFlowchartNode (k : NodeType) (txt : string) (st : interp)
  : interp :=
  mkInterp (variables st) (output st) (errors st)
           (flowchart st
              ++ [mkNode ("node_" ++ nat_to_string (nodeCounter st)) k txt []])
           (S (nodeCounter st)) (inputCallback st)
           (variableChangeCallback st) (hasError st) (inputsRead st)
           (notifications st) (dispatched st).

(** [await this.inputCallback(prompt)]; without a callback the value stays
    the empty string. *)
Definition read_input (prompt : string) (st : interp) : string * interp :=
  match inputCallback st with
  | Some cb =>
      (cb (inputsRead st) prompt,
       mkInterp (variables st) (output st) (errors st) (flowchart st)
                (nodeCounter st) (inputCallback st)
                (variableChangeCallback st) (hasError st)
                (S (inputsRead st)) (notifications st) (dispatched st))
  | None => (EmptyString, st)
  end.

Definition getDefaultValue (ty : string) : jsval :=
  let t := Str.toLowerCase ty in
  if String.eqb t "entero" || String.eqb t "real" then JNum Num.zero
  else if String.eqb t "caracter" || String.eqb t "cadena" then JStr EmptyString
  else if String.eqb t "logico" then JBool false
  else JNull.

(** ** splitByComma *)

Record split_state : Type := mkSplit {
  sp_parts : list string;
  sp_current : list ascii;       (* reversed *)
  sp_inString : bool;
  sp_stringChar : ascii;
  sp_prev : option ascii         (* expr[i-1] *)
}.

Definition is_quote (c : ascii) : bool :=
  Ascii.eqb c Chars.dquote || Ascii.eqb c "'".

Definition push_part (cur : list ascii) (parts : list string) : list string :=
  let t := Str.of_chars (Str.trim_chars (rev cur)) in
  if Str.is_empty t then parts else parts ++ [t].

Definition split_step (s : split_state) (c : ascii) : split_state :=
  let unescaped :=
    match sp_prev s with
    | None => true
    | Some p => negb (Ascii.eqb p "\")
    end in
  if is_quote c && unescaped then
    if negb (sp_inString s)
    then mkSplit (sp_parts s) (c :: sp_current s) true c (Some c)
    else if Ascii.eqb c (sp_stringChar s)
    then mkSplit (sp_parts s) (c :: sp_current s) false (sp_stringChar s) (Some c)
    else mkSplit (sp_parts s) (c :: sp_current s) true (sp_stringChar s) (Some c)
  else if Ascii.eqb c "," && negb (sp_inString s) then
    mkSplit (push_part (sp_current s) (sp_parts s)) [] (sp_inString s)
            (sp_stringChar s) (Some c)
  else mkSplit (sp_parts s) (c :: sp_current s) (sp_inString s)
               (sp_stringChar s) (Some c).

Definition splitByComma (expr : string) : list string :=
  let s := fold_left split_step (Str.chars expr)
                     (mkSplit [] [] false "000"%char None) in
  push_part (sp_current s) (sp_parts s).

(** A part of a concatenation that is a quoted literal. *)
Definition is_quoted_literal (t : string) : bool :=
  (Str.startsWith t (String Chars.dquote EmptyString)
   && Str.endsWith t (String Chars.dquote EmptyString))
  || (Str.startsWith t "'" && Str.endsWith t "'").

(** ** Block resolution *)

(** The scan for the matching [finmientras] / [finpara]:
    [while (endIndex < lines.length && depth > 0)]. *)
Fixpoint scan_block (opener closer : string) (rest : list string)
         (depth : Z) (endIndex : nat) : nat :=
  match rest with
  | [] => endIndex
  | l :: r =>
      if (0 <? depth)%Z then
        let checkLine := Str.toLowerCase l in
        let d1 := if Str.startsWith checkLine opener then (depth + 1)%Z else depth in
        let d2 := if Str.startsWith checkLine closer then (d1 - 1)%Z else d1 in
        scan_block opener closer r d2 (S endIndex)
      else endIndex
  end.

Definition find_end (opener closer : string) (lines : list string)
           (index : nat) : nat :=
  scan_block opener closer (skipn (index + 1) lines) 1 (index + 1).

(** The scan of a [si] block: the matching [finsi] and the first [sino] or
    [sino si] at depth 1. *)
Fixpoint scan_si (rest : list string) (depth sinoIndex : Z) (endIndex : nat)
  : Z * nat :=
  match rest with
  | [] => (sinoIndex, endIndex)
  | l :: r =>
      if (0 <? depth)%Z then
        let checkLine := Str.trim (Str.toLowerCase l) in
        let d1 := if Re.test false Pat.si_open checkLine
                     && Str.includes checkLine "entonces"
                  then (depth + 1)%Z else depth in
        let d2 := if String.eqb checkLine "finsi" then (d1 - 1)%Z else d1 in
        let s := if (d2 =? 1)%Z && (sinoIndex =? -1)%Z
                    && (String.eqb checkLine "sino"
                        || Re.test false Pat.sino_si_open checkLine)
                 then Z.of_nat endIndex else sinoIndex in
        scan_si r d2 s (S endIndex)
      else (sinoIndex, endIndex)
  end.

(** The first scan of the [sino si] branch: it stops at the next [sino] or
    [sino si] of depth 1. *)
Fixpoint scan_next_sino (rest : list string) (depth : Z) (endIndex : nat) : Z :=
  match rest with
  | [] => (-1)%Z
  | l :: r =>
      if (0 <? depth)%Z then
        let checkLine := Str.trim (Str.toLowerCase l) in
        let d1 := if Re.test false Pat.si_open checkLine
                     && Str.includes checkLine "entonces"
                  then (depth + 1)%Z else depth in
        let d2 := if String.eqb checkLine "finsi" then (d1 - 1)%Z else d1 in
        if (d2 =? 1)%Z
           && (String.eqb checkLine "sino"
               || Re.test false Pat.sino_si_open checkLine)
        then Z.of_nat endIndex
        else scan_next_sino r d2 (S endIndex)
      else (-1)%Z
  end.

(** The second scan of the [sino si] branch: the matching [finsi]. *)
Fixpoint scan_finsi (rest : list string) (depth : Z) (finsiIndex : nat) : nat :=
  match rest with
  | [] => finsiIndex
  | l :: r =>
      if (0 <? depth)%Z then
        let checkLine := Str.trim (Str.toLowerCase l) in
        let d1 := if Str.startsWith checkLine "si "
                     && Str.includes checkLine "entonces"
                  then (depth + 1)%Z else depth in
        let d2 := if String.eqb checkLine "finsi" then (d1 - 1)%Z else d1 in
        scan_finsi r d2 (S finsiIndex)
      else finsiIndex
  end.

(** The case groups of a [segun] block. *)
Record CaseItem : Type := mkCase {
  values : list jsval;          (* strings and numbers *)
  startLine : Z;
  endLine : Z
}.

Record DefaultCase : Type := mkDefault {
  d_startLine : Z;
  d_endLine : Z
}.

Record segun_state : Type := mkSegun {
  sg_depth : Z;
  sg_endIndex : nat;
  sg_cases : list CaseItem;
  sg_defaultCase : option DefaultCase;
  sg_currentCaseStart : Z;
  sg_currentCaseValues : list jsval
}.

(** One value of a case label: a quoted literal, a number, or the bare
    text. *)
Definition parse_case_value (v : string) : jsval :=
  let trimmed := Str.trim v in
  if is_quoted_literal trimmed then JStr (Str.slice_1_m1 trimmed)
  else
    let num := Num.parseFloat trimmed in
    if negb (Num.isNaN num) then JNum num else JStr trimmed.

(** Pushes the group that is being collected, when it is a case group. *)
Definition save_previous (endIndex : nat) (cases : list CaseItem)
           (currentCaseStart : Z) (currentCaseValues : list jsval)
  : list CaseItem :=
  if negb (currentCaseStart =? -1)%Z
     && (0 <? List.length currentCaseValues)%nat
  then cases ++ [mkCase currentCaseValues currentCaseStart (Z.of_nat endIndex)]
  else cases.

Definition segun_step (l : string) (s : segun_state) : segun_state :=
  let endIndex := sg_endIndex s in
  let checkLine := Str.trim (Str.toLowerCase l) in
  let checkOriginal := Str.trim l in
  let d1 := if Str.startsWith checkLine "segun"
            then (sg_depth s + 1)%Z else sg_depth s in
  (* finsegun *)
  let '(d2, cases2, default2) :=
    if Str.startsWith checkLine "finsegun" then
      let d := (d1 - 1)%Z in
      if (d =? 0)%Z && negb (sg_currentCaseStart s =? -1)%Z then
        if (0 <? List.length (sg_currentCaseValues s))%nat then
          (d, sg_cases s ++ [mkCase (sg_currentCaseValues s)
                                    (sg_currentCaseStart s)
                                    (Z.of_nat endIndex)],
           sg_defaultCase s)
        else
          match sg_defaultCase s with
          | Some dc =>
              if (d_startLine dc =? sg_currentCaseStart s)%Z
              then (d, sg_cases s,
                    Some (mkDefault (d_startLine dc) (Z.of_nat endIndex)))
              else (d, sg_cases s, sg_defaultCase s)
          | None => (d, sg_cases s, sg_defaultCase s)
          end
      else (d, sg_cases s, sg_defaultCase s)
    else (d1, sg_cases s, sg_defaultCase s) in
  if (d2 =? 1)%Z then
    let is_default := Str.startsWith checkLine "de otro modo" in
    (* a case label *)
    let '(cases3, start3, values3) :=
      match Re.exec true Pat.case_label checkOriginal with
      | Some f =>
          if negb is_default then
            (save_previous endIndex cases2 (sg_currentCaseStart s)
                           (sg_currentCaseValues s),
             Z.of_nat (endIndex + 1),
             map parse_case_value
                 (Str.split ","
                    (match Re.group f 1 with Some g => g | None => EmptyString end)))
          else (cases2, sg_currentCaseStart s, sg_currentCaseValues s)
      | None => (cases2, sg_currentCaseStart s, sg_currentCaseValues s)
      end in
    (* the default label *)
    if is_default then
      mkSegun d2 (S endIndex)
              (save_previous endIndex cases3 start3 values3)
              (Some (mkDefault (Z.of_nat (endIndex + 1)) (-1)))
              (Z.of_nat (endIndex + 1)) []
    else mkSegun d2 (S endIndex) cases3 default2 start3 values3
  else mkSegun d2 (S endIndex) cases2 default2
               (sg_currentCaseStart s) (sg_currentCaseValues s).

Fixpoint scan_segun (rest : list string) (s : segun_state) : segun_state :=
  match rest with
  | [] => s
  | l :: r =>
      if (0 <? sg_depth s)%Z then scan_segun r (segun_step l s) else s
  end.

(** [caseItem.values.some(...)] against the switch value. *)
Definition value_matches (varValue v : jsval) : bool :=
  match v, varValue with
  | JNum a, JNum b => Num.strict_eq a b
  | _, _ =>
      String.eqb (Str.toLowerCase (Val.to_string v))
                 (Str.toLowerCase (Val.to_string varValue))
  end.

Definition case_matches (varValue : jsval) (c : CaseItem) : bool :=
  existsb (value_matches varValue) (values c).

(** [values.join(', ')] *)
Definition join_values (vs : list jsval) : string :=
  Str.join ", " (map Val.to_string vs).

(** ** The evaluators and the statement dispatcher *)

Section Interpreter.

(** The host evaluator: [js_eval text] is the outcome of
    [new Function("return " + text)()], [None] when the call throws. *)
Variable js_eval : string -> option jsval.

(** The variable substitution of both evaluators: every variable of the
    [Map], in insertion order, is replaced as a whole word. *)
Definition substitute (show : jsval -> string) (vars : list (string * Var))
           (expr : string) : string :=
  fold_left
    (fun acc kv =>
       Re.replace_all true (Pat.whole_word (fst kv)) 0
                      (show (value (snd kv))) acc)
    vars expr.

Definition math_call (fn native : string) (s : string) : string :=
  Re.replace_all true (Pat.call fn) 1 (native ++ "($1)") s.

(** [processedExpr] of [evaluateSimpleExpression]. *)
Definition rewrite_expression (st : interp) (expr : string) : string :=
  let p := substitute Val.to_string (variables st) expr in
  let p := math_call "raiz" "Math.sqrt" p in
  let p := math_call "abs" "Math.abs" p in
  let p := math_call "sen" "Math.sin" p in
  let p := math_call "cos" "Math.cos" p in
  let p := math_call "tan" "Math.tan" p in
  let p := math_call "ln" "Math.log" p in
  let p := math_call "exp" "Math.exp" p in
  let p := math_call "trunc" "Math.trunc" p in
  let p := math_call "redon" "Math.round" p in
  let p := Re.replace_all false (Re.lit "^") 0 "**" p in
  let p := Re.replace_all true (Re.lit "mod") 0 "%" p in
  let p := Re.replace_all true (Pat.bounded "VERDADERO") 0 "true" p in
  Re.replace_all true (Pat.bounded "FALSO") 0 "false" p.

Definition evaluateSimpleExpression (st : interp) (expr : string) : jsval :=
  let processedExpr := rewrite_expression st expr in
  match js_eval processedExpr with
  | Some result => result
  | None => JStr processedExpr
  end.

(** [processed] of [evaluateCondition]. *)
Definition rewrite_condition (st : interp) (condition : string) : string :=
  let p := substitute Val.json_text (variables st) condition in
  let p := Re.replace_all true (Pat.bounded "Y") 0 "&&" p in
  let p := Re.replace_all true (Pat.bounded "O") 0 "||" p in
  let p := Re.replace_all true (Pat.bounded "NO") 0 "!" p in
  let p := Re.replace_all false (Re.lit "<>") 0 "!==" p in
  let p := Re.replace_all false (Re.lit ">=") 0 ">=" p in
  let p := Re.replace_all false (Re.lit "<=") 0 "<=" p in
  let p := Re.replace_all false Pat.lone_equals 0 "===" p in
  let p := Re.replace_all true (Re.lit "VERDADERO") 0 "true" p in
  Re.replace_all true (Re.lit "FALSO") 0 "false" p.

Definition evaluateCondition (st : interp) (condition : string) : bool :=
  match js_eval (rewrite_condition st condition) with
  | Some result => Val.truthy result
  | None => false
  end.

Definition undefined_in_expression (trimmed : string) : string :=
  "Error: La variable " ++ quoted trimmed ++ " no ha sido definida.".

(** One part of a concatenation: the text it contributes and the state
    after it. *)
Definition evaluate_part (part : string) (st : interp) : string * interp :=
  let trimmed := Str.trim part in
  if is_quoted_literal trimmed then (Str.slice_1_m1 trimmed, st)
  else
    match lookup (Str.toLowerCase trimmed) (variables st) with
    | Some varValue => (Val.to_string (value varValue), st)
    | None =>
        if Re.test false Pat.identifier trimmed
           && negb (Re.test false Pat.all_digits trimmed)
        then (("[" ++ trimmed ++ "?]")%string,
              fail_with (undefined_in_expression trimmed) st)
        else (Val.to_string (evaluateSimpleExpression st trimmed), st)
    end.

Fixpoint evaluate_parts (parts : list string) (results : list string)
         (st : interp) : list string * interp :=
  match parts with
  | [] => (results, st)
  | p :: r =>
      let (s, st') := evaluate_part p st in
      evaluate_parts r (results ++ [s]) st'
  end.

Definition evaluateExpression (expr : string) (st : interp) : jsval * interp :=
  if Str.includes expr (String Chars.dquote EmptyString)
     || Str.includes expr "'"
  then
    let (results, st') := evaluate_parts (splitByComma expr) [] st in
    (JStr (Str.join " " results), st')
  else (evaluateSimpleExpression st expr, st).

(** [await this.inputCallback(prompt)] as a computation. *)
Definition ask (prompt : string) : M string :=
  fun st => let (v, st') := read_input prompt st in Ret v st'.

(** [evaluateExpression] as a computation. *)
Definition eval_expr (expr : string) : M jsval :=
  fun st => let (v, st') := evaluateExpression expr st in Ret v st'.

Definition undefined_variable (varName : string) : string :=
  "Error: La variable " ++ quoted varName
    ++ " no ha sido definida. Use "
    ++ quoted ("Definir " ++ varName ++ " Como Tipo") ++ " primero.".

Definition undefined_array (arrName : string) : string :=
  "Error: El arreglo " ++ quoted arrName
    ++ " no ha sido definido. Use "
    ++ quoted ("Dimension " ++ arrName ++ "[tama"
               ++ String Chars.n_tilde "o]") ++ " primero.".

Definition undefined_segun (varName : string) : string :=
  "Error: La variable " ++ quoted varName ++ " no ha sido definida.".

(** The coercion of an input string by the declared type. *)
Definition coerce_input (ty : string) (v : string) : jsval :=
  if String.eqb ty "entero" || String.eqb ty "real" then
    let x := Num.parseFloat v in
    JNum (if Num.truthy x then x else Num.zero)
  else if String.eqb ty "logico" then
    JBool (Re.test true Pat.verdadero_input v)
  else JStr v.

(** The loop over the names of a [leer] statement; [true] when it was left
    by the [return] of the undefined-variable case. *)
Fixpoint leer_vars (varNames : list string) : M bool :=
  match varNames with
  | [] => ret false
  | varName :: rest =>
      existing <- gets (fun st => lookup (Str.toLowerCase varName)
                                         (variables st)) ;;
      match existing with
      | None =>
          modify (fail_with (undefined_variable varName)) ;;;
          ret true
      | Some existingVar =>
          v <- ask ("Ingrese valor para " ++ varName ++ ":") ;;
          modify (fun st =>
                    set_variables
                      (set_value (Str.toLowerCase varName)
                                 (coerce_input (type existingVar) v)
                                 (variables st)) st) ;;;
          modify notifyVariableChange ;;;
          leer_vars rest
      end
  end.

Definition maxIterations : nat := 100.

(** [while (j < stop && !this.hasError) j = await this.executeLine(lines, j)],
    the loop every block body is run by. *)
Fixpoint run_lines (exec : nat -> M nat) (n : nat) (j stop : nat) : M unit :=
  fun st =>
    if (j <? stop)%nat && negb (hasError st) then
      match n with
      | O => Timeout st
      | S n' =>
          match exec j st with
          | Ret j' st' => run_lines exec n' j' stop st'
          | Throw e st' => Throw e st'
          | Timeout st' => Timeout st'
          end
      end
    else Ret tt st.

(** The loop of [mientras].  The first component of the result is ghost:
    the number of body passes begun. *)
Fixpoint while_loop (body : M unit) (condition : string) (n : nat)
         (iterations : nat) (st : interp) : nat * outcome unit :=
  if evaluateCondition st condition
     && (iterations <? maxIterations)%nat
     && negb (hasError st)
  then
    match n with
    | O => (iterations, Timeout st)
    | S n' =>
        match body st with
        | Ret _ st' => while_loop body condition n' (S iterations) st'
        | Throw e st' => (S iterations, Throw e st')
        | Timeout st' => (S iterations, Timeout st')
        end
    end
  else (iterations, Ret tt st).

(** The loop of [para].  The first component of the result is ghost: the
    values of the control variable for which a body pass was begun.  The
    counter is an integer where the host adds doubles: the two agree while
    every sum [v + step] the loop forms is at most 2^53, which is the bound
    b + s <= 2^53 of the theorem on [para]. *)
Fixpoint para_loop (body : M unit) (varName : string) (n : nat)
         (v e step : N) (st : interp) : list N * outcome unit :=
  if (v <=? e)%N && negb (hasError st) then
    match n with
    | O => ([], Timeout st)
    | S n' =>
        let st1 :=
          notifyVariableChange
            (set_variables
               (map_set (Str.toLowerCase varName)
                        (mkVar varName "entero" (JNum (Num.of_N v)))
                        (variables st)) st) in
        match body st1 with
        | Ret _ st2 =>
            let (vs, o) := para_loop body varName n' (v + step)%N e step st2 in
            (v :: vs, o)
        | Throw err st2 => ([v], Throw err st2)
        | Timeout st2 => ([v], Timeout st2)
        end
    end
  else ([], Ret tt st).

Definition while_M (body : M unit) (condition : string) (n : nat) : M unit :=
  fun st => snd (while_loop body condition n 0 st).

Definition para_M (body : M unit) (varName : string) (n : nat)
           (v e step : N) : M unit :=
  fun st => snd (para_loop body varName n v e step st).

Definition group_or_empty (f : Re.found) (n : nat) : string :=
  match Re.group f n with Some g => g | None => EmptyString end.

Section Branches.

(** The recursive calls [this.executeLine(lines, j)] and the fuel of the
    loops around them. *)
Variable exec : nat -> M nat.
Variable fuel : nat.
Variable lines : list string.
Variable index : nat.
Variable originalLine : string.

Definition exec_definir : M nat :=
  match Re.exec true Pat.definir originalLine with
  | Some f =>
      let name := group_or_empty f 1 in
      let type := group_or_empty f 2 in
      modify (fun st =>
                set_variables
                  (map_set (Str.toLowerCase name)
                           (mkVar name (Str.toLowerCase type)
                                  (getDefaultValue type))
                           (variables st)) st) ;;;
      modify notifyVariableChange ;;;
      modify (addFlowchartNode process
                ("Definir " ++ name ++ " como " ++ type)) ;;;
      ret (index + 1)
  | None => ret (index + 1)
  end.

(** [new Array(n)] throws for a length above 2^32 - 1. *)
Definition exec_dimension : M nat :=
  match Re.exec true Pat.dimension originalLine with
  | Some f =>
      let name := group_or_empty f 1 in
      let size := group_or_empty f 2 in
      if (4294967295 <? Num.parseInt size)%N
      then throw "RangeError: Invalid array length"
      else
        modify (fun st =>
                  set_variables
                    (map_set (Str.toLowerCase name)
                             (mkVar name "arreglo"
                                    (JArr (Val.zeros (Num.parseInt size))))
                             (variables st)) st) ;;;
        modify notifyVariableChange ;;;
        modify (addFlowchartNode process
                  ("Dimension " ++ name ++ "[" ++ size ++ "]")) ;;;
        ret (index + 1)
  | None => ret (index + 1)
  end.

Definition leer_names (list_text : string) : list string :=
  map (fun v => Re.replace_first false Pat.trailing_semicolon 0
                                 EmptyString (Str.trim v))
      (Str.split "," list_text).

Definition exec_leer : M nat :=
  match Re.exec true Pat.leer originalLine with
  | Some f =>
      aborted <- leer_vars (leer_names (group_or_empty f 1)) ;;
      if (aborted : bool) then ret (index + 1)
      else
        modify (addFlowchartNode input ("Leer " ++ group_or_empty f 1)) ;;;
        ret (index + 1)
  | None => ret (index + 1)
  end.

Definition exec_escribir : M nat :=
  match Re.exec true Pat.escribir originalLine with
  | Some f =>
      result <- eval_expr (group_or_empty f 1) ;;
      modify (push_output (Val.to_string result)) ;;;
      modify (addFlowchartNode output_ ("Escribir " ++ group_or_empty f 1)) ;;;
      ret (index + 1)
  | None => ret (index + 1)
  end.

(** The branches below return [None] when their pattern does not match:
    the dispatcher then goes on to the next test. *)
Definition exec_mientras : option (M nat) :=
  match Re.exec true Pat.mientras originalLine with
  | Some f =>
      let condition := group_or_empty f 1 in
      let endIndex := find_end "mientras" "finmientras" lines index in
      Some (modify (addFlowchartNode decision ("Mientras " ++ condition)) ;;;
            while_M (run_lines exec fuel (index + 1) (endIndex - 1))
                    condition fuel ;;;
            ret endIndex)
  | None => None
  end.

Definition exec_para : option (M nat) :=
  match Re.exec true Pat.para originalLine with
  | Some f =>
      let varName := group_or_empty f 1 in
      let start := Num.parseInt (group_or_empty f 2) in
      let end' := Num.parseInt (group_or_empty f 3) in
      let step :=
        Num.parseInt (match Re.group f 4 with Some s => s | None => "1" end) in
      let endIndex := find_end "para" "finpara" lines index in
      Some (modify (addFlowchartNode decision
                      ("Para " ++ varName ++ " <- " ++ N_to_string start
                               ++ " Hasta " ++ N_to_string end')) ;;;
            para_M (run_lines exec fuel (index + 1) (endIndex - 1))
                   varName fuel start end' step ;;;
            ret endIndex)
  | None => None
  end.

Definition scan_segun_at : segun_state :=
  scan_segun (skipn (index + 1) lines)
             (mkSegun 1 (index + 1) [] None (-1) []).

Definition exec_segun : option (M nat) :=
  match Re.exec true Pat.segun originalLine with
  | Some f =>
      let varName := group_or_empty f 1 in
      Some (
        found <- gets (fun st => lookup (Str.toLowerCase varName)
                                        (variables st)) ;;
        match found with
        | None =>
            modify (fail_with (undefined_segun varName)) ;;;
            ret (index + 1)
        | Some variable =>
            let varValue := value variable in
            let s := scan_segun_at in
            modify (addFlowchartNode decision ("Segun " ++ varName)) ;;;
            match find (case_matches varValue) (sg_cases s) with
            | Some caseItem =>
                modify (addFlowchartNode process
                          ("Caso " ++ join_values (values caseItem))) ;;;
                run_lines exec fuel (Z.to_nat (startLine caseItem))
                          (Z.to_nat (endLine caseItem))
            | None =>
                match sg_defaultCase s with
                | Some dc =>
                    if negb (d_endLine dc =? -1)%Z then
                      modify (addFlowchartNode process "De Otro Modo") ;;;
                      run_lines exec fuel (Z.to_nat (d_startLine dc))
                                (Z.to_nat (d_endLine dc))
                    else ret tt
                | None => ret tt
                end
            end ;;;
            ret (sg_endIndex s)
        end)
  | None => None
  end.

Definition exec_si : option (M nat) :=
  match Re.exec true Pat.si originalLine with
  | Some f =>
      let condition := Str.trim (group_or_empty f 1) in
      let '(sinoIndex, endIndex) :=
        scan_si (skipn (index + 1) lines) 1 (-1) (index + 1) in
      Some (
        conditionResult <- gets (fun st => evaluateCondition st condition) ;;
        modify (addFlowchartNode decision ("Si " ++ condition)) ;;;
        (if (conditionResult : bool) then
           let execEnd := if (0 <? sinoIndex)%Z then Z.to_nat sinoIndex
                          else endIndex - 1 in
           run_lines exec fuel (index + 1) execEnd
         else if (0 <? sinoIndex)%Z then
           let sinoLine :=
             Str.trim (Str.toLowerCase
                         (nth (Z.to_nat sinoIndex) lines EmptyString)) in
           if Re.test false Pat.sino_si_open sinoLine
           then run_lines exec fuel (Z.to_nat sinoIndex) (endIndex - 1)
           else run_lines exec fuel (Z.to_nat sinoIndex + 1) (endIndex - 1)
         else ret tt) ;;;
        ret endIndex)
  | None => None
  end.

Definition exec_sino_si : option (M nat) :=
  match Re.exec true Pat.sino_si originalLine with
  | Some f =>
      let condition := Str.trim (group_or_empty f 1) in
      let sinoIndex := scan_next_sino (skipn (index + 1) lines) 1 (index + 1) in
      let finsiIndex := scan_finsi (skipn (index + 1) lines) 1 (index + 1) in
      Some (
        conditionResult <- gets (fun st => evaluateCondition st condition) ;;
        modify (addFlowchartNode decision ("SiNo Si " ++ condition)) ;;;
        if (conditionResult : bool) then
          let execEnd := if (0 <? sinoIndex)%Z then Z.to_nat sinoIndex
                         else finsiIndex - 1 in
          run_lines exec fuel (index + 1) execEnd ;;;
          ret finsiIndex
        else if (0 <? sinoIndex)%Z then ret (Z.to_nat sinoIndex)
        else ret finsiIndex)
  | None => None
  end.

(** [arr.value[Number(idx)] = value] on the variable stored under [key];
    a key that is no array index leaves the elements as they are. *)
Definition store_element (key : string) (elems : list jsval)
           (idx v : jsval) (st : interp) : interp :=
  match Val.array_index (Val.to_number idx) with
  | Some i =>
      set_variables
        (set_value key (JArr (Val.array_set elems i v)) (variables st)) st
  | None => st
  end.

Definition exec_assignment : M nat :=
  match Re.exec true Pat.assignment originalLine with
  | Some f =>
      let varName := group_or_empty f 1 in
      let expression := group_or_empty f 2 in
      let node := addFlowchartNode process (varName ++ " <- " ++ expression) in
      match Re.exec false Pat.array_target varName with
      | Some am =>
          let arrName := group_or_empty am 1 in
          let indexExpr := group_or_empty am 2 in
          found <- gets (fun st => lookup (Str.toLowerCase arrName)
                                          (variables st)) ;;
          match found with
          | None =>
              modify (fail_with (undefined_array arrName)) ;;;
              ret (index + 1)
          | Some arr =>
              idx <- eval_expr indexExpr ;;
              v <- eval_expr expression ;;
              match value arr with
              | JArr elems =>
                  modify (store_element (Str.toLowerCase arrName)
                                        elems idx v) ;;;
                  modify notifyVariableChange
              | _ => ret tt
              end ;;;
              modify node ;;;
              ret (index + 1)
          end
      | None =>
          found <- gets (fun st => lookup (Str.toLowerCase varName)
                                          (variables st)) ;;
          match found with
          | None =>
              modify (fail_with (undefined_variable varName)) ;;;
              ret (index + 1)
          | Some _ =>
              v <- eval_expr expression ;;
              modify (fun st =>
                        set_variables
                          (set_value (Str.toLowerCase varName) v
                                     (variables st)) st) ;;;
              modify notifyVariableChange ;;;
              modify node ;;;
              ret (index + 1)
          end
      end
  | None => ret (index + 1)
  end.

(** A branch that may decline. *)
Definition or_else (c : option (M nat)) (k : M nat) : M nat :=
  match c with Some r => r | None => k end.

Definition when (b : bool) (c : option (M nat)) : option (M nat) :=
  if b then c else None.

(** The body of [executeLine] after the line has been fetched. *)
Definition dispatch : M nat :=
  let line := Str.toLowerCase originalLine in
  if Str.startsWith line "algoritmo" || Str.startsWith line "proceso"
  then ret (index + 1)
  else if Str.startsWith line "finalgoritmo" || Str.startsWith line "finproceso"
  then ret (index + 1)
  else if Str.startsWith line "definir" then exec_definir
  else if Str.startsWith line "dimension" then exec_dimension
  else if Str.startsWith line "leer" then exec_leer
  else if Str.startsWith line "escribir" then exec_escribir
  else
    or_else (when (Str.startsWith line "mientras") exec_mientras)
   (or_else (when (Str.startsWith line "para") exec_para)
   (or_else (when (Str.startsWith line "segun") exec_segun)
   (or_else (when (Str.startsWith line "si"
                   && negb (Str.startsWith line "sino")) exec_si)
   (or_else (when (Re.test true Pat.sino_si_open line) exec_sino_si)
   (if Str.includes line "<-" || Str.includes line "="
    then exec_assignment
    else ret (index + 1)))))).

End Branches.

(** [lines[index]] past the end is [undefined], and the call of
    [toLowerCase] on it throws. *)
Definition no_such_line : string :=
  "TypeError: Cannot read properties of undefined (reading 'toLowerCase')".

Fixpoint executeLine (fuel : nat) (lines : list string) (index : nat)
  : M nat :=
  match fuel with
  | O => out_of_fuel
  | S fuel' =>
      modify (log_dispatch index) ;;;
      match nth_error lines index with
      | Some originalLine =>
          dispatch (executeLine fuel' lines) fuel' lines index originalLine
      | None => throw no_such_line
      end
  end.

(** The preprocessing of [execute]. *)
Definition preprocess (code : string) : list string :=
  let ls := Str.split (ascii_of_nat 10) code in
  let ls := map Str.trim ls in
  let ls := map (Re.replace_all false Pat.trailing_semicolon 0 EmptyString) ls in
  let ls := map (Re.replace_all true Pat.semicolon_entonces 1 " $1") ls in
  filter (fun line => negb (Str.is_empty line)
                      && negb (Str.startsWith line "//")) ls.

Definition caught (i : nat) (error : string) : string :=
  "Error en l" ++ String Chars.i_acute "nea " ++ nat_to_string (i + 1)
    ++ ": " ++ error.

(** The main loop of [execute], with its [try]/[catch]. *)
Fixpoint main_loop (fuel n : nat) (lines : list string) (i : nat)
         (st : interp) : outcome unit :=
  if (i <? List.length lines)%nat && negb (hasError st) then
    match n with
    | O => Timeout st
    | S n' =>
        match executeLine fuel lines i st with
        | Ret i' st' => main_loop fuel n' lines i' st'
        | Throw error st' =>
            main_loop fuel n' lines i (fail_with (caught i error) st')
        | Timeout st' => Timeout st'
        end
    end
  else Ret tt st.

(** [this.flowchart[j].children.push(this.flowchart[j + 1].id)] for every
    [j] below [length - 1]. *)
Fixpoint connect (nodes : list FlowchartNode) : list FlowchartNode :=
  match nodes with
  | a :: ((b :: _) as rest) =>
      mkNode (id a) (kind a) (text a) (children a ++ [id b]) :: connect rest
  | _ => nodes
  end.

Definition set_flowchart (x : list FlowchartNode) (st : interp) : interp :=
  mkInterp (variables st) (output st) (errors st) x (nodeCounter st)
           (inputCallback st) (variableChangeCallback st) (hasError st)
           (inputsRead st) (notifications st) (dispatched st).

(** What [execute] does after the main loop. *)
Definition finish (st : interp) : interp :=
  let st1 := addFlowchartNode end_ "Fin" st in
  set_flowchart (connect (flowchart st1)) st1.

Definition result_of (st : interp) : ExecutionResult :=
  mkResult (output st) (errors st) (flowchart st).

(** [execute(code)]: the final state of the interpreter, [None] when the
    fuel runs out; the value returned is [result_of] it. *)
Definition execute (fuel : nat) (code : string) (st : interp)
  : option interp :=
  let st0 := reset st in
  let lines := preprocess code in
  let st1 := addFlowchartNode start "Inicio" st0 in
  match main_loop fuel fuel lines 0 st1 with
  | Ret _ st2 => Some (finish st2)
  | _ => None
  end.

End Interpreter.

(** ** An evaluator for the examples

    The theorems below hold for every host evaluator.  The examples need a
    concrete one; this one evaluates the small fragment they use: an
    operand, or two operands joined by one operator, where an operand is a
    decimal integer literal, [true] or [false].  Every other text is
    answered [None]; the examples apply it only to texts of the fragment and
    to a bare identifier that is bound nowhere, on which the host throws a
    ReferenceError. *)

Module Fragment.

Import Num.

Definition skip_spaces (l : list ascii) : list ascii :=
  Str.drop_while Chars.is_space l.

Definition operand (l : list ascii) : option (jsval * list ascii) :=
  match span_digits l with
  | (c :: ds, rest) => Some (JNum (of_N (digits_val 0 (c :: ds))), rest)
  | ([], _) =>
      if String.prefix "true" (Str.of_chars l) then Some (JBool true, skipn 4 l)
      else if String.prefix "false" (Str.of_chars l)
      then Some (JBool false, skipn 5 l)
      else None
  end.

Inductive binop : Type := Gt | Lt | Ge | Le | Eq3 | Ne3 | Add | Mul.

Definition operator (l : list ascii) : option (binop * list ascii) :=
  let s := Str.of_chars l in
  if String.prefix "===" s then Some (Eq3, skipn 3 l)
  else if String.prefix "!==" s then Some (Ne3, skipn 3 l)
  else if String.prefix ">=" s then Some (Ge, skipn 2 l)
  else if String.prefix "<=" s then Some (Le, skipn 2 l)
  else if String.prefix ">" s then Some (Gt, skipn 1 l)
  else if String.prefix "<" s then Some (Lt, skipn 1 l)
  else if String.prefix "+" s then Some (Add, skipn 1 l)
  else if String.prefix "*" s then Some (Mul, skipn 1 l)
  else None.

Definition apply (op : binop) (a b : jsval) : option jsval :=
  match a, b with
  | JNum (Fin false x 0%N), JNum (Fin false y 0%N) =>
      Some (match op with
            | Gt => JBool (y <? x)%N
            | Lt => JBool (x <? y)%N
            | Ge => JBool (y <=? x)%N
            | Le => JBool (x <=? y)%N
            | Eq3 => JBool (x =? y)%N
            | Ne3 => JBool (negb (x =? y)%N)
            | Add => JNum (of_N (x + y))
            | Mul => JNum (of_N (x * y))
            end)
  | JBool x, JBool y =>
      match op with
      | Eq3 => Some (JBool (Bool.eqb x y))
      | Ne3 => Some (JBool (negb (Bool.eqb x y)))
      | _ => None
      end
  | _, _ => None
  end.

Definition js_eval (text : string) : option jsval :=
  match operand (skip_spaces (Str.chars text)) with
  | Some (a, rest) =>
      match skip_spaces rest with
      | [] => Some a
      | rest1 =>
          match operator rest1 with
          | Some (op, rest2) =>
              match operand (skip_spaces rest2) with
              | Some (b, rest3) =>
                  match skip_spaces rest3 with
                  | [] => apply op a b
                  | _ => None
                  end
              | None => None
              end
          | None => None
          end
      end
  | None => None
  end.

End Fragment.

(** ** Sample programs *)

Definition nl : string := String (ascii_of_nat 10) EmptyString.

Definition unlines (ls : list string) : string := Str.join nl ls.

(** An input callback that answers from a script, in order. *)
Definition scripted (answers : list string) : nat -> string -> string :=
  fun n _ => nth n answers EmptyString.

(** [defaultCode] of the source. *)
Definition defaultCode : string :=
  unlines
    [ "Algoritmo condicionales";
      "    Definir edad Como Entero;";
      ("    Escribir " ++ quoted "Digite su edad" ++ ";")%string;
      "    Leer edad;";
      "";
      "    Si edad > 18 Entonces";
      ("        Escribir " ++ quoted "Usted es mayor de edad" ++ ";")%string;
      "    SiNo";
      ("        Escribir " ++ quoted "Usted es menor de edad" ++ ";")%string;
      "    FinSi";
      "FinAlgoritmo" ].

(** * Properties *)

Unset Implicit Arguments.

(** ** Strings and the variable store *)

Lemma prefix_split (p s : string) :
  String.prefix p s = true -> exists r, s = (p ++ r)%string.
Proof.
  revert s. induction p as [|a p IH]; intros s H.
  - exists s. reflexivity.
  - destruct s as [|b s]; simpl in H; [discriminate|].
    destruct (ascii_dec a b) as [->|]; [|discriminate].
    destruct (IH _ H) as [r ->]. exists r. reflexivity.
Qed.

(** Two keywords that differ at some position cannot both start a line. *)
Ltac other_prefix H :=
  let r := fresh "r" in
  let E := fresh "E" in
  destruct (prefix_split _ _ H) as [r E]; unfold Str.startsWith;
  rewrite E; reflexivity.

Lemma lookup_map_set_same key v vars :
  lookup key (map_set key v vars) = Some v.
Proof.
  induction vars as [|[k w] r IH]; simpl.
  - rewrite String.eqb_refl. reflexivity.
  - destruct (String.eqb k key) eqn:E; simpl; rewrite E; auto.
Qed.

Lemma lookup_set_value_same key x vars w :
  lookup key vars = Some w ->
  lookup key (set_value key x vars) = Some (mkVar (name w) (type w) x).
Proof.
  induction vars as [|[k u] r IH]; simpl; [discriminate|].
  destruct (String.eqb k key) eqn:E; simpl; rewrite E.
  - intros [= ->]. reflexivity.
  - exact IH.
Qed.

Lemma lookup_set_value_none key key' x vars :
  lookup key vars = None -> lookup key (set_value key' x vars) = None.
Proof.
  induction vars as [|[k u] r IH]; simpl; auto.
  destruct (String.eqb k key) eqn:E; [discriminate|].
  intros H. destruct (String.eqb k key'); simpl; rewrite E; auto.
Qed.

(** ** Field updates and the fields they leave alone *)

Lemma variables_log i st : variables (log_dispatch i st) = variables st.
Proof. reflexivity. Qed.

Lemma variables_node k t st : variables (addFlowchartNode k t st) = variables st.
Proof. reflexivity. Qed.

Lemma variables_notify st : variables (notifyVariableChange st) = variables st.
Proof. unfold notifyVariableChange. destruct (variableChangeCallback st); reflexivity. Qed.

Lemma hasError_notify st : hasError (notifyVariableChange st) = hasError st.
Proof. unfold notifyVariableChange. destruct (variableChangeCallback st); reflexivity. Qed.

Lemma errors_notify st : errors (notifyVariableChange st) = errors st.
Proof. unfold notifyVariableChange. destruct (variableChangeCallback st); reflexivity. Qed.

Lemma dispatched_notify st : dispatched (notifyVariableChange st) = dispatched st.
Proof. unfold notifyVariableChange. destruct (variableChangeCallback st); reflexivity. Qed.

Lemma output_notify st : output (notifyVariableChange st) = output st.
Proof. unfold notifyVariableChange. destruct (variableChangeCallback st); reflexivity. Qed.

Lemma inputCallback_notify st :
  inputCallback (notifyVariableChange st) = inputCallback st.
Proof. unfold notifyVariableChange. destruct (variableChangeCallback st); reflexivity. Qed.

Lemma inputsRead_notify st : inputsRead (notifyVariableChange st) = inputsRead st.
Proof. unfold notifyVariableChange. destruct (variableChangeCallback st); reflexivity. Qed.

Lemma variables_set_variables x st : variables (set_variables x st) = x.
Proof. reflexivity. Qed.

Create Rewrite HintDb fields.
#[export] Hint Rewrite variables_set_variables variables_log variables_node
  variables_notify
  hasError_notify errors_notify dispatched_notify output_notify
  inputCallback_notify inputsRead_notify : fields.

(** ** The dispatcher, branch by branch *)

Section Dispatch.

Variable js_eval : string -> option jsval.

Lemma executeLine_unfold fuel lines index st :
  executeLine js_eval (S fuel) lines index st =
  match nth_error lines index with
  | Some originalLine =>
      dispatch js_eval (executeLine js_eval fuel lines) fuel lines index
               originalLine (log_dispatch index st)
  | None => Throw no_such_line (log_dispatch index st)
  end.
Proof.
  simpl. unfold bind, modify. destruct (nth_error lines index); reflexivity.
Qed.

Variable exec : nat -> M nat.
Variables (fuel : nat) (lines : list string) (index : nat).

Lemma dispatch_definir l :
  Str.startsWith (Str.toLowerCase l) "definir" = true ->
  dispatch js_eval exec fuel lines index l = exec_definir index l.
Proof.
  intros H. unfold dispatch.
  assert (Str.startsWith (Str.toLowerCase l) "algoritmo" = false) as -> by other_prefix H.
  assert (Str.startsWith (Str.toLowerCase l) "proceso" = false) as -> by other_prefix H.
  assert (Str.startsWith (Str.toLowerCase l) "finalgoritmo" = false) as -> by other_prefix H.
  assert (Str.startsWith (Str.toLowerCase l) "finproceso" = false) as -> by other_prefix H.
  rewrite H. reflexivity.
Qed.

End Dispatch.

(** ** Declarations *)

Lemma getDefaultValue_other ty :
  ~ In (Str.toLowerCase ty) ["entero"; "real"; "caracter"; "cadena"; "logico"] ->
  getDefaultValue ty = JNull.
Proof.
  intros H. unfold getDefaultValue.
  repeat match goal with
         | |- context [String.eqb ?a ?b] =>
             let E := fresh "E" in
             destruct (String.eqb a b) eqn:E;
             [apply String.eqb_eq in E; exfalso; apply H; rewrite E; simpl; tauto|]
         end.
  reflexivity.
Qed.

(** C10.  A declaration [definir x como t] whose type word, lower-cased, is
    none of entero, real, caracter, cadena, logico (the word arreglo is such
    a word) registers the variable, under its lower-cased name, with the
    value [null]. *)
Theorem definir_unknown_type_registers_null :
  forall js_eval fuel lines index st l f,
    nth_error lines index = Some l ->
    Str.startsWith (Str.toLowerCase l) "definir" = true ->
    Re.exec true Pat.definir l = Some f ->
    ~ In (Str.toLowerCase (group_or_empty f 2))
         ["entero"; "real"; "caracter"; "cadena"; "logico"] ->
    exists st',
      executeLine js_eval (S fuel) lines index st = Ret (index + 1) st'
      /\ lookup (Str.toLowerCase (group_or_empty f 1)) (variables st')
         = Some (mkVar (group_or_empty f 1)
                       (Str.toLowerCase (group_or_empty f 2)) JNull).
Proof.
  intros js_eval fuel lines index st l f Hl Hkw Hre Hty.
  rewrite executeLine_unfold, Hl, dispatch_definir by exact Hkw.
  unfold exec_definir. rewrite Hre. unfold bind, modify, ret.
  eexists. split; [reflexivity|].
  autorewrite with fields. simpl.
  rewrite (getDefaultValue_other _ Hty). apply lookup_map_set_same.
Qed.

Lemma definir_unknown_type_registers_null_witness :
  exists f,
    Re.exec true Pat.definir "Definir m Como Arreglo" = Some f
    /\ group_or_empty f 1 = "m"
    /\ group_or_empty f 2 = "Arreglo"
    /\ exists st',
         executeLine Fragment.js_eval 1 ["Definir m Como Arreglo"] 0
                     (new_interpreter None false) = Ret (0 + 1) st'
         /\ lookup (Str.toLowerCase (group_or_empty f 1)) (variables st')
            = Some (mkVar (group_or_empty f 1)
                          (Str.toLowerCase (group_or_empty f 2)) JNull).
Proof.
  eexists. split; [vm_compute; reflexivity|].
  split; [reflexivity|]. split; [reflexivity|].
  apply (definir_unknown_type_registers_null Fragment.js_eval 0
           ["Definir m Como Arreglo"] 0 (new_interpreter None false)
           "Definir m Como Arreglo").
  - reflexivity.
  - reflexivity.
  - vm_compute; reflexivity.
  - vm_compute. intuition discriminate.
Defined.

(** ** Input *)

Lemma lookup_set_value_other key key' x vars :
  key' <> key -> lookup key (set_value key' x vars) = lookup key vars.
Proof.
  intros Hne. induction vars as [|[k u] r IH]; simpl; auto.
  destruct (String.eqb k key') eqn:E1; simpl.
  - apply String.eqb_eq in E1. subst k.
    destruct (String.eqb key' key) eqn:E2; auto.
    apply String.eqb_eq in E2. contradiction.
  - destruct (String.eqb k key); auto.
Qed.

(** What a declaration fixes of a variable: its display name and type. *)
Definition decl (key : string) (vars : list (string * Var))
  : option (string * string) :=
  option_map (fun v => (name v, type v)) (lookup key vars).

Lemma decl_set_value key key' x vars :
  decl key (set_value key' x vars) = decl key vars.
Proof.
  unfold decl. induction vars as [|[k u] r IH]; simpl; auto.
  destruct (String.eqb k key') eqn:E1; simpl;
    destruct (String.eqb k key) eqn:E2; auto.
Qed.

Lemma leer_vars_cons_declared varName rest st existingVar :
  lookup (Str.toLowerCase varName) (variables st) = Some existingVar ->
  leer_vars (varName :: rest) st
  = leer_vars rest
      (notifyVariableChange
         (set_variables
            (set_value (Str.toLowerCase varName)
               (coerce_input (type existingVar)
                  (fst (read_input ("Ingrese valor para " ++ varName ++ ":") st)))
               (variables (snd (read_input ("Ingrese valor para " ++ varName ++ ":") st))))
            (snd (read_input ("Ingrese valor para " ++ varName ++ ":") st)))).
Proof.
  intros H. simpl. unfold bind at 1. unfold gets. rewrite H.
  unfold bind at 1. unfold ask.
  destruct (read_input _ st) as [v st1]. simpl.
  unfold bind, modify. reflexivity.
Qed.

Lemma leer_vars_cons_undeclared varName rest st :
  lookup (Str.toLowerCase varName) (variables st) = None ->
  leer_vars (varName :: rest) st
  = Ret true (fail_with (undefined_variable varName) st).
Proof.
  intros H. simpl. unfold bind at 1. unfold gets. rewrite H. reflexivity.
Qed.

Lemma variables_read_input p st : variables (snd (read_input p st)) = variables st.
Proof.
  unfold read_input. destruct (inputCallback st) eqn:E; simpl; auto.
Qed.

Lemma inputCallback_read_input p st :
  inputCallback (snd (read_input p st)) = inputCallback st.
Proof.
  unfold read_input. destruct (inputCallback st) eqn:E; simpl; auto.
Qed.

Lemma inputsRead_read_input p st :
  inputsRead (snd (read_input p st))
  = match inputCallback st with
    | Some _ => S (inputsRead st)
    | None => inputsRead st
    end.
Proof.
  unfold read_input. destruct (inputCallback st) eqn:E; simpl; auto.
Qed.

(** The answer the next input call receives, [k] calls from now. *)
Definition answer_at (st : interp) (k : nat) (prompt : string) : string :=
  match inputCallback st with
  | Some cb => cb (inputsRead st + k) prompt
  | None => EmptyString
  end.

Lemma fst_read_input p st : fst (read_input p st) = answer_at st 0 p.
Proof.
  unfold read_input, answer_at. destruct (inputCallback st); simpl; auto.
  rewrite Nat.add_0_r. reflexivity.
Qed.

(** A [leer] over declared names reads every one of them: it is not left
    early, the declarations stay as they are, the names it does not mention
    keep their values, and one input is consumed per name. *)
Lemma leer_vars_declared names :
  forall st,
    (forall v, In v names -> lookup (Str.toLowerCase v) (variables st) <> None) ->
    exists st',
      leer_vars names st = Ret false st'
      /\ (forall key, decl key (variables st') = decl key (variables st))
      /\ (forall key, ~ In key (map Str.toLowerCase names) ->
                      lookup key (variables st') = lookup key (variables st))
      /\ inputCallback st' = inputCallback st
      /\ (forall k p, answer_at st' k p = answer_at st (List.length names + k) p).
Proof.
  induction names as [|v names IH]; intros st Hdecl.
  - exists st. repeat split; auto.
  - destruct (lookup (Str.toLowerCase v) (variables st)) as [ev|] eqn:E;
      [|exfalso; apply (Hdecl v); [left; reflexivity|exact E]].
    rewrite (leer_vars_cons_declared _ _ _ _ E).
    match goal with |- context [leer_vars names ?s] => set (st1 := s) end.
    assert (Hd1 : forall key, decl key (variables st1) = decl key (variables st)).
    { intros key. unfold st1. autorewrite with fields. simpl.
      rewrite decl_set_value, variables_read_input. reflexivity. }
    destruct (IH st1) as (st' & Hrun & Hd & Hother & Hcb & Hans).
    { intros w Hw. specialize (Hdecl w (or_intror Hw)).
      specialize (Hd1 (Str.toLowerCase w)). unfold decl in Hd1.
      destruct (lookup (Str.toLowerCase w) (variables st1));
        destruct (lookup (Str.toLowerCase w) (variables st));
        simpl in Hd1; congruence. }
    exists st'. split; [exact Hrun|]. split; [|split; [|split]].
    + intros key. rewrite Hd. apply Hd1.
    + intros key Hnot. rewrite Hother.
      * unfold st1. autorewrite with fields. simpl.
        rewrite lookup_set_value_other, variables_read_input; auto.
        intros Heq. apply Hnot. left. exact Heq.
      * intros Hin. apply Hnot. right. exact Hin.
    + rewrite Hcb. unfold st1. autorewrite with fields. simpl.
      apply inputCallback_read_input.
    + intros k p. rewrite Hans. unfold answer_at, st1.
      autorewrite with fields. simpl.
      rewrite inputCallback_read_input, inputsRead_read_input.
      destruct (inputCallback st); auto. f_equal. simpl. lia.
Qed.

Lemma leer_vars_app a b :
  forall st,
    leer_vars (a ++ b) st
    = match leer_vars a st with
      | Ret false st' => leer_vars b st'
      | o => o
      end.
Proof.
  induction a as [|v a IH]; intros st; [reflexivity|].
  destruct (lookup (Str.toLowerCase v) (variables st)) as [ev|] eqn:E.
  - rewrite <- app_comm_cons.
    rewrite !(leer_vars_cons_declared _ _ _ _ E). apply IH.
  - rewrite <- app_comm_cons.
    rewrite !(leer_vars_cons_undeclared _ _ _ E). reflexivity.
Qed.

(** The coercion of a numeric input never stores NaN. *)
Lemma coerce_input_numeric ty v :
  ty = "entero" \/ ty = "real" ->
  exists x,
    coerce_input ty v = JNum x
    /\ Num.isNaN x = false
    /\ (Num.isNaN (Num.parseFloat v) = true -> x = Num.zero).
Proof.
  intros Hty. unfold coerce_input.
  assert (String.eqb ty "entero" || String.eqb ty "real" = true) as ->.
  { destruct Hty as [-> | ->]; reflexivity. }
  destruct (Num.parseFloat v) as [| neg | neg m d]; simpl.
  - exists Num.zero. auto.
  - exists (Num.Inf neg). repeat split; auto. discriminate.
  - unfold Num.truthy. simpl.
    destruct m; simpl; eexists; repeat split; auto; discriminate.
Qed.

Lemma dispatch_leer js_eval exec fuel lines index l :
  Str.startsWith (Str.toLowerCase l) "leer" = true ->
  dispatch js_eval exec fuel lines index l = exec_leer index l.
Proof.
  intros H. unfold dispatch.
  assert (Str.startsWith (Str.toLowerCase l) "algoritmo" = false) as -> by other_prefix H.
  assert (Str.startsWith (Str.toLowerCase l) "proceso" = false) as -> by other_prefix H.
  assert (Str.startsWith (Str.toLowerCase l) "finalgoritmo" = false) as -> by other_prefix H.
  assert (Str.startsWith (Str.toLowerCase l) "finproceso" = false) as -> by other_prefix H.
  assert (Str.startsWith (Str.toLowerCase l) "definir" = false) as -> by other_prefix H.
  assert (Str.startsWith (Str.toLowerCase l) "dimension" = false) as -> by other_prefix H.
  rewrite H. reflexivity.
Qed.

Definition input_prompt (varName : string) : string :=
  "Ingrese valor para " ++ varName ++ ":".

(** C9.  A [Leer] statement over declared names reads all of them.  For a
    name of declared type entero or real that is not read again later in
    the same statement, the value stored when the statement returns is a
    number that is not NaN, and it is 0 when the answer received for it
    does not parse as a number; without an input callback the answer is the
    empty string and the value is 0. *)
Theorem leer_numeric_never_stores_NaN :
  forall js_eval fuel lines index st l f pre varName post var,
    nth_error lines index = Some l ->
    Str.startsWith (Str.toLowerCase l) "leer" = true ->
    Re.exec true Pat.leer l = Some f ->
    leer_names (group_or_empty f 1) = pre ++ varName :: post ->
    (forall v, In v (pre ++ varName :: post) ->
               lookup (Str.toLowerCase v) (variables st) <> None) ->
    ~ In (Str.toLowerCase varName) (map Str.toLowerCase post) ->
    lookup (Str.toLowerCase varName) (variables st) = Some var ->
    type var = "entero" \/ type var = "real" ->
    exists st' x,
      executeLine js_eval (S fuel) lines index st = Ret (index + 1) st'
      /\ lookup (Str.toLowerCase varName) (variables st')
         = Some (mkVar (name var) (type var) (JNum x))
      /\ Num.isNaN x = false
      /\ (Num.isNaN
            (Num.parseFloat
               (answer_at st (List.length pre) (input_prompt varName))) = true ->
          x = Num.zero)
      /\ (inputCallback st = None -> x = Num.zero).
Proof.
  intros js_eval fuel lines index st l f pre varName post var
         Hl Hkw Hre Hnames Hdecl Hlast Hvar Hty.
  rewrite executeLine_unfold, Hl, dispatch_leer by exact Hkw.
  unfold exec_leer. rewrite Hre, Hnames. unfold bind at 1.
  rewrite leer_vars_app.
  set (st0 := log_dispatch index st).
  destruct (leer_vars_declared pre st0) as (st1 & Hrun1 & Hd1 & _ & Hcb1 & Hans1).
  { intros v Hv. apply Hdecl. apply in_or_app. left. exact Hv. }
  rewrite Hrun1.
  (* the variable as it stands when its turn comes *)
  assert (Hv1 : exists var1, lookup (Str.toLowerCase varName) (variables st1) = Some var1
                             /\ name var1 = name var /\ type var1 = type var).
  { specialize (Hd1 (Str.toLowerCase varName)). unfold decl in Hd1.
    unfold st0 in Hd1. rewrite variables_log, Hvar in Hd1.
    destruct (lookup (Str.toLowerCase varName) (variables st1)) as [var1|];
      simpl in Hd1; [|discriminate].
    exists var1. injection Hd1 as Hn Ht. auto. }
  destruct Hv1 as (var1 & Hlk1 & Hn1 & Ht1).
  rewrite (leer_vars_cons_declared _ _ _ _ Hlk1).
  match goal with |- context [leer_vars post ?s] => set (st2 := s) end.
  destruct (coerce_input_numeric (type var1)
              (fst (read_input ("Ingrese valor para " ++ varName ++ ":") st1)))
    as (x & Hx & Hnan & Hzero).
  { rewrite Ht1. exact Hty. }
  assert (Hlk2 : lookup (Str.toLowerCase varName) (variables st2)
                 = Some (mkVar (name var) (type var) (JNum x))).
  { unfold st2. autorewrite with fields.
    rewrite (lookup_set_value_same _ _ _ var1), Hx, Hn1, Ht1; auto.
    rewrite variables_read_input. exact Hlk1. }
  destruct (leer_vars_declared post st2) as (st3 & Hrun3 & _ & Hother3 & _ & _).
  { intros v Hv.
    assert (Hdv : lookup (Str.toLowerCase v) (variables st) <> None).
    { apply Hdecl. apply in_or_app. right. right. exact Hv. }
    assert (Hsame : decl (Str.toLowerCase v) (variables st2)
                    = decl (Str.toLowerCase v) (variables st)).
    { unfold st2. autorewrite with fields.
      rewrite decl_set_value, variables_read_input, Hd1.
      unfold st0. rewrite variables_log. reflexivity. }
    unfold decl in Hsame.
    destruct (lookup (Str.toLowerCase v) (variables st2));
      destruct (lookup (Str.toLowerCase v) (variables st));
      simpl in Hsame; congruence. }
  rewrite Hrun3. unfold bind, modify, ret.
  exists (addFlowchartNode input ("Leer " ++ group_or_empty f 1) st3), x.
  split; [reflexivity|]. split; [|split; [exact Hnan|split]].
  - rewrite variables_node, Hother3; auto.
  - intros Hp. apply Hzero. rewrite fst_read_input, Hans1.
    unfold st0, answer_at in *. simpl. rewrite Nat.add_0_r. exact Hp.
  - intros Hnone. apply Hzero. rewrite fst_read_input.
    unfold answer_at. rewrite Hcb1. unfold st0. simpl. rewrite Hnone.
    reflexivity.
Qed.

Lemma leer_numeric_never_stores_NaN_witness :
  let st := set_variables [("n", mkVar "n" "entero" (JNum (Num.of_N 7)))]
                          (new_interpreter (Some (scripted ["abc"])) false) in
  exists f,
    Re.exec true Pat.leer "Leer n" = Some f
    /\ leer_names (group_or_empty f 1) = [] ++ "n" :: []
    /\ Num.parseFloat (answer_at st 0 (input_prompt "n")) = Num.NaN
    /\ exists st' x,
         executeLine Fragment.js_eval 1 ["Leer n"] 0 st = Ret (0 + 1) st'
         /\ lookup (Str.toLowerCase "n") (variables st')
            = Some (mkVar "n" "entero" (JNum x))
         /\ Num.isNaN x = false
         /\ (Num.isNaN
               (Num.parseFloat
                  (answer_at st (List.length (@nil string)) (input_prompt "n")))
             = true -> x = Num.zero)
         /\ (inputCallback st = None -> x = Num.zero).
Proof.
  intros st. eexists. split; [vm_compute; reflexivity|].
  split; [reflexivity|]. split; [reflexivity|].
  eapply (leer_numeric_never_stores_NaN Fragment.js_eval 0 ["Leer n"] 0 st
            "Leer n" _ [] "n" []
            (mkVar "n" "entero" (JNum (Num.of_N 7)))).
  - reflexivity.
  - reflexivity.
  - vm_compute; reflexivity.
  - reflexivity.
  - intros v [<-|[]]. vm_compute. discriminate.
  - simpl. tauto.
  - reflexivity.
  - left. reflexivity.
Defined.

(** ** The two evaluators *)

(** C5.  When the host evaluator rejects the rewritten text, the expression
    evaluator returns that rewritten text as a string (also through
    [evaluateExpression], for a text without quotes), and the condition
    evaluator returns false. *)
Theorem evaluators_fail_asymmetrically :
  forall js_eval st expr cond,
    js_eval (rewrite_expression st expr) = None ->
    js_eval (rewrite_condition st cond) = None ->
    evaluateSimpleExpression js_eval st expr = JStr (rewrite_expression st expr)
    /\ (Str.includes expr (String Chars.dquote EmptyString) = false ->
        Str.includes expr "'" = false ->
        evaluateExpression js_eval expr st
        = (JStr (rewrite_expression st expr), st))
    /\ evaluateCondition js_eval st cond = false.
Proof.
  intros js_eval st expr cond He Hc. split; [|split].
  - unfold evaluateSimpleExpression. rewrite He. reflexivity.
  - intros Hq1 Hq2. unfold evaluateExpression, evaluateSimpleExpression.
    rewrite Hq1, Hq2, He. reflexivity.
  - unfold evaluateCondition. rewrite Hc. reflexivity.
Qed.

Lemma evaluators_fail_asymmetrically_witness :
  let st := set_variables [("n", mkVar "n" "entero" (JNum (Num.of_N 7)))]
                          (new_interpreter None false) in
  rewrite_expression st "n mod" = "7 %"
  /\ rewrite_condition st "n >" = "7 >"
  /\ Fragment.js_eval "7 %" = None
  /\ Fragment.js_eval "7 >" = None
  /\ evaluateSimpleExpression Fragment.js_eval st "n mod"
     = JStr (rewrite_expression st "n mod")
  /\ (Str.includes "n mod" (String Chars.dquote EmptyString) = false ->
      Str.includes "n mod" "'" = false ->
      evaluateExpression Fragment.js_eval "n mod" st
      = (JStr (rewrite_expression st "n mod"), st))
  /\ evaluateCondition Fragment.js_eval st "n >" = false.
Proof.
  intros st.
  split; [vm_compute; reflexivity|]. split; [vm_compute; reflexivity|].
  split; [vm_compute; reflexivity|]. split; [vm_compute; reflexivity|].
  apply (evaluators_fail_asymmetrically Fragment.js_eval st "n mod" "n >");
    vm_compute; reflexivity.
Defined.

(** ** Arrays *)

Ltac skip_keyword l kw H :=
  let F := fresh "F" in
  assert (Str.startsWith (Str.toLowerCase l) kw = false) as F
      by other_prefix H;
  rewrite F; clear F.

Lemma dispatch_dimension js_eval exec fuel lines index l :
  Str.startsWith (Str.toLowerCase l) "dimension" = true ->
  dispatch js_eval exec fuel lines index l = exec_dimension index l.
Proof.
  intros H. unfold dispatch.
  skip_keyword l "algoritmo" H. skip_keyword l "proceso" H.
  skip_keyword l "finalgoritmo" H. skip_keyword l "finproceso" H.
  skip_keyword l "definir" H.
  rewrite H. reflexivity.
Qed.

(** C6, as amended.  A line [dimension arr[n]] whose size is a decimal
    literal of at most 2^32 - 1 binds the lower-cased name to an array of
    exactly n zeros; a line starting with [dimension] that the pattern does
    not recognise (a size that is no decimal literal) changes nothing but
    the ghost log. *)
Theorem dimension_literal_allocates_zeros :
  forall js_eval fuel lines index st l,
    nth_error lines index = Some l ->
    Str.startsWith (Str.toLowerCase l) "dimension" = true ->
    (forall f,
        Re.exec true Pat.dimension l = Some f ->
        (Num.parseInt (group_or_empty f 2) <= 4294967295)%N ->
        exists st',
          executeLine js_eval (S fuel) lines index st = Ret (index + 1) st'
          /\ lookup (Str.toLowerCase (group_or_empty f 1)) (variables st')
             = Some (mkVar (group_or_empty f 1) "arreglo"
                           (JArr (repeat (JNum Num.zero)
                                         (N.to_nat (Num.parseInt
                                                      (group_or_empty f 2)))))))
    /\ (Re.exec true Pat.dimension l = None ->
        executeLine js_eval (S fuel) lines index st
        = Ret (index + 1) (log_dispatch index st)).
Proof.
  intros js_eval fuel lines index st l Hl Hkw.
  rewrite executeLine_unfold, Hl, dispatch_dimension by exact Hkw.
  unfold exec_dimension. split.
  - intros f Hre Hsize. rewrite Hre.
    assert ((4294967295 <? Num.parseInt (group_or_empty f 2))%N = false) as ->
        by (apply N.ltb_ge; exact Hsize).
    unfold bind, modify, ret. eexists. split; [reflexivity|].
    autorewrite with fields. apply lookup_map_set_same.
  - intros Hre. rewrite Hre. reflexivity.
Qed.

Lemma dimension_literal_allocates_zeros_witness :
  exists f,
    Re.exec true Pat.dimension "Dimension Datos[3]" = Some f
    /\ group_or_empty f 1 = "Datos"
    /\ Num.parseInt (group_or_empty f 2) = 3%N
    /\ exists st',
         executeLine Fragment.js_eval 1 ["Dimension Datos[3]"] 0
                     (new_interpreter None false) = Ret (0 + 1) st'
         /\ lookup (Str.toLowerCase (group_or_empty f 1)) (variables st')
            = Some (mkVar (group_or_empty f 1) "arreglo"
                          (JArr (repeat (JNum Num.zero)
                                        (N.to_nat (Num.parseInt
                                                     (group_or_empty f 2)))))).
Proof.
  eexists. split; [vm_compute; reflexivity|].
  split; [reflexivity|]. split; [reflexivity|].
  apply (proj1 (dimension_literal_allocates_zeros Fragment.js_eval 0
                  ["Dimension Datos[3]"] 0 (new_interpreter None false)
                  "Dimension Datos[3]" eq_refl eq_refl)).
  - vm_compute; reflexivity.
  - vm_compute. discriminate.
Defined.

(** C6 as stated fails in two ways: a size given by an expression (here a
    variable holding 3) declares no array at all, and a literal above
    2^32 - 1 makes the allocation throw, which ends the run with an error. *)
Lemma dimension_expression_size_declares_nothing :
  (exists st,
      execute Fragment.js_eval 10
              (unlines ["Definir n Como Entero"; "n <- 3"; "Dimension arr[n]"])
              (new_interpreter None false) = Some st
      /\ lookup "n" (variables st)
         = Some (mkVar "n" "entero" (JNum (Num.of_N 3)))
      /\ lookup "arr" (variables st) = None
      /\ errors st = [])
  /\ (exists st,
         execute Fragment.js_eval 10 "Dimension arr[4294967296]"
                 (new_interpreter None false) = Some st
         /\ lookup "arr" (variables st) = None
         /\ List.length (errors st) = 1
         /\ hasError st = true).
Proof.
  split; eexists; (split; [vm_compute; reflexivity|]);
    repeat split; reflexivity.
Qed.

(** ** Loops *)

Lemma dispatch_mientras js_eval exec fuel lines index l f :
  Str.startsWith (Str.toLowerCase l) "mientras" = true ->
  Re.exec true Pat.mientras l = Some f ->
  dispatch js_eval exec fuel lines index l
  = (modify (addFlowchartNode decision ("Mientras " ++ group_or_empty f 1)) ;;;
     while_M js_eval
             (run_lines exec fuel (index + 1)
                        (find_end "mientras" "finmientras" lines index - 1))
             (group_or_empty f 1) fuel ;;;
     ret (find_end "mientras" "finmientras" lines index))%interp.
Proof.
  intros H Hre. unfold dispatch.
  skip_keyword l "algoritmo" H. skip_keyword l "proceso" H.
  skip_keyword l "finalgoritmo" H. skip_keyword l "finproceso" H.
  skip_keyword l "definir" H. skip_keyword l "dimension" H.
  skip_keyword l "leer" H. skip_keyword l "escribir" H.
  rewrite H. unfold exec_mientras. rewrite Hre. reflexivity.
Qed.

Lemma while_loop_bound js_eval body condition n :
  forall iterations st,
    (iterations <= maxIterations)%nat ->
    (fst (while_loop js_eval body condition n iterations st) <= maxIterations)%nat.
Proof.
  induction n as [|n IH]; intros iterations st Hle; simpl.
  - destruct (evaluateCondition js_eval st condition
              && (iterations <? maxIterations)%nat && negb (hasError st));
      simpl; exact Hle.
  - destruct (evaluateCondition js_eval st condition
              && (iterations <? maxIterations)%nat && negb (hasError st)) eqn:E;
      simpl; [|exact Hle].
    apply andb_prop in E. destruct E as [E _].
    apply andb_prop in E. destruct E as [_ E].
    apply Nat.ltb_lt in E.
    destruct (body st) as [[] st'| e st'|]; simpl; [apply IH| |]; lia.
Qed.

Lemma while_loop_at_cap js_eval body condition n st :
  while_loop js_eval body condition n maxIterations st
  = (maxIterations, Ret tt st).
Proof.
  destruct n; simpl; rewrite Nat.ltb_irrefl, andb_false_r; reflexivity.
Qed.

(** [k] successive passes of a loop body, each from the state the pass
    before it left; a pass that throws or runs out of fuel ends them. *)
Fixpoint passes (body : M unit) (k : nat) (st : interp) : outcome unit :=
  match k with
  | O => Ret tt st
  | S k' =>
      match body st with
      | Ret _ st' => passes body k' st'
      | Throw e st' => Throw e st'
      | Timeout st' => Timeout st'
      end
  end.

(** Whatever the loop returns is what the passes it counted return: the
    count is the number of times the body was run, one after the other.
    The loop's own fuel can only run out before the cap. *)
Lemma while_loop_passes js_eval body condition n :
  forall iterations st,
    exists k,
      fst (while_loop js_eval body condition n iterations st)
      = (iterations + k)%nat
      /\ (snd (while_loop js_eval body condition n iterations st)
          = passes body k st
          \/ (k = n /\ (iterations + k < maxIterations)%nat
              /\ exists st', passes body k st = Ret tt st'
                             /\ snd (while_loop js_eval body condition n
                                                iterations st)
                                = Timeout st')).
Proof.
  induction n as [|n IH]; intros iterations st; cbn [while_loop].
  - destruct (evaluateCondition js_eval st condition
              && (iterations <? maxIterations)%nat && negb (hasError st)) eqn:E;
      exists 0%nat; cbn [fst snd passes]; (split; [lia|]); [right|left; reflexivity].
    apply andb_prop in E. destruct E as [E _].
    apply andb_prop in E. destruct E as [_ E]. apply Nat.ltb_lt in E.
    split; [reflexivity|]. split; [lia|]. exists st. split; reflexivity.
  - destruct (evaluateCondition js_eval st condition
              && (iterations <? maxIterations)%nat && negb (hasError st)) eqn:E;
      [|exists 0%nat; cbn [fst snd passes]; split; [lia|left; reflexivity]].
    destruct (body st) as [[] st'|e st'|st'] eqn:Eb.
    + destruct (IH (S iterations) st') as (k & Hk & Hout).
      exists (S k). cbn [passes]. rewrite Eb. split; [rewrite Hk; lia|].
      destruct Hout as [Hout|(Hkn & Hlt & st2 & Hp & Hout)]; [left; exact Hout|].
      right. split; [lia|]. split; [lia|]. exists st2. split; assumption.
    + exists 1%nat. cbn [fst snd passes]. rewrite Eb.
      split; [lia|left; reflexivity].
    + exists 1%nat. cbn [fst snd passes]. rewrite Eb.
      split; [lia|left; reflexivity].
Qed.

(** A loop whose condition holds, with the flag clear, before each pass up
    to the cap makes every one of them and then returns, whatever the
    condition says in the state the last pass left. *)
Lemma while_loop_runs_to_the_cap js_eval body condition :
  forall m n iterations st,
    (iterations + m = maxIterations)%nat -> (m <= n)%nat ->
    (forall j, (j < m)%nat ->
               exists sj, passes body j st = Ret tt sj
                          /\ evaluateCondition js_eval sj condition = true
                          /\ hasError sj = false) ->
    while_loop js_eval body condition n iterations st
    = (maxIterations, passes body m st).
Proof.
  induction m as [|m IH]; intros n iterations st Hsum Hfuel Hgo.
  - rewrite Nat.add_0_r in Hsum. subst iterations. apply while_loop_at_cap.
  - destruct n as [|n]; [lia|]. cbn [while_loop passes].
    destruct (Hgo 0%nat) as (s0 & Hs0 & Hc & Hf); [lia|].
    cbn [passes] in Hs0. injection Hs0 as <-.
    rewrite Hc, Hf.
    replace (iterations <? maxIterations)%nat with true
      by (symmetry; apply Nat.ltb_lt; lia).
    cbn [andb negb].
    destruct (body st) as [[] st'|e st'|st'] eqn:Eb.
    + apply IH; [lia|lia|]. intros j Hj.
      destruct (Hgo (S j)) as (sj & Hsj & Hcj & Hfj); [lia|].
      cbn [passes] in Hsj. rewrite Eb in Hsj. exists sj. auto.
    + destruct m as [|m]; [f_equal; lia|].
      destruct (Hgo 1%nat) as (s1 & Hs1 & _); [lia|].
      cbn [passes] in Hs1. rewrite Eb in Hs1. discriminate.
    + destruct m as [|m]; [f_equal; lia|].
      destruct (Hgo 1%nat) as (s1 & Hs1 & _); [lia|].
      cbn [passes] in Hs1. rewrite Eb in Hs1. discriminate.
Qed.

(** C3.  A [mientras ... hacer] statement runs its body through
    [while_loop].  Whatever the condition, the body, the state and the
    fuel, what the loop returns is what [k] successive runs of the body
    return, for a [k] of at most 100 (the loop's own fuel, when it has less
    than 100, can end it after [k] runs).  A loop that nothing stops before
    makes exactly 100 passes and returns the state the hundredth pass left,
    whatever the condition says there: nothing is appended to the
    errors. *)
Theorem mientras_runs_at_most_100_passes :
  forall js_eval fuel lines index st l f,
    nth_error lines index = Some l ->
    Str.startsWith (Str.toLowerCase l) "mientras" = true ->
    Re.exec true Pat.mientras l = Some f ->
    let condition := group_or_empty f 1 in
    let endIndex := find_end "mientras" "finmientras" lines index in
    let body := run_lines (executeLine js_eval fuel lines) fuel
                          (index + 1) (endIndex - 1) in
    let st1 := addFlowchartNode decision ("Mientras " ++ condition)
                                (log_dispatch index st) in
    let k := fst (while_loop js_eval body condition fuel 0 st1) in
    let loop := while_M js_eval body condition fuel st1 in
    executeLine js_eval (S fuel) lines index st
    = match loop with
      | Ret _ st' => Ret endIndex st'
      | Throw e st' => Throw e st'
      | Timeout st' => Timeout st'
      end
    /\ (k <= 100)%nat
    /\ (loop = passes body k st1
        \/ ((fuel < 100)%nat /\ k = fuel
            /\ exists st', passes body k st1 = Ret tt st'
                           /\ loop = Timeout st'))
    /\ ((100 <= fuel)%nat -> loop = passes body k st1)
    /\ ((100 <= fuel)%nat ->
        (forall j, (j < 100)%nat ->
                   exists sj, passes body j st1 = Ret tt sj
                              /\ evaluateCondition js_eval sj condition = true
                              /\ hasError sj = false) ->
        k = 100%nat /\ loop = passes body 100 st1).
Proof.
  intros js_eval fuel lines index st l f Hl Hkw Hre
         condition endIndex body st1 k loop.
  destruct (while_loop_passes js_eval body condition fuel 0 st1)
    as (k' & Hk & Hout).
  cbn [Nat.add] in Hk. fold k in Hk. subst k'.
  change (snd (while_loop js_eval body condition fuel 0 st1)) with loop in Hout.
  split; [|split; [|split; [|split]]].
  - rewrite executeLine_unfold, Hl, (dispatch_mientras _ _ _ _ _ _ _ Hkw Hre).
    unfold bind, modify, ret. fold condition endIndex body st1. fold loop.
    destruct loop; reflexivity.
  - apply (while_loop_bound js_eval body condition fuel 0 st1).
    unfold maxIterations. lia.
  - destruct Hout as [Hout|(Hkn & Hlt & Hrest)]; [left; exact Hout|].
    right. unfold maxIterations in Hlt. cbn [Nat.add] in Hlt.
    split; [lia|]. split; assumption.
  - intros Hfuel. destruct Hout as [Hout|(Hkn & Hlt & _)]; [exact Hout|].
    unfold maxIterations in Hlt. cbn [Nat.add] in Hlt. lia.
  - intros Hfuel Hgo.
    pose proof (while_loop_runs_to_the_cap js_eval body condition 100 fuel 0 st1
                  eq_refl Hfuel Hgo) as Hrun.
    unfold k, loop, while_M. rewrite Hrun. split; reflexivity.
Qed.

(** The hypothesis of the last part, checked along one run of the passes. *)
Fixpoint open_before js_eval (body : M unit) (condition : string) (m : nat)
         (st : interp) : bool :=
  match m with
  | O => true
  | S m' =>
      evaluateCondition js_eval st condition && negb (hasError st)
      && match m' with
         | O => true
         | S _ =>
             match body st with
             | Ret _ st' => open_before js_eval body condition m' st'
             | _ => false
             end
         end
  end.

Lemma open_before_passes js_eval body condition :
  forall m st,
    open_before js_eval body condition m st = true ->
    forall j, (j < m)%nat ->
              exists sj, passes body j st = Ret tt sj
                         /\ evaluateCondition js_eval sj condition = true
                         /\ hasError sj = false.
Proof.
  induction m as [|m IH]; intros st H j Hj; [lia|].
  cbn [open_before] in H.
  apply andb_prop in H. destruct H as [H Hrest].
  apply andb_prop in H. destruct H as [Hc Hf]. apply negb_true_iff in Hf.
  destruct j as [|j]; [exists st; cbn [passes]; auto|].
  destruct m as [|m]; [lia|].
  cbn [passes]. destruct (body st) as [[] st'| |]; try discriminate.
  apply (IH st' Hrest). lia.
Qed.

Lemma mientras_runs_at_most_100_passes_witness :
  let lines := ["Definir c Como Entero"; "Mientras VERDADERO Hacer";
                "c <- c + 1"; "FinMientras"] in
  let st := set_variables [("c", mkVar "c" "entero" (JNum Num.zero))]
                          (new_interpreter None false) in
  let body := run_lines (executeLine Fragment.js_eval 200 lines) 200 2 3 in
  let st1 := addFlowchartNode decision "Mientras VERDADERO"
                              (log_dispatch 1 st) in
  fst (while_loop Fragment.js_eval body "VERDADERO" 200 0 st1) = 100%nat
  /\ exists st',
       passes body 100 st1 = Ret tt st'
       /\ executeLine Fragment.js_eval (S 200) lines 1 st = Ret 4 st'
       /\ evaluateCondition Fragment.js_eval st' "VERDADERO" = true
       /\ lookup "c" (variables st')
          = Some (mkVar "c" "entero" (JNum (Num.of_N 100)))
       /\ errors st' = [].
Proof.
  intros lines st body st1.
  destruct (passes body 100 st1) as [[] st'| |] eqn:Hp;
    [|vm_compute in Hp; discriminate|vm_compute in Hp; discriminate].
  assert (Hst : Ret tt st' = passes body 100 st1) by (symmetry; exact Hp).
  vm_compute in Hst. injection Hst as Hst.
  assert (Hcond : evaluateCondition Fragment.js_eval st' "VERDADERO" = true)
    by (rewrite Hst; vm_compute; reflexivity).
  assert (Hc : lookup "c" (variables st')
               = Some (mkVar "c" "entero" (JNum (Num.of_N 100))))
    by (rewrite Hst; reflexivity).
  assert (Herr : errors st' = []) by (rewrite Hst; reflexivity).
  clear Hst.
  assert (Hopen : open_before Fragment.js_eval body "VERDADERO" 100 st1 = true)
    by (vm_compute; reflexivity).
  destruct (Re.exec true Pat.mientras "Mientras VERDADERO Hacer")
    as [f|] eqn:Hre; [|vm_compute in Hre; discriminate].
  assert (Hg : group_or_empty f 1 = "VERDADERO")
    by (assert (Hf : Some f = Re.exec true Pat.mientras "Mientras VERDADERO Hacer")
          by (symmetry; exact Hre);
        vm_compute in Hf; injection Hf as ->; reflexivity).
  assert (He : find_end "mientras" "finmientras" lines 1 = 4%nat)
    by (vm_compute; reflexivity).
  pose proof (mientras_runs_at_most_100_passes Fragment.js_eval 200 lines 1 st
              "Mientras VERDADERO Hacer" f eq_refl eq_refl Hre) as H.
  cbv zeta in H. rewrite Hg, He in H.
  change (1 + 1)%nat with 2%nat in H. change (4 - 1)%nat with 3%nat in H.
  change ("Mientras " ++ "VERDADERO")%string with "Mientras VERDADERO" in H.
  fold body st1 in H.
  destruct H as (Hexec & _ & _ & _ & Hcap).
  destruct Hcap as [Hk Hloop];
    [repeat constructor|exact (open_before_passes _ _ _ _ _ Hopen)|].
  split; [exact Hk|].
  exists st'. split; [reflexivity|].
  rewrite Hloop, Hp in Hexec.
  split; [exact Hexec|]. repeat split; assumption.
Defined.

Lemma dispatch_para js_eval exec fuel lines index l f :
  Str.startsWith (Str.toLowerCase l) "para" = true ->
  Re.exec true Pat.para l = Some f ->
  dispatch js_eval exec fuel lines index l
  = (modify (addFlowchartNode decision
               ("Para " ++ group_or_empty f 1 ++ " <- "
                  ++ N_to_string (Num.parseInt (group_or_empty f 2))
                  ++ " Hasta "
                  ++ N_to_string (Num.parseInt (group_or_empty f 3)))) ;;;
     para_M (run_lines exec fuel (index + 1)
                       (find_end "para" "finpara" lines index - 1))
            (group_or_empty f 1) fuel
            (Num.parseInt (group_or_empty f 2))
            (Num.parseInt (group_or_empty f 3))
            (Num.parseInt (match Re.group f 4 with
                           | Some s => s
                           | None => "1"
                           end)) ;;;
     ret (find_end "para" "finpara" lines index))%interp.
Proof.
  intros H Hre. unfold dispatch.
  skip_keyword l "algoritmo" H. skip_keyword l "proceso" H.
  skip_keyword l "finalgoritmo" H. skip_keyword l "finproceso" H.
  skip_keyword l "definir" H. skip_keyword l "dimension" H.
  skip_keyword l "leer" H. skip_keyword l "escribir" H.
  skip_keyword l "mientras" H.
  rewrite H. unfold exec_para. rewrite Hre. reflexivity.
Qed.

(** The values [a], [a + s], ... ([k] of them). *)
Definition progression (a s : N) (k : nat) : list N :=
  map (fun i => (a + N.of_nat i * s)%N) (seq 0 k).

Lemma progression_S a s k :
  progression a s (S k) = a :: progression (a + s) s k.
Proof.
  unfold progression. simpl. f_equal; [lia|].
  rewrite <- seq_shift, map_map. apply map_ext. intros i. lia.
Qed.

(** The number of passes of a loop from [a] to [b] by [s]. *)
Definition pass_count (a b s : N) : nat := N.to_nat ((b - a) / s) + 1.

Lemma pass_count_step a b s :
  (0 < s)%N -> (a + s <= b)%N ->
  pass_count a b s = S (pass_count (a + s) b s).
Proof.
  intros Hs Hle. unfold pass_count.
  replace (b - a)%N with ((b - (a + s)) + 1 * s)%N by lia.
  rewrite N.div_add by lia. lia.
Qed.

Lemma pass_count_last a b s :
  (0 < s)%N -> (a <= b)%N -> (b < a + s)%N -> pass_count a b s = 1%nat.
Proof.
  intros Hs Hle Hlt. unfold pass_count.
  rewrite N.div_small by lia. reflexivity.
Qed.

Lemma pass_count_pos a b s : (1 <= pass_count a b s)%nat.
Proof. unfold pass_count. apply Nat.le_add_l. Qed.

Lemma para_loop_done body varName n v e step st :
  (e < v)%N -> para_loop body varName n v e step st = ([], Ret tt st).
Proof.
  intros H. apply N.leb_gt in H. destruct n; simpl; rewrite H; reflexivity.
Qed.

(** One pass of a [para] loop at the control value [v]: the control variable
    is bound to [v], the listeners are told, and the body runs. *)
Definition para_pass (body : M unit) (varName : string) (v : N) : M unit :=
  fun st =>
    body (notifyVariableChange
            (set_variables (map_set (Str.toLowerCase varName)
                                    (mkVar varName "entero" (JNum (Num.of_N v)))
                                    (variables st)) st)).

(** The passes at the control values [vs], in order, each from the state
    the pass before it left.  They end at the first value met with the
    fatal flag set, and with a pass that throws or runs out of fuel. *)
Fixpoint passes_at (body : M unit) (varName : string) (vs : list N)
         (st : interp) : outcome unit :=
  match vs with
  | [] => Ret tt st
  | v :: rest =>
      if hasError st then Ret tt st
      else
        match para_pass body varName v st with
        | Ret _ st' => passes_at body varName rest st'
        | Throw e st' => Throw e st'
        | Timeout st' => Timeout st'
        end
  end.

Lemma passes_at_flagged body varName vs st :
  hasError st = true -> passes_at body varName vs st = Ret tt st.
Proof. intros H. destruct vs; cbn [passes_at]; [|rewrite H]; reflexivity. Qed.

(** With fuel for every pass, the loop from [v] to [e] by [step] is the
    passes at [v], [v + step], ..., as many as [pass_count] says. *)
Lemma para_loop_passes body varName step e :
  (0 < step)%N ->
  forall n v st,
    (v <= e)%N -> (pass_count v e step <= n)%nat ->
    snd (para_loop body varName n v e step st)
    = passes_at body varName (progression v step (pass_count v e step)) st.
Proof.
  intros Hs. induction n as [|n IH]; intros v st Hle Hfuel.
  - pose proof (pass_count_pos v e step). lia.
  - cbn [para_loop]. pose proof Hle as Hle'. apply N.leb_le in Hle'.
    rewrite Hle'. cbn [andb].
    destruct (N.le_gt_cases (v + step) e) as [Hnext|Hlast].
    + rewrite (pass_count_step _ _ _ Hs Hnext) in *. rewrite progression_S.
      cbn [passes_at]. destruct (hasError st); cbn [negb]; [reflexivity|].
      unfold para_pass.
      match goal with
      | |- context [body ?s] => destruct (body s) as [[] st2|err st2|st2]
      end; try reflexivity.
      specialize (IH (v + step)%N st2 Hnext ltac:(lia)).
      destruct (para_loop body varName n (v + step) e step st2) as [vs' o].
      exact IH.
    + rewrite (pass_count_last _ _ _ Hs Hle Hlast).
      change (progression v step 1) with [(v + N.of_nat 0 * step)%N].
      replace (v + N.of_nat 0 * step)%N with v by lia.
      cbn [passes_at]. destruct (hasError st); cbn [negb]; [reflexivity|].
      unfold para_pass.
      match goal with
      | |- context [body ?s] => destruct (body s) as [[] st2|err st2|st2]
      end; try reflexivity.
      rewrite (para_loop_done body varName n _ _ step st2 Hlast). reflexivity.
Qed.

(** Whatever the fuel, the loop makes the passes at an initial part of the
    progression, never more than [pass_count] of them; its own fuel can end
    it after as many passes as it has fuel for. *)
Lemma para_loop_passes_prefix body varName step e :
  (0 < step)%N ->
  forall n v st,
    (v <= e)%N ->
    exists k,
      (k <= pass_count v e step)%nat
      /\ (snd (para_loop body varName n v e step st)
          = passes_at body varName (progression v step k) st
          \/ (k = n /\ (n < pass_count v e step)%nat
              /\ exists st', passes_at body varName (progression v step k) st
                             = Ret tt st'
                             /\ hasError st' = false
                             /\ snd (para_loop body varName n v e step st)
                                = Timeout st')).
Proof.
  intros Hs. induction n as [|n IH]; intros v st Hle.
  - exists 0%nat. split; [lia|]. cbn [para_loop].
    pose proof Hle as Hle'. apply N.leb_le in Hle'. rewrite Hle'. cbn [andb].
    destruct (hasError st) eqn:Ef; cbn [negb snd].
    + left. reflexivity.
    + right. split; [reflexivity|]. split; [apply pass_count_pos|].
      exists st. repeat split. exact Ef.
  - cbn [para_loop]. pose proof Hle as Hle'. apply N.leb_le in Hle'.
    rewrite Hle'. cbn [andb].
    destruct (hasError st) eqn:Ef; cbn [negb].
    { exists 0%nat. split; [lia|]. left. reflexivity. }
    destruct (N.le_gt_cases (v + step) e) as [Hnext|Hlast].
    + rewrite (pass_count_step _ _ _ Hs Hnext).
      destruct (IH (v + step)%N
                   (match body (notifyVariableChange
                                  (set_variables
                                     (map_set (Str.toLowerCase varName)
                                        (mkVar varName "entero"
                                               (JNum (Num.of_N v)))
                                        (variables st)) st)) with
                    | Ret _ s => s | Throw _ s => s | Timeout s => s
                    end) Hnext) as (k & Hk & Hout).
      match goal with
      | |- context [body ?s] =>
          destruct (body s) as [[] st2|err st2|st2] eqn:Eb
      end.
      * exists (S k). split; [lia|]. rewrite progression_S.
        cbn [passes_at]. rewrite Ef. unfold para_pass. rewrite Eb.
        destruct (para_loop body varName n (v + step) e step st2) as [vs' o].
        cbn [snd] in *.
        destruct Hout as [Hout|(Hkn & Hlt & st' & Hp & Hf & Hout)];
          [left; exact Hout|].
        right. split; [lia|]. split; [lia|]. exists st'. auto.
      * exists 1%nat. split; [lia|]. left.
        change (progression v step 1) with [(v + N.of_nat 0 * step)%N].
        replace (v + N.of_nat 0 * step)%N with v by lia.
        cbn [passes_at snd]. rewrite Ef. unfold para_pass. rewrite Eb.
        reflexivity.
      * exists 1%nat. split; [lia|]. left.
        change (progression v step 1) with [(v + N.of_nat 0 * step)%N].
        replace (v + N.of_nat 0 * step)%N with v by lia.
        cbn [passes_at snd]. rewrite Ef. unfold para_pass. rewrite Eb.
        reflexivity.
    + exists 1%nat. split; [apply pass_count_pos|]. left.
      change (progression v step 1) with [(v + N.of_nat 0 * step)%N].
      replace (v + N.of_nat 0 * step)%N with v by lia.
      cbn [passes_at]. rewrite Ef. unfold para_pass.
      match goal with
      | |- context [body ?s] => destruct (body s) as [[] st2|err st2|st2]
      end; try reflexivity.
      rewrite (para_loop_done body varName n _ _ step st2 Hlast). reflexivity.
Qed.

Lemma progression_values a s k :
  List.length (progression a s k) = k
  /\ forall i, (i < k)%nat ->
               nth_error (progression a s k) i = Some (a + N.of_nat i * s)%N.
Proof.
  unfold progression. split; [rewrite length_map, length_seq; reflexivity|].
  intros i Hi. rewrite nth_error_map, nth_error_seq.
  assert (Hlt : (i <? k)%nat = true) by (apply Nat.ltb_lt; exact Hi).
  rewrite Hlt. reflexivity.
Qed.

Lemma progression_within a b s i :
  (0 < s)%N -> (a <= b)%N -> (i < pass_count a b s)%nat ->
  (a + N.of_nat i * s <= b)%N.
Proof.
  intros Hs Hab Hi. unfold pass_count in Hi.
  assert (Hq : (N.of_nat i <= (b - a) / s)%N) by lia.
  pose proof (N.Div0.mul_div_le (b - a) s) as Hm.
  nia.
Qed.

(** C4, as amended.  A [para v <- a hasta b con paso s] statement, its
    bounds and step literals of at most 2^53 (where the host's numbers are
    the integers), runs its body through [para_loop] from a to b by s.
    With s > 0, a <= b and b + s <= 2^53 the loop makes the passes at the
    control values a, a+s, ..., floor((b-a)/s)+1 of them, none above b, in
    order: each pass binds the control variable to its value and runs the
    body from the state the pass before left, and the passes end early only
    at a value met with the fatal flag set or with a pass that throws.
    Whatever the fuel, never more than floor((b-a)/s)+1 passes are made.
    When a > b there is no pass and the state is unchanged. *)
Theorem para_passes :
  forall js_eval fuel lines index st l f,
    nth_error lines index = Some l ->
    Str.startsWith (Str.toLowerCase l) "para" = true ->
    Re.exec true Pat.para l = Some f ->
    let varName := group_or_empty f 1 in
    let a := Num.parseInt (group_or_empty f 2) in
    let b := Num.parseInt (group_or_empty f 3) in
    let s := Num.parseInt (match Re.group f 4 with
                           | Some x => x
                           | None => "1"
                           end) in
    let endIndex := find_end "para" "finpara" lines index in
    let body := run_lines (executeLine js_eval fuel lines) fuel
                          (index + 1) (endIndex - 1) in
    let st1 := addFlowchartNode decision
                 ("Para " ++ varName ++ " <- " ++ N_to_string a
                          ++ " Hasta " ++ N_to_string b)
                 (log_dispatch index st) in
    let loop := para_M body varName fuel a b s st1 in
    let count := (N.to_nat ((b - a) / s) + 1)%nat in
    (a <= 2 ^ 53)%N -> (b <= 2 ^ 53)%N -> (s <= 2 ^ 53)%N ->
    executeLine js_eval (S fuel) lines index st
    = match loop with
      | Ret _ st' => Ret endIndex st'
      | Throw e st' => Throw e st'
      | Timeout st' => Timeout st'
      end
    /\ ((0 < s)%N -> (a <= b)%N -> (b + s <= 2 ^ 53)%N ->
        (count <= fuel)%nat ->
        loop = passes_at body varName (progression a s count) st1)
    /\ ((0 < s)%N -> (a <= b)%N -> (b + s <= 2 ^ 53)%N ->
        exists k,
          (k <= count)%nat
          /\ (loop = passes_at body varName (progression a s k) st1
              \/ (k = fuel /\ (fuel < count)%nat
                  /\ exists st',
                       passes_at body varName (progression a s k) st1
                       = Ret tt st'
                       /\ hasError st' = false
                       /\ loop = Timeout st')))
    /\ ((0 < s)%N -> (a <= b)%N ->
        List.length (progression a s count) = count
        /\ forall i, (i < count)%nat ->
                     nth_error (progression a s count) i
                     = Some (a + N.of_nat i * s)%N
                     /\ (a + N.of_nat i * s <= b)%N)
    /\ ((b < a)%N -> loop = Ret tt st1).
Proof.
  intros js_eval fuel lines index st l f Hl Hkw Hre
         varName a b s endIndex body st1 loop count _ _ _.
  split; [|split; [|split; [|split]]].
  - rewrite executeLine_unfold, Hl, (dispatch_para _ _ _ _ _ _ _ Hkw Hre).
    unfold bind, modify, ret.
    fold varName a b s endIndex body st1. fold loop.
    destruct loop; reflexivity.
  - intros Hs Hab _ Hfuel.
    exact (para_loop_passes body varName s b Hs fuel a st1 Hab Hfuel).
  - intros Hs Hab _.
    exact (para_loop_passes_prefix body varName s b Hs fuel a st1 Hab).
  - intros Hs Hab.
    destruct (progression_values a s count) as [Hlen Hnth].
    split; [exact Hlen|]. intros i Hi. split; [exact (Hnth i Hi)|].
    exact (progression_within a b s i Hs Hab Hi).
  - intros Hba. unfold loop, para_M.
    rewrite (para_loop_done body varName fuel a b s st1 Hba). reflexivity.
Qed.

Lemma para_passes_witness :
  let lines := ["Para i <- 1 Hasta 10 Con Paso 3"; "Escribir i"; "FinPara"] in
  let st := new_interpreter None false in
  let body := run_lines (executeLine Fragment.js_eval 10 lines) 10 1 2 in
  let st1 := addFlowchartNode decision "Para i <- 1 Hasta 10"
                              (log_dispatch 0 st) in
  (N.to_nat ((10 - 1) / 3) + 1 = 4)%nat
  /\ progression 1 3 4 = [1; 4; 7; 10]%N
  /\ exists st',
       passes_at body "i" [1; 4; 7; 10]%N st1 = Ret tt st'
       /\ executeLine Fragment.js_eval 11 lines 0 st = Ret 3 st'
       /\ output st' = ["1"; "4"; "7"; "10"]
       /\ lookup "i" (variables st')
          = Some (mkVar "i" "entero" (JNum (Num.of_N 10))).
Proof.
  intros lines st body st1.
  split; [reflexivity|]. split; [reflexivity|].
  destruct (passes_at body "i" [1; 4; 7; 10]%N st1) as [[] st'| |] eqn:Hp;
    [|vm_compute in Hp; discriminate|vm_compute in Hp; discriminate].
  assert (Hst : Ret tt st' = passes_at body "i" [1; 4; 7; 10]%N st1)
    by (symmetry; exact Hp).
  vm_compute in Hst. injection Hst as Hst.
  assert (Hout : output st' = ["1"; "4"; "7"; "10"])
    by (rewrite Hst; reflexivity).
  assert (Hi : lookup "i" (variables st')
               = Some (mkVar "i" "entero" (JNum (Num.of_N 10))))
    by (rewrite Hst; reflexivity).
  clear Hst.
  destruct (Re.exec true Pat.para "Para i <- 1 Hasta 10 Con Paso 3")
    as [f|] eqn:Hre; [|vm_compute in Hre; discriminate].
  assert (Hf : Some f = Re.exec true Pat.para "Para i <- 1 Hasta 10 Con Paso 3")
    by (symmetry; exact Hre).
  vm_compute in Hf. injection Hf as Hf.
  assert (Hv : group_or_empty f 1 = "i") by (rewrite Hf; reflexivity).
  assert (Ha : Num.parseInt (group_or_empty f 2) = 1%N)
    by (rewrite Hf; vm_compute; reflexivity).
  assert (Hb : Num.parseInt (group_or_empty f 3) = 10%N)
    by (rewrite Hf; vm_compute; reflexivity).
  assert (Hs : Num.parseInt (match Re.group f 4 with
                             | Some x => x
                             | None => "1"
                             end) = 3%N)
    by (rewrite Hf; vm_compute; reflexivity).
  assert (He : find_end "para" "finpara" lines 0 = 3%nat)
    by (vm_compute; reflexivity).
  pose proof (para_passes Fragment.js_eval 10 lines 0 st
                "Para i <- 1 Hasta 10 Con Paso 3" f eq_refl eq_refl Hre) as H.
  cbv zeta in H. rewrite Hv, Ha, Hb, Hs, He in H.
  change (0 + 1)%nat with 1%nat in H. change (3 - 1)%nat with 2%nat in H.
  change ("Para " ++ "i" ++ " <- " ++ N_to_string 1 ++ " Hasta "
                  ++ N_to_string 10)%string
    with "Para i <- 1 Hasta 10" in H.
  fold body st1 in H.
  destruct H as (Hexec & Hall & _); [vm_compute; discriminate ..|].
  rewrite Hall in Hexec;
    [|reflexivity|vm_compute; discriminate|vm_compute; discriminate
     |vm_compute; repeat constructor].
  change (progression 1 3 (N.to_nat ((10 - 1) / 3) + 1))
    with [1; 4; 7; 10]%N in Hexec.
  rewrite Hp in Hexec.
  exists st'. repeat split; assumption.
Defined.

(** C4 as stated fails when a pass raises a fatal error: bounds 1 to 3 by 1
    promise three passes, and the loop stops after the first one, whose
    assignment to the undeclared [x] sets the flag: the body line is
    dispatched once and the control variable is left at 1. *)
Lemma para_stops_after_a_failing_pass :
  (N.to_nat ((3 - 1) / 1) + 1 = 3)%nat
  /\ exists st',
       execute Fragment.js_eval 11
               (unlines ["Para i <- 1 Hasta 3"; "x <- 1"; "FinPara"])
               (new_interpreter None false)
       = Some st'
       /\ map at_index (dispatched st') = [0; 1]%nat
       /\ lookup "i" (variables st')
          = Some (mkVar "i" "entero" (JNum (Num.of_N 1)))
       /\ hasError st' = true.
Proof.
  split; [reflexivity|].
  eexists. split; [vm_compute; reflexivity|]. repeat split.
Qed.


(** ** The run depends on the host evaluator only through its answers *)

Definition eqM {A : Type} (c1 c2 : M A) : Prop := forall st, c1 st = c2 st.

Lemma eqM_refl (A : Type) (c : M A) : eqM c c.
Proof. intros st. reflexivity. Qed.

Lemma eqM_bind (A B : Type) (c1 c2 : M A) (k1 k2 : A -> M B) :
  eqM c1 c2 -> (forall a, eqM (k1 a) (k2 a)) -> eqM (bind c1 k1) (bind c2 k2).
Proof.
  intros Hc Hk st. unfold bind. rewrite Hc.
  destruct (c2 st); auto. apply Hk.
Qed.

Lemma eqM_gets (A : Type) (f1 f2 : interp -> A) :
  (forall st, f1 st = f2 st) -> eqM (gets f1) (gets f2).
Proof. intros H st. unfold gets. rewrite H. reflexivity. Qed.

Lemma run_lines_ext x1 x2 n :
  (forall j, eqM (x1 j) (x2 j)) ->
  forall j stop, eqM (run_lines x1 n j stop) (run_lines x2 n j stop).
Proof.
  intros Hx. induction n as [|n IH]; intros j stop st; simpl; [reflexivity|].
  destruct (_ && _); [|reflexivity].
  rewrite Hx. destruct (x2 j st); auto. apply IH.
Qed.

Lemma para_loop_ext b1 b2 varName n :
  eqM b1 b2 ->
  forall v e step st,
    para_loop b1 varName n v e step st = para_loop b2 varName n v e step st.
Proof.
  intros Hb. induction n as [|n IH]; intros v e step st; simpl; [reflexivity|].
  destruct (_ && _); [|reflexivity].
  rewrite Hb.
  match goal with |- context [b2 ?s] => destruct (b2 s) end; auto.
  rewrite IH. reflexivity.
Qed.

Section Extensionality.

Variables e1 e2 : string -> option jsval.
Hypothesis same_answers : forall text, e1 text = e2 text.

Lemma evaluateSimpleExpression_ext st expr :
  evaluateSimpleExpression e1 st expr = evaluateSimpleExpression e2 st expr.
Proof. unfold evaluateSimpleExpression. rewrite same_answers. reflexivity. Qed.

Lemma evaluateCondition_ext st condition :
  evaluateCondition e1 st condition = evaluateCondition e2 st condition.
Proof. unfold evaluateCondition. rewrite same_answers. reflexivity. Qed.

Lemma evaluate_parts_ext parts :
  forall results st,
    evaluate_parts e1 parts results st = evaluate_parts e2 parts results st.
Proof.
  induction parts as [|p parts IH]; intros results st; simpl; [reflexivity|].
  assert (evaluate_part e1 p st = evaluate_part e2 p st) as ->.
  { unfold evaluate_part. rewrite evaluateSimpleExpression_ext. reflexivity. }
  destruct (evaluate_part e2 p st). apply IH.
Qed.

Lemma eval_expr_ext expr : eqM (eval_expr e1 expr) (eval_expr e2 expr).
Proof.
  intros st. unfold eval_expr, evaluateExpression.
  rewrite evaluate_parts_ext, evaluateSimpleExpression_ext. reflexivity.
Qed.

Lemma while_M_ext b1 b2 condition n :
  eqM b1 b2 -> eqM (while_M e1 b1 condition n) (while_M e2 b2 condition n).
Proof.
  intros Hb st. unfold while_M. f_equal. revert st. generalize 0%nat.
  induction n as [|n IH]; intros i st; simpl;
    rewrite evaluateCondition_ext; [reflexivity|].
  destruct (_ && _); [|reflexivity].
  rewrite Hb. destruct (b2 st); auto.
Qed.

Lemma para_M_ext b1 b2 varName n v e step :
  eqM b1 b2 -> eqM (para_M b1 varName n v e step) (para_M b2 varName n v e step).
Proof.
  intros Hb st. unfold para_M. rewrite (para_loop_ext _ _ _ _ Hb).
  reflexivity.
Qed.

Ltac same_step :=
  first
    [ apply eqM_refl
    | apply eval_expr_ext
    | apply eqM_gets; intros; try apply evaluateCondition_ext; reflexivity
    | apply eqM_bind; [|intros]
    | match goal with
      | |- eqM (match (if ?b then _ else _) with _ => _ end) _ => destruct b
      | |- eqM (match (match ?x with _ => _ end) with _ => _ end) _ =>
          destruct x
      | |- eqM (match (let '(_, _) := ?x in _) with _ => _ end) _ => destruct x
      | |- eqM (let '(_, _) := ?x in _) _ => destruct x
      | |- eqM (match ?x with _ => _ end) _ => destruct x
      | |- eqM (if ?b then _ else _) _ => destruct b
      end ].

Lemma dispatch_ext x1 x2 fuel lines index l :
  (forall j, eqM (x1 j) (x2 j)) ->
  eqM (dispatch e1 x1 fuel lines index l) (dispatch e2 x2 fuel lines index l).
Proof.
  intros Hx.
  pose proof (run_lines_ext x1 x2 fuel Hx) as Hrun.
  unfold dispatch, or_else, when.
  unfold exec_definir, exec_dimension, exec_leer, exec_escribir,
    exec_mientras, exec_para, exec_segun, exec_si, exec_sino_si,
    exec_assignment.
  repeat first
    [ apply Hrun
    | apply while_M_ext
    | apply para_M_ext
    | same_step ].
Qed.

Lemma executeLine_ext fuel lines :
  forall index, eqM (executeLine e1 fuel lines index)
                    (executeLine e2 fuel lines index).
Proof.
  induction fuel as [|fuel IH]; intros index st; [reflexivity|].
  rewrite !executeLine_unfold.
  destruct (nth_error lines index); [|reflexivity].
  apply dispatch_ext. exact IH.
Qed.

Lemma main_loop_ext fuel lines n :
  forall i st, main_loop e1 fuel n lines i st = main_loop e2 fuel n lines i st.
Proof.
  induction n as [|n IH]; intros i st; simpl; [reflexivity|].
  destruct (_ && _); [|reflexivity].
  rewrite executeLine_ext.
  destruct (executeLine e2 fuel lines i st); auto.
Qed.

Lemma execute_ext fuel code st :
  execute e1 fuel code st = execute e2 fuel code st.
Proof. unfold execute. rewrite main_loop_ext. reflexivity. Qed.

End Extensionality.

(** ** The sample program *)

(** Every node but the last has the next node's id as its only child. *)
Fixpoint linked_sequentially (nodes : list FlowchartNode) : Prop :=
  match nodes with
  | a :: ((b :: _) as rest) => children a = [id b] /\ linked_sequentially rest
  | [a] => children a = []
  | [] => True
  end.

(** A host evaluator with its answers to the two comparisons of the sample
    program written out. *)
Definition with_comparisons (js_eval : string -> option jsval)
  : string -> option jsval :=
  fun text =>
    if String.eqb text "20 > 18" then Some (JBool true)
    else if String.eqb text "10 > 18" then Some (JBool false)
    else js_eval text.

Lemma with_comparisons_same js_eval :
  js_eval "20 > 18" = Some (JBool true) ->
  js_eval "10 > 18" = Some (JBool false) ->
  forall text, js_eval text = with_comparisons js_eval text.
Proof.
  intros H20 H10 text. unfold with_comparisons.
  destruct (String.eqb text "20 > 18") eqn:E1.
  { apply String.eqb_eq in E1. subst. exact H20. }
  destruct (String.eqb text "10 > 18") eqn:E2.
  { apply String.eqb_eq in E2. subst. exact H10. }
  reflexivity.
Qed.

(** C2.  With a host evaluator that answers the two comparisons as
    ECMAScript does, the sample program [defaultCode], run with the scripted
    input 20, writes its prompt and then "Usted es mayor de edad"; run with
    the input 10 it writes "Usted es menor de edad".  Both runs leave no
    error, and the node kinds are start, process, output, input, decision,
    output, end, each node linked to the next. *)
Theorem defaultCode_end_to_end :
  forall js_eval sink,
    js_eval "20 > 18" = Some (JBool true) ->
    js_eval "10 > 18" = Some (JBool false) ->
    (exists st,
        execute js_eval 10 defaultCode
                (new_interpreter (Some (scripted ["20"])) sink) = Some st
        /\ output st = ["Digite su edad"; "Usted es mayor de edad"]
        /\ errors st = []
        /\ map kind (flowchart st)
           = [start; process; output_; input; decision; output_; end_]
        /\ linked_sequentially (flowchart st))
    /\ (exists st,
           execute js_eval 10 defaultCode
                   (new_interpreter (Some (scripted ["10"])) sink) = Some st
           /\ output st = ["Digite su edad"; "Usted es menor de edad"]
           /\ errors st = []
           /\ map kind (flowchart st)
              = [start; process; output_; input; decision; output_; end_]
           /\ linked_sequentially (flowchart st)).
Proof.
  intros js_eval sink H20 H10.
  pose proof (with_comparisons_same js_eval H20 H10) as Hsame.
  split; destruct sink; eexists;
    (split; [rewrite (execute_ext _ _ Hsame); vm_compute; reflexivity|]);
    vm_compute; repeat split.
Qed.

Lemma defaultCode_end_to_end_witness :
  Fragment.js_eval "20 > 18" = Some (JBool true)
  /\ Fragment.js_eval "10 > 18" = Some (JBool false)
  /\ (exists st,
         execute Fragment.js_eval 10 defaultCode
                 (new_interpreter (Some (scripted ["20"])) false) = Some st
         /\ output st = ["Digite su edad"; "Usted es mayor de edad"])
  /\ (exists st,
         execute Fragment.js_eval 10 defaultCode
                 (new_interpreter (Some (scripted ["10"])) false) = Some st
         /\ output st = ["Digite su edad"; "Usted es menor de edad"]).
Proof.
  split; [reflexivity|]. split; [reflexivity|].
  destruct (defaultCode_end_to_end Fragment.js_eval false eq_refl eq_refl)
    as [(st & Hrun & Hout & _) (st' & Hrun' & Hout' & _)].
  split; [exists st|exists st']; split; assumption.
Defined.

(** ** Switch *)

Lemma dispatch_segun js_eval exec fuel lines index l :
  Str.startsWith (Str.toLowerCase l) "segun" = true ->
  dispatch js_eval exec fuel lines index l
  = or_else (exec_segun exec fuel lines index l)
      (or_else (when (Str.startsWith (Str.toLowerCase l) "si"
                      && negb (Str.startsWith (Str.toLowerCase l) "sino"))
                     (exec_si js_eval exec fuel lines index l))
      (or_else (when (Re.test true Pat.sino_si_open (Str.toLowerCase l))
                     (exec_sino_si js_eval exec fuel lines index l))
         (if Str.includes (Str.toLowerCase l) "<-"
             || Str.includes (Str.toLowerCase l) "="
          then exec_assignment js_eval index l
          else ret (index + 1)))).
Proof.
  intros H. unfold dispatch.
  skip_keyword l "algoritmo" H. skip_keyword l "proceso" H.
  skip_keyword l "finalgoritmo" H. skip_keyword l "finproceso" H.
  skip_keyword l "definir" H. skip_keyword l "dimension" H.
  skip_keyword l "leer" H. skip_keyword l "escribir" H.
  skip_keyword l "mientras" H. skip_keyword l "para" H.
  rewrite H. reflexivity.
Qed.

Lemma find_first_match (A : Type) (p : A -> bool) pre c post :
  (forall x, In x pre -> p x = false) -> p c = true ->
  find p (pre ++ c :: post) = Some c.
Proof.
  intros Hpre Hc. induction pre as [|a pre IH]; simpl.
  - rewrite Hc. reflexivity.
  - rewrite (Hpre a (or_introl eq_refl)). apply IH.
    intros x Hx. apply Hpre. right. exact Hx.
Qed.

Lemma find_no_match (A : Type) (p : A -> bool) l :
  (forall x, In x l -> p x = false) -> find p l = None.
Proof.
  intros H. induction l as [|a l IH]; simpl; [reflexivity|].
  rewrite (H a (or_introl eq_refl)). apply IH.
  intros x Hx. apply H. right. exact Hx.
Qed.

(** The outcome of running one group of a [segun] block and returning. *)
Definition run_group (exec : nat -> M nat) (fuel : nat) (label : string)
           (a b : Z) (endIndex : nat) (st : interp) : outcome nat :=
  match run_lines exec fuel (Z.to_nat a) (Z.to_nat b)
                  (addFlowchartNode process label st) with
  | Ret _ st' => Ret endIndex st'
  | Throw e st' => Throw e st'
  | Timeout st' => Timeout st'
  end.

(** *** Where the block scan records the default group *)

Definition check_line (l : string) : string := Str.trim (Str.toLowerCase l).

Definition opens_segun (l : string) : bool :=
  Str.startsWith (check_line l) "segun".
Definition closes_segun (l : string) : bool :=
  Str.startsWith (check_line l) "finsegun".
Definition is_default_label (l : string) : bool :=
  Str.startsWith (check_line l) "de otro modo".

(** A line that neither opens nor closes a [segun] block. *)
Definition flat (l : string) : bool :=
  negb (opens_segun l) && negb (closes_segun l).

(** A body line: flat, and no label of a case or of the default group. *)
Definition plain (l : string) : bool :=
  flat l && negb (is_default_label l)
  && negb (Re.test true Pat.case_label (Str.trim l)).

Lemma segun_step_flat l s :
  flat l = true -> sg_depth s = 1%Z ->
  sg_depth (segun_step l s) = 1%Z
  /\ sg_endIndex (segun_step l s) = S (sg_endIndex s).
Proof.
  unfold flat, opens_segun, closes_segun, check_line. intros H Hd.
  apply andb_prop in H. destruct H as [H1 H2].
  apply negb_true_iff in H1, H2.
  unfold segun_step. rewrite H1, H2, Hd. cbn [Z.eqb Pos.eqb].
  destruct (Re.exec true Pat.case_label (Str.trim l));
    destruct (Str.startsWith (Str.trim (Str.toLowerCase l)) "de otro modo");
    split; reflexivity.
Qed.

Lemma segun_step_plain l s :
  plain l = true -> sg_depth s = 1%Z ->
  segun_step l s
  = mkSegun 1 (S (sg_endIndex s)) (sg_cases s) (sg_defaultCase s)
            (sg_currentCaseStart s) (sg_currentCaseValues s).
Proof.
  unfold plain, flat, opens_segun, closes_segun, is_default_label, check_line.
  intros H Hd.
  apply andb_prop in H. destruct H as [H H4].
  apply andb_prop in H. destruct H as [H H3].
  apply andb_prop in H. destruct H as [H1 H2].
  apply negb_true_iff in H1, H2, H3, H4.
  unfold Re.test in H4.
  unfold segun_step. rewrite H1, H2, H3, Hd. cbn [Z.eqb Pos.eqb].
  destruct (Re.exec true Pat.case_label (Str.trim l)); [discriminate|].
  reflexivity.
Qed.

Lemma segun_step_default l s :
  is_default_label l = true -> sg_depth s = 1%Z ->
  segun_step l s
  = mkSegun 1 (S (sg_endIndex s))
            (save_previous (sg_endIndex s) (sg_cases s)
                           (sg_currentCaseStart s) (sg_currentCaseValues s))
            (Some (mkDefault (Z.of_nat (sg_endIndex s + 1)) (-1)))
            (Z.of_nat (sg_endIndex s + 1)) [].
Proof.
  unfold is_default_label, check_line. intros H Hd.
  unfold segun_step.
  assert (Str.startsWith (Str.trim (Str.toLowerCase l)) "segun" = false) as ->
      by other_prefix H.
  assert (Str.startsWith (Str.trim (Str.toLowerCase l)) "finsegun" = false) as ->
      by other_prefix H.
  rewrite H, Hd. cbn [Z.eqb Pos.eqb negb].
  destruct (Re.exec true Pat.case_label (Str.trim l)); reflexivity.
Qed.

Lemma segun_step_close_default l s d x :
  closes_segun l = true -> sg_depth s = 1%Z ->
  sg_currentCaseValues s = [] -> sg_currentCaseStart s = Z.of_nat d ->
  sg_defaultCase s = Some (mkDefault (Z.of_nat d) x) ->
  segun_step l s
  = mkSegun 0 (S (sg_endIndex s)) (sg_cases s)
            (Some (mkDefault (Z.of_nat d) (Z.of_nat (sg_endIndex s))))
            (Z.of_nat d) [].
Proof.
  unfold closes_segun, check_line. intros H Hd Hv Hs Hdef.
  unfold segun_step.
  assert (Str.startsWith (Str.trim (Str.toLowerCase l)) "segun" = false) as ->
      by other_prefix H.
  rewrite H, Hd, Hv, Hs, Hdef. cbn [Z.sub Z.add Z.opp Z.pos_sub Z.eqb].
  replace (Z.of_nat d =? -1)%Z with false by (symmetry; apply Z.eqb_neq; lia).
  cbn [negb andb List.length Nat.ltb Nat.leb d_startLine].
  rewrite Z.eqb_refl. reflexivity.
Qed.

Lemma scan_segun_flat groups :
  forall rest s,
    Forall (fun l => flat l = true) groups -> sg_depth s = 1%Z ->
    exists s',
      scan_segun (groups ++ rest) s = scan_segun rest s'
      /\ sg_depth s' = 1%Z
      /\ sg_endIndex s' = (sg_endIndex s + List.length groups)%nat.
Proof.
  induction groups as [|l groups IH]; intros rest s Hflat Hd.
  - exists s. repeat split; auto.
  - inversion Hflat as [|? ? Hl Hrest]; subst.
    destruct (segun_step_flat l s Hl Hd) as [Hd' He'].
    destruct (IH rest (segun_step l s) Hrest Hd') as (s' & Hrun & Hds & Hes).
    exists s'. simpl. rewrite Hd. cbn [Z.ltb Z.compare].
    split; [exact Hrun|]. split; [exact Hds|]. rewrite Hes, He'. lia.
Qed.

Lemma scan_segun_plain body :
  forall rest s,
    Forall (fun l => plain l = true) body -> sg_depth s = 1%Z ->
    scan_segun (body ++ rest) s
    = scan_segun rest
        (mkSegun 1 (sg_endIndex s + List.length body) (sg_cases s)
                 (sg_defaultCase s) (sg_currentCaseStart s)
                 (sg_currentCaseValues s)).
Proof.
  induction body as [|l body IH]; intros rest s Hplain Hd.
  - simpl. rewrite Nat.add_0_r. destruct s; simpl in *. subst. reflexivity.
  - inversion Hplain as [|? ? Hl Hrest]; subst.
    simpl. rewrite Hd. cbn [Z.ltb Z.compare].
    rewrite (segun_step_plain l s Hl Hd), IH by (auto; reflexivity).
    simpl. repeat f_equal. lia.
Qed.

(** A default group that is the last group of the block and is closed by
    the [finsegun] is recorded with its end: its range is exactly its
    body. *)
Lemma default_last_group_is_recorded lines index groups deflabel body fin tail :
  skipn (index + 1) lines = groups ++ deflabel :: body ++ fin :: tail ->
  Forall (fun l => flat l = true) groups ->
  is_default_label deflabel = true ->
  Forall (fun l => plain l = true) body ->
  closes_segun fin = true ->
  let dstart := (index + 1 + List.length groups + 1)%nat in
  sg_defaultCase (scan_segun_at lines index)
  = Some (mkDefault (Z.of_nat dstart)
                    (Z.of_nat (dstart + List.length body)))
  /\ sg_endIndex (scan_segun_at lines index)
     = (dstart + List.length body + 1)%nat.
Proof.
  intros Hlines Hgroups Hdef Hbody Hfin dstart.
  unfold scan_segun_at. rewrite Hlines.
  destruct (scan_segun_flat groups (deflabel :: body ++ fin :: tail)
              (mkSegun 1 (index + 1) [] None (-1) []) Hgroups eq_refl)
    as (s1 & Hrun & Hd1 & He1).
  rewrite Hrun. simpl in He1.
  cbn [scan_segun]. rewrite Hd1. cbn [Z.ltb Z.compare].
  rewrite (segun_step_default deflabel s1 Hdef Hd1).
  rewrite scan_segun_plain by (auto; reflexivity).
  cbn [sg_endIndex sg_cases sg_defaultCase sg_currentCaseStart
       sg_currentCaseValues].
  cbn [scan_segun sg_depth Z.ltb Z.compare].
  rewrite (segun_step_close_default fin _ (sg_endIndex s1 + 1) (-1) Hfin)
    by reflexivity.
  assert (Hstop : forall t s, sg_depth s = 0%Z -> scan_segun t s = s).
  { intros t s Hs. destruct t; simpl; [reflexivity|]. rewrite Hs. reflexivity. }
  rewrite Hstop by reflexivity.
  cbn [sg_defaultCase sg_endIndex]. unfold dstart. rewrite He1.
  split; repeat f_equal; lia.
Qed.

(** A case label: the pattern matches and the line is not the default
    label. *)
Definition is_case_label (l : string) : bool :=
  Re.test true Pat.case_label (Str.trim l) && negb (is_default_label l).

Lemma split_chars_nonempty sep cur l : Str.split_chars sep cur l <> [].
Proof.
  revert cur. induction l as [|c r IH]; intros cur; simpl; [discriminate|].
  destruct (Ascii.eqb c sep); [discriminate|apply IH].
Qed.

Lemma segun_step_case l s :
  flat l = true -> is_case_label l = true -> sg_depth s = 1%Z ->
  exists vals,
    vals <> []
    /\ segun_step l s
       = mkSegun 1 (S (sg_endIndex s))
                 (save_previous (sg_endIndex s) (sg_cases s)
                                (sg_currentCaseStart s) (sg_currentCaseValues s))
                 (sg_defaultCase s)
                 (Z.of_nat (sg_endIndex s + 1)) vals.
Proof.
  unfold flat, is_case_label, opens_segun, closes_segun, is_default_label,
    check_line, Re.test.
  intros Hflat Hcase Hd.
  apply andb_prop in Hflat. destruct Hflat as [H1 H2].
  apply andb_prop in Hcase. destruct Hcase as [H3 H4].
  apply negb_true_iff in H1, H2, H4.
  unfold segun_step. rewrite H1, H2, H4, Hd. cbn [Z.eqb Pos.eqb negb].
  destruct (Re.exec true Pat.case_label (Str.trim l)) as [f|]; [|discriminate].
  eexists. split; [|reflexivity].
  unfold Str.split.
  destruct (Str.split_chars "," [] _) eqn:E; [|discriminate].
  exfalso. exact (split_chars_nonempty _ _ _ E).
Qed.

Lemma segun_step_close_case l s :
  closes_segun l = true -> sg_depth s = 1%Z ->
  sg_currentCaseValues s <> [] ->
  sg_defaultCase (segun_step l s) = sg_defaultCase s
  /\ sg_depth (segun_step l s) = 0%Z.
Proof.
  unfold closes_segun, check_line. intros H Hd Hv.
  unfold segun_step.
  assert (Str.startsWith (Str.trim (Str.toLowerCase l)) "segun" = false) as ->
      by other_prefix H.
  rewrite H, Hd. cbn [Z.sub Z.add Z.opp Z.pos_sub Z.eqb].
  destruct (sg_currentCaseValues s) as [|v vs]; [contradiction|].
  cbn [List.length Nat.ltb Nat.leb].
  destruct (negb (sg_currentCaseStart s =? -1)%Z); split; reflexivity.
Qed.

(** A default group that is followed by a case label is never given an
    end: the scan leaves it at -1. *)
Lemma default_before_a_case_is_not_recorded
      lines index groups deflabel body1 caselabel body2 fin tail :
  skipn (index + 1) lines
  = groups ++ deflabel :: body1 ++ caselabel :: body2 ++ fin :: tail ->
  Forall (fun l => flat l = true) groups ->
  is_default_label deflabel = true ->
  Forall (fun l => plain l = true) body1 ->
  flat caselabel = true -> is_case_label caselabel = true ->
  Forall (fun l => plain l = true) body2 ->
  closes_segun fin = true ->
  exists dstart,
    sg_defaultCase (scan_segun_at lines index) = Some (mkDefault dstart (-1)).
Proof.
  intros Hlines Hgroups Hdef Hbody1 Hcflat Hcase Hbody2 Hfin.
  unfold scan_segun_at. rewrite Hlines.
  destruct (scan_segun_flat groups
              (deflabel :: body1 ++ caselabel :: body2 ++ fin :: tail)
              (mkSegun 1 (index + 1) [] None (-1) []) Hgroups eq_refl)
    as (s1 & Hrun & Hd1 & He1).
  rewrite Hrun. cbn [scan_segun]. rewrite Hd1. cbn [Z.ltb Z.compare].
  rewrite (segun_step_default deflabel s1 Hdef Hd1).
  rewrite scan_segun_plain by (auto; reflexivity).
  cbn [sg_endIndex sg_cases sg_defaultCase sg_currentCaseStart
       sg_currentCaseValues].
  cbn [scan_segun sg_depth Z.ltb Z.compare].
  match goal with
  | |- context [segun_step caselabel ?s] =>
      destruct (segun_step_case caselabel s Hcflat Hcase eq_refl)
        as (vals & Hvals & Hstep); rewrite Hstep
  end.
  rewrite scan_segun_plain by (auto; reflexivity).
  cbn [sg_endIndex sg_cases sg_defaultCase sg_currentCaseStart
       sg_currentCaseValues].
  cbn [scan_segun sg_depth Z.ltb Z.compare].
  match goal with
  | |- context [segun_step fin ?s] =>
      destruct (segun_step_close_case fin s Hfin eq_refl Hvals) as [Hdc Hdep];
      assert (Hstop : scan_segun tail (segun_step fin s) = segun_step fin s)
        by (destruct tail; cbn [scan_segun];
            [reflexivity|rewrite Hdep; reflexivity]);
      rewrite Hstop, Hdc
  end.
  eexists. reflexivity.
Qed.

(** What a [segun] over a declared variable does with the groups the block
    scan recorded: a case matches when one of its values equals the switch
    value, numbers by [===] when both are numbers, otherwise the lower-cased
    texts; the statement runs the body of the first matching case and no
    other; when no case matches it runs the default body once if the scan
    recorded where the default group ends, and nothing otherwise.  Among
    blocks without a nested [segun], the scan records that end for a default
    group that is the last group, closed by the [finsegun] (the body run is
    then exactly its lines), and does not for a default group that a case
    label follows. *)
Theorem segun_runs_first_match_or_default :
  forall js_eval fuel lines index st l f variable,
    nth_error lines index = Some l ->
    Str.startsWith (Str.toLowerCase l) "segun" = true ->
    Re.exec true Pat.segun l = Some f ->
    lookup (Str.toLowerCase (group_or_empty f 1)) (variables st)
    = Some variable ->
    let s := scan_segun_at lines index in
    let varValue := value variable in
    let exec := executeLine js_eval fuel lines in
    let st1 := addFlowchartNode decision ("Segun " ++ group_or_empty f 1)
                                (log_dispatch index st) in
    (forall c,
        case_matches varValue c = true <->
        exists v, In v (values c) /\
                  match v, varValue with
                  | JNum x, JNum y => Num.strict_eq x y = true
                  | _, _ => Str.toLowerCase (Val.to_string v)
                            = Str.toLowerCase (Val.to_string varValue)
                  end)
    /\ (forall pre c post,
           sg_cases s = pre ++ c :: post ->
           (forall c', In c' pre -> case_matches varValue c' = false) ->
           case_matches varValue c = true ->
           executeLine js_eval (S fuel) lines index st
           = run_group exec fuel ("Caso " ++ join_values (values c))
                       (startLine c) (endLine c) (sg_endIndex s) st1)
    /\ ((forall c, In c (sg_cases s) -> case_matches varValue c = false) ->
        executeLine js_eval (S fuel) lines index st
        = match sg_defaultCase s with
          | Some dc =>
              if (d_endLine dc =? -1)%Z then Ret (sg_endIndex s) st1
              else run_group exec fuel "De Otro Modo"
                             (d_startLine dc) (d_endLine dc) (sg_endIndex s) st1
          | None => Ret (sg_endIndex s) st1
          end)
    /\ (forall groups deflabel body fin tail,
           skipn (index + 1) lines = groups ++ deflabel :: body ++ fin :: tail ->
           Forall (fun l => flat l = true) groups ->
           is_default_label deflabel = true ->
           Forall (fun l => plain l = true) body ->
           closes_segun fin = true ->
           (forall c, In c (sg_cases s) -> case_matches varValue c = false) ->
           let dstart := (index + 1 + List.length groups + 1)%nat in
           executeLine js_eval (S fuel) lines index st
           = run_group exec fuel "De Otro Modo" (Z.of_nat dstart)
                       (Z.of_nat (dstart + List.length body))
                       (dstart + List.length body + 1) st1)
    /\ (forall groups deflabel body1 caselabel body2 fin tail,
           skipn (index + 1) lines
           = groups ++ deflabel :: body1 ++ caselabel :: body2 ++ fin :: tail ->
           Forall (fun l => flat l = true) groups ->
           is_default_label deflabel = true ->
           Forall (fun l => plain l = true) body1 ->
           flat caselabel = true -> is_case_label caselabel = true ->
           Forall (fun l => plain l = true) body2 ->
           closes_segun fin = true ->
           (forall c, In c (sg_cases s) -> case_matches varValue c = false) ->
           executeLine js_eval (S fuel) lines index st
           = Ret (sg_endIndex s) st1).
Proof.
  intros js_eval fuel lines index st l f variable Hl Hkw Hre Hvar
         s varValue exec st1.
  assert (Hexec :
            executeLine js_eval (S fuel) lines index st
            = match find (case_matches varValue) (sg_cases s) with
              | Some c => run_group exec fuel
                            ("Caso " ++ join_values (values c))
                            (startLine c) (endLine c) (sg_endIndex s) st1
              | None =>
                  match sg_defaultCase s with
                  | Some dc =>
                      if (d_endLine dc =? -1)%Z then Ret (sg_endIndex s) st1
                      else run_group exec fuel "De Otro Modo"
                             (d_startLine dc) (d_endLine dc) (sg_endIndex s) st1
                  | None => Ret (sg_endIndex s) st1
                  end
              end).
  { rewrite executeLine_unfold, Hl, dispatch_segun by exact Hkw.
    unfold exec_segun. rewrite Hre. unfold or_else.
    unfold bind at 1. unfold gets. rewrite variables_log, Hvar.
    fold s varValue exec. unfold bind at 1. unfold modify at 1.
    fold st1. unfold bind at 1.
    destruct (find (case_matches varValue) (sg_cases s)) as [c|].
    - unfold run_group, bind, modify, ret.
      destruct (run_lines exec fuel _ _ _); reflexivity.
    - destruct (sg_defaultCase s) as [dc|]; [|reflexivity].
      destruct (d_endLine dc =? -1)%Z; cbn [negb]; [reflexivity|].
      unfold run_group, bind, modify, ret.
      destruct (run_lines exec fuel _ _ _); reflexivity. }
  assert (Hnomatch :
            (forall c, In c (sg_cases s) -> case_matches varValue c = false) ->
            executeLine js_eval (S fuel) lines index st
            = match sg_defaultCase s with
              | Some dc =>
                  if (d_endLine dc =? -1)%Z then Ret (sg_endIndex s) st1
                  else run_group exec fuel "De Otro Modo"
                         (d_startLine dc) (d_endLine dc) (sg_endIndex s) st1
              | None => Ret (sg_endIndex s) st1
              end).
  { intros Hnone. rewrite Hexec, (find_no_match _ _ _ Hnone). reflexivity. }
  split; [|split; [|split; [|split]]].
  - intros c. unfold case_matches. rewrite existsb_exists.
    split; intros (v & Hin & Hv); exists v; (split; [exact Hin|]);
      unfold value_matches in *;
      destruct v; destruct varValue; try exact Hv;
        try (apply String.eqb_eq; exact Hv);
        try (apply String.eqb_eq in Hv; exact Hv).
  - intros pre c post Hcases Hpre Hc.
    rewrite Hexec, Hcases, (find_first_match _ _ _ _ _ Hpre Hc). reflexivity.
  - exact Hnomatch.
  - intros groups deflabel body fin tail Hlines Hg Hdef Hbody Hfin Hnone dstart.
    destruct (default_last_group_is_recorded lines index groups deflabel body
                fin tail Hlines Hg Hdef Hbody Hfin) as [Hdc Hend].
    rewrite (Hnomatch Hnone). fold s in Hdc, Hend. rewrite Hdc, Hend.
    cbn [d_endLine d_startLine]. fold dstart.
    replace (Z.of_nat (dstart + List.length body) =? -1)%Z with false
      by (symmetry; apply Z.eqb_neq; lia).
    reflexivity.
  - intros groups deflabel body1 caselabel body2 fin tail
           Hlines Hg Hdef Hb1 Hcf Hcl Hb2 Hfin Hnone.
    destruct (default_before_a_case_is_not_recorded lines index groups deflabel
                body1 caselabel body2 fin tail Hlines Hg Hdef Hb1 Hcf Hcl Hb2
                Hfin) as [dstart Hdc].
    rewrite (Hnomatch Hnone). fold s in Hdc. rewrite Hdc. reflexivity.
Qed.


Lemma segun_runs_first_match_or_default_witness :
  let lines := ["Segun x Hacer"; "1:"; "Escribir 'uno'"; "2, 3:";
                "Escribir 'dos o tres'"; "De Otro Modo:"; "Escribir 'otro'";
                "FinSegun"] in
  let with_x v := set_variables [("x", mkVar "x" "entero" (JNum (Num.of_N v)))]
                                (new_interpreter None false) in
  (exists st', executeLine Fragment.js_eval 11 lines 0 (with_x 5%N) = Ret 8 st'
               /\ output st' = ["otro"])
  /\ (exists st', executeLine Fragment.js_eval 11 lines 0 (with_x 3%N) = Ret 8 st'
                  /\ output st' = ["dos o tres"]).
Proof.
  intros lines with_x.
  destruct (Re.exec true Pat.segun "Segun x Hacer") as [f|] eqn:Hre;
    [|vm_compute in Hre; discriminate].
  assert (Hf : Some f = Re.exec true Pat.segun "Segun x Hacer")
    by (symmetry; exact Hre).
  vm_compute in Hf. injection Hf as Hf.
  split.
  - destruct (segun_runs_first_match_or_default Fragment.js_eval 10 lines 0
                (with_x 5%N) "Segun x Hacer" f
                (mkVar "x" "entero" (JNum (Num.of_N 5)))
                eq_refl eq_refl Hre)
      as (_ & _ & _ & Hdefault & _).
    { subst f. vm_compute; reflexivity. }
    specialize (Hdefault ["1:"; "Escribir 'uno'"; "2, 3:"; "Escribir 'dos o tres'"]
                         "De Otro Modo:" ["Escribir 'otro'"] "FinSegun" []
                         eq_refl).
    rewrite Hdefault.
    + subst f. vm_compute. eexists. split; reflexivity.
    + repeat (constructor; [vm_compute; reflexivity|]). constructor.
    + vm_compute; reflexivity.
    + repeat (constructor; [vm_compute; reflexivity|]). constructor.
    + vm_compute; reflexivity.
    + assert (Hc : sg_cases (scan_segun_at lines 0)
                   = [mkCase [JNum (Num.of_N 1)] 2 3;
                      mkCase [JNum (Num.of_N 2); JNum (Num.of_N 3)] 4 5])
        by (vm_compute; reflexivity).
      rewrite Hc. intros c [<-|[<-|[]]]; vm_compute; reflexivity.
  - destruct (segun_runs_first_match_or_default Fragment.js_eval 10 lines 0
                (with_x 3%N) "Segun x Hacer" f
                (mkVar "x" "entero" (JNum (Num.of_N 3)))
                eq_refl eq_refl Hre)
      as (_ & Hfirst & _).
    { subst f. vm_compute; reflexivity. }
    rewrite (Hfirst [mkCase [JNum (Num.of_N 1)] 2 3]
                    (mkCase [JNum (Num.of_N 2); JNum (Num.of_N 3)] 4 5) []).
    + subst f. vm_compute. eexists. split; reflexivity.
    + vm_compute; reflexivity.
    + intros c [<-|[]]. vm_compute; reflexivity.
    + vm_compute; reflexivity.
Defined.

(** C7.  The code breaks the claim on a default group that is not the last
    group of its block.  With x = 0 no case matches (the only label is 1)
    and a default group exists, yet its body is never run: the scan leaves
    the end of the default group at -1 where it closes a case group, and
    the only output is that of the line after the block.  The same two
    groups in the other order run the default body once. *)
Theorem segun_default_before_a_case_never_runs :
  let default := ["De Otro Modo:"; "Escribir 'otro'"] in
  let case1 := ["1:"; "Escribir 'uno'"] in
  let program groups :=
    ["Definir x Como Entero"; "Segun x Hacer"] ++ groups
      ++ ["FinSegun"; "Escribir 'fin'"] in
  (sg_cases (scan_segun_at (program (default ++ case1)) 1)
   = [mkCase [JNum (Num.of_N 1)] 5 6]
   /\ sg_defaultCase (scan_segun_at (program (default ++ case1)) 1)
      = Some (mkDefault 3 (-1))
   /\ exists st,
        execute Fragment.js_eval 10 (unlines (program (default ++ case1)))
                (new_interpreter None false) = Some st
        /\ lookup "x" (variables st)
           = Some (mkVar "x" "entero" (JNum Num.zero))
        /\ output st = ["fin"]
        /\ errors st = []
        /\ map at_index (dispatched st) = [0; 1; 7]%nat)
  /\ (sg_cases (scan_segun_at (program (case1 ++ default)) 1)
      = [mkCase [JNum (Num.of_N 1)] 3 4]
      /\ sg_defaultCase (scan_segun_at (program (case1 ++ default)) 1)
         = Some (mkDefault 5 6)
      /\ exists st,
           execute Fragment.js_eval 10 (unlines (program (case1 ++ default)))
                   (new_interpreter None false) = Some st
           /\ output st = ["otro"; "fin"]
           /\ errors st = []
           /\ map at_index (dispatched st) = [0; 1; 5; 7]%nat).
Proof.
  split.
  - split; [vm_compute; reflexivity|]. split; [vm_compute; reflexivity|].
    eexists. split; [vm_compute; reflexivity|]. repeat split.
  - split; [vm_compute; reflexivity|]. split; [vm_compute; reflexivity|].
    eexists. split; [vm_compute; reflexivity|]. repeat split.
Qed.

(** ** Invariants of a run

    A predicate on the interpreter state that every field update keeps, and
    that logging a call keeps when the call is entered with the fatal flag
    clear, holds after every call of [executeLine] entered with the flag
    clear, after every block loop, and at the end of every run. *)

Definition out_holds {A : Type} (Inv : interp -> Prop) (o : outcome A) : Prop :=
  match o with
  | Ret _ st => Inv st
  | Throw _ st => Inv st
  | Timeout st => Inv st /\ hasError st = false
  end.

Definition preserves {A : Type} (Inv : interp -> Prop) (c : M A) : Prop :=
  forall st, Inv st -> out_holds Inv (c st).

(** What the block loops need of the recursive call: it is only made with
    the flag clear. *)
Definition guarded (Inv : interp -> Prop) (exec : nat -> M nat) : Prop :=
  forall j st, hasError st = false -> Inv st -> out_holds Inv (exec j st).

Create HintDb inv.

Section Invariant.

Variable js_eval : string -> option jsval.
Variable Inv : interp -> Prop.

Hypothesis Inv_set_variables : forall x st, Inv st -> Inv (set_variables x st).
Hypothesis Inv_push_output : forall s st, Inv st -> Inv (push_output s st).
Hypothesis Inv_fail_with : forall m st, Inv st -> Inv (fail_with m st).
Hypothesis Inv_node : forall k t st, Inv st -> Inv (addFlowchartNode k t st).
Hypothesis Inv_notify : forall st, Inv st -> Inv (notifyVariableChange st).
Hypothesis Inv_read_input : forall p st, Inv st -> Inv (snd (read_input p st)).
Hypothesis Inv_log :
  forall i st, hasError st = false -> Inv st -> Inv (log_dispatch i st).

Lemma preserves_ret (A : Type) (a : A) : preserves Inv (ret a).
Proof. intros st H. exact H. Qed.

Lemma preserves_throw (A : Type) e : preserves Inv (@throw A e).
Proof. intros st H. exact H. Qed.

Lemma preserves_gets (A : Type) (f : interp -> A) : preserves Inv (gets f).
Proof. intros st H. exact H. Qed.

Lemma preserves_modify f :
  (forall st, Inv st -> Inv (f st)) -> preserves Inv (modify f).
Proof. intros Hf st H. apply Hf. exact H. Qed.

Lemma preserves_bind (A B : Type) (c : M A) (k : A -> M B) :
  preserves Inv c -> (forall a, preserves Inv (k a)) ->
  preserves Inv (bind c k).
Proof.
  intros Hc Hk st H. unfold bind. specialize (Hc st H).
  destruct (c st) as [a st'|e st'|]; simpl in *; auto.
  apply Hk. exact Hc.
Qed.

Lemma Inv_evaluate_parts parts :
  forall results st,
    Inv st -> Inv (snd (evaluate_parts js_eval parts results st)).
Proof.
  induction parts as [|p parts IH]; intros results st H; simpl; [exact H|].
  destruct (evaluate_part js_eval p st) as [s st'] eqn:E.
  apply IH. unfold evaluate_part in E.
  destruct (is_quoted_literal (Str.trim p)); [injection E as _ <-; exact H|].
  destruct (lookup _ (variables st)); [injection E as _ <-; exact H|].
  destruct (_ && _); injection E as _ <-; auto.
Qed.

Lemma Inv_evaluateExpression expr st :
  Inv st -> Inv (snd (evaluateExpression js_eval expr st)).
Proof.
  intros H. unfold evaluateExpression.
  destruct (_ || _); [|exact H].
  pose proof (Inv_evaluate_parts (splitByComma expr) [] st H) as H'.
  destruct (evaluate_parts js_eval (splitByComma expr) [] st). exact H'.
Qed.

Lemma preserves_eval_expr expr : preserves Inv (eval_expr js_eval expr).
Proof.
  intros st H. unfold eval_expr.
  pose proof (Inv_evaluateExpression expr st H) as H'.
  destruct (evaluateExpression js_eval expr st). exact H'.
Qed.

Lemma preserves_ask p : preserves Inv (ask p).
Proof.
  intros st H. unfold ask. pose proof (Inv_read_input p st H) as H'.
  destruct (read_input p st). exact H'.
Qed.

Lemma Inv_store_element key elems idx v st :
  Inv st -> Inv (store_element key elems idx v st).
Proof.
  intros H. unfold store_element.
  destruct (Val.array_index (Val.to_number idx)); auto.
Qed.

#[local] Hint Resolve Inv_set_variables Inv_push_output Inv_fail_with Inv_node
  Inv_notify Inv_store_element : inv.

(** One step of the syntax-directed proof that a computation keeps the
    invariant. *)
Ltac keep_step :=
  first
    [ apply preserves_ret
    | apply preserves_throw
    | apply preserves_gets
    | apply preserves_eval_expr
    | apply preserves_ask
    | apply preserves_modify; intros; auto with inv
    | apply preserves_bind; [|intros]
    | match goal with
      | |- preserves _ (match ?x with _ => _ end) => destruct x
      | |- preserves _ (if ?b then _ else _) => destruct b
      end ].

Ltac keep := repeat keep_step.

Lemma preserves_leer_vars names : preserves Inv (leer_vars names).
Proof.
  induction names as [|v names IH]; simpl; keep. exact IH.
Qed.

(** The guard of every loop has the flag clear when it lets a pass begin. *)
Lemma guard_flag (b : bool) st :
  b && negb (hasError st) = true -> hasError st = false.
Proof.
  intros E. apply andb_prop in E. destruct E as [_ E].
  apply negb_true_iff in E. exact E.
Qed.

Lemma preserves_run_lines exec n :
  guarded Inv exec ->
  forall j stop, preserves Inv (run_lines exec n j stop).
Proof.
  intros Hexec. induction n as [|n IH]; intros j stop st H; simpl.
  - destruct ((j <? stop)%nat && negb (hasError st)) eqn:E; simpl; auto.
    split; [exact H|exact (guard_flag _ _ E)].
  - destruct ((j <? stop)%nat && negb (hasError st)) eqn:E; simpl; auto.
    specialize (Hexec j st (guard_flag _ _ E) H).
    destruct (exec j st) as [j' st'|e st'|st']; simpl in *; auto.
    apply IH. exact Hexec.
Qed.

Lemma preserves_while_M body condition n :
  preserves Inv body -> preserves Inv (while_M js_eval body condition n).
Proof.
  intros Hbody. unfold while_M. generalize 0%nat.
  induction n as [|n IH]; intros i st H; simpl.
  - destruct (_ && negb (hasError st)) eqn:E; simpl; auto.
    split; [exact H|exact (guard_flag _ _ E)].
  - destruct (_ && negb (hasError st)) eqn:E; simpl; auto.
    specialize (Hbody st H).
    destruct (body st) as [[] st'|e st'|st']; simpl in *; auto.
    apply IH. exact Hbody.
Qed.

Lemma preserves_para_M body varName n :
  preserves Inv body ->
  forall v e step, preserves Inv (para_M body varName n v e step).
Proof.
  intros Hbody. unfold para_M.
  induction n as [|n IH]; intros v e step st H; simpl.
  - destruct (_ && negb (hasError st)) eqn:E; simpl; auto.
    split; [exact H|exact (guard_flag _ _ E)].
  - destruct (_ && negb (hasError st)) eqn:E; simpl; auto.
    match goal with
    | |- context [body ?s] =>
        assert (H1 : Inv s) by auto with inv;
        specialize (Hbody s H1); destruct (body s) as [[] st'|err st'|st']
    end; simpl in *; auto.
    specialize (IH (v + step)%N e step st' Hbody). cbv beta in IH.
    destruct (para_loop body varName n (v + step) e step st'). exact IH.
Qed.

Lemma preserves_dispatch exec fuel lines index l :
  guarded Inv exec ->
  preserves Inv (dispatch js_eval exec fuel lines index l).
Proof.
  intros Hexec.
  pose proof (preserves_run_lines exec fuel Hexec) as Hrun.
  unfold dispatch, or_else, when.
  unfold exec_definir, exec_dimension, exec_leer, exec_escribir,
    exec_mientras, exec_para, exec_segun, exec_si, exec_sino_si,
    exec_assignment.
  repeat first
    [ match goal with
      | |- preserves _ (match (if ?b then _ else _) with _ => _ end) =>
          destruct b
      | |- preserves _ (match (match ?x with _ => _ end) with _ => _ end) =>
          destruct x
      | |- preserves _ (let '(_, _) := ?x in _) => destruct x
      | |- preserves _ (match (let '(_, _) := ?x in _) with _ => _ end) =>
          destruct x
      end
    | apply preserves_leer_vars
    | apply Hrun
    | apply preserves_while_M
    | apply preserves_para_M
    | keep_step ].
Qed.

Lemma guarded_executeLine fuel lines :
  guarded Inv (executeLine js_eval fuel lines).
Proof.
  induction fuel as [|fuel IH]; intros index st Hflag H.
  - simpl. split; assumption.
  - rewrite executeLine_unfold.
    destruct (nth_error lines index) as [l|].
    + apply preserves_dispatch; [exact IH|]. apply Inv_log; assumption.
    + simpl. apply Inv_log; assumption.
Qed.

Lemma Inv_main_loop fuel n lines :
  forall i st, Inv st -> out_holds Inv (main_loop js_eval fuel n lines i st).
Proof.
  induction n as [|n IH]; intros i st H; simpl.
  - destruct ((i <? List.length lines)%nat && negb (hasError st)) eqn:E;
      simpl; auto.
    split; [exact H|exact (guard_flag _ _ E)].
  - destruct ((i <? List.length lines)%nat && negb (hasError st)) eqn:E;
      simpl; auto.
    pose proof (guarded_executeLine fuel lines i st (guard_flag _ _ E) H)
      as Hstep.
    destruct (executeLine js_eval fuel lines i st) as [i' st1|e st1|st1];
      simpl in Hstep; auto.
Qed.

End Invariant.

(** ** The fatal flag *)

(** A call of [executeLine] made before anything went wrong. *)
Definition clean_event (e : dispatch_event) : Prop :=
  flag_on_entry e = false /\ errors_on_entry e = 0%nat.

(** The flag is set exactly when an error has been recorded, and every call
    of [executeLine] so far was made with the flag clear and no error
    recorded. *)
Definition run_invariant (st : interp) : Prop :=
  (hasError st = true <-> errors st <> [])
  /\ Forall clean_event (dispatched st).

(** The errors of [ref] are still there, in place. *)
Definition errors_extend (ref st : interp) : Prop :=
  exists suffix, errors st = errors ref ++ suffix.

Lemma run_invariant_fail_with m st :
  run_invariant st -> run_invariant (fail_with m st).
Proof.
  intros [_ Hlog]. split; [|exact Hlog]. simpl. split; [|reflexivity].
  intros _ H. apply app_eq_nil in H. destruct H. discriminate.
Qed.

Lemma run_invariant_notify st :
  run_invariant st -> run_invariant (notifyVariableChange st).
Proof.
  unfold run_invariant. autorewrite with fields. auto.
Qed.

Lemma run_invariant_read_input p st :
  run_invariant st -> run_invariant (snd (read_input p st)).
Proof.
  unfold read_input. destruct (inputCallback st); auto.
Qed.

Lemma run_invariant_log i st :
  hasError st = false -> run_invariant st -> run_invariant (log_dispatch i st).
Proof.
  intros Hflag [Hiff Hlog]. split; [exact Hiff|]. simpl.
  apply Forall_app. split; [exact Hlog|]. constructor; [|constructor].
  split; simpl; [exact Hflag|].
  destruct (errors st) eqn:E; [reflexivity|].
  assert (hasError st = true) by (apply Hiff; discriminate). congruence.
Qed.

Lemma errors_extend_refl st : errors_extend st st.
Proof. exists []. rewrite app_nil_r. reflexivity. Qed.

Lemma errors_extend_fail_with ref m st :
  errors_extend ref st -> errors_extend ref (fail_with m st).
Proof.
  intros [suffix H]. exists (suffix ++ [m]). simpl. rewrite H, app_assoc.
  reflexivity.
Qed.

Lemma errors_extend_notify ref st :
  errors_extend ref st -> errors_extend ref (notifyVariableChange st).
Proof. unfold errors_extend. autorewrite with fields. auto. Qed.

Lemma errors_extend_read_input ref p st :
  errors_extend ref st -> errors_extend ref (snd (read_input p st)).
Proof. unfold read_input. destruct (inputCallback st); auto. Qed.

Lemma run_invariant_executeLine js_eval fuel lines :
  guarded run_invariant (executeLine js_eval fuel lines).
Proof.
  apply guarded_executeLine;
    first [ exact run_invariant_fail_with
          | exact run_invariant_notify
          | exact run_invariant_read_input
          | exact run_invariant_log
          | (intros ? ? H; exact H)
          | (intros ? ? ? H; exact H) ].
Qed.

Lemma errors_extend_executeLine js_eval ref fuel lines :
  guarded (errors_extend ref) (executeLine js_eval fuel lines).
Proof.
  apply guarded_executeLine;
    first [ exact (errors_extend_fail_with ref)
          | exact (errors_extend_notify ref)
          | exact (errors_extend_read_input ref)
          | (intros ? ? H; exact H)
          | (intros ? ? ? H; exact H)
          | (intros ? ? ? ? H; exact H) ].
Qed.

Lemma connect_keeps_last nodes :
  forall x, exists nodes',
    connect (nodes ++ [x]) = nodes' ++ [x]
    /\ List.length nodes' = List.length nodes.
Proof.
  induction nodes as [|a nodes IH]; intros x.
  - exists []. split; reflexivity.
  - destruct (IH x) as (nodes' & Hc & Hlen).
    simpl. destruct (nodes ++ [x]) as [|b rest] eqn:E.
    + destruct nodes; discriminate.
    + rewrite Hc. eexists (_ :: nodes'). split; [reflexivity|].
      simpl. rewrite Hlen. reflexivity.
Qed.

Lemma run_invariant_start st0 :
  run_invariant (addFlowchartNode start "Inicio" (reset st0)).
Proof.
  split; [|constructor]. simpl. split; [discriminate|].
  intros H. contradiction.
Qed.

Lemma run_invariant_main_loop js_eval fuel n lines i st :
  run_invariant st ->
  out_holds run_invariant (main_loop js_eval fuel n lines i st).
Proof.
  apply Inv_main_loop;
    first [ exact run_invariant_fail_with
          | exact run_invariant_notify
          | exact run_invariant_read_input
          | exact run_invariant_log
          | (intros ? ? H; exact H)
          | (intros ? ? ? H; exact H) ].
Qed.

Lemma run_invariant_execute js_eval fuel code st0 st :
  execute js_eval fuel code st0 = Some st -> run_invariant st.
Proof.
  unfold execute. intros H.
  pose proof (run_invariant_main_loop js_eval fuel fuel (preprocess code) 0 _
                (run_invariant_start st0)) as Hloop.
  destruct (main_loop js_eval fuel fuel (preprocess code) 0
              (addFlowchartNode start "Inicio" (reset st0)))
    as [[] st2|e st2|st2]; try discriminate.
  injection H as <-. exact Hloop.
Qed.

(** With the flag set, every loop that dispatches statements returns at
    once and leaves the state as it is. *)
Lemma loops_stop_when_flagged js_eval st :
  hasError st = true ->
  (forall exec n j stop, run_lines exec n j stop st = Ret tt st)
  /\ (forall body cond n it,
         while_loop js_eval body cond n it st = (it, Ret tt st))
  /\ (forall body v n a b s, para_loop body v n a b s st = ([], Ret tt st))
  /\ (forall fuel n lines i, main_loop js_eval fuel n lines i st = Ret tt st).
Proof.
  intros Hflag. split; [|split; [|split]].
  - intros exec n j stop. destruct n; simpl; rewrite Hflag, andb_false_r;
      reflexivity.
  - intros body cond n it. destruct n; simpl; rewrite Hflag, andb_false_r;
      reflexivity.
  - intros body v n a b s. destruct n; simpl; rewrite Hflag, andb_false_r;
      reflexivity.
  - intros fuel n lines i. destruct n; simpl; rewrite Hflag, andb_false_r;
      reflexivity.
Qed.

(** C8.  Once the fatal flag is set, every loop that dispatches statements
    (the body loop of every block, the [mientras] and [para] loops, the main
    loop) returns at once and leaves the state as it is.  In every run the
    flag is set exactly when an error is recorded, recorded errors are never
    removed by a statement, and every statement was dispatched with the flag
    clear and no error recorded.  A run that is still going when the fuel is
    used up has recorded no error: once the flag is set the run does come
    to its end.  It ends by [finish], which appends the end node "Fin" and
    returns the output and the errors accumulated so far. *)
Theorem fatal_flag_halts_the_run :
  forall js_eval,
    (forall st,
        hasError st = true ->
        (forall exec n j stop, run_lines exec n j stop st = Ret tt st)
        /\ (forall body cond n it,
               while_loop js_eval body cond n it st = (it, Ret tt st))
        /\ (forall body v n a b s, para_loop body v n a b s st = ([], Ret tt st))
        /\ (forall fuel n lines i,
               main_loop js_eval fuel n lines i st = Ret tt st))
    /\ (forall fuel code st0 st,
           execute js_eval fuel code st0 = Some st ->
           Forall clean_event (dispatched st)
           /\ (hasError st = true <-> errors st <> []))
    /\ (forall fuel n code st0 st,
           main_loop js_eval fuel n (preprocess code) 0
                     (addFlowchartNode start "Inicio" (reset st0))
           = Timeout st ->
           hasError st = false
           /\ errors st = []
           /\ Forall clean_event (dispatched st))
    /\ (forall fuel lines index st,
           hasError st = false ->
           out_holds (errors_extend st)
                     (executeLine js_eval fuel lines index st))
    /\ (forall fuel code st0 st,
           execute js_eval fuel code st0 = Some st ->
           exists st2,
             main_loop js_eval fuel fuel (preprocess code) 0
                       (addFlowchartNode start "Inicio" (reset st0))
             = Ret tt st2
             /\ st = finish st2)
    /\ (forall st2,
           output (finish st2) = output st2
           /\ errors (finish st2) = errors st2
           /\ exists nodes,
               flowchart (finish st2)
               = nodes ++ [mkNode ("node_" ++ nat_to_string (nodeCounter st2))
                                  end_ "Fin" []]
               /\ List.length nodes = List.length (flowchart st2)).
Proof.
  intros js_eval. split; [|split; [|split; [|split; [|split]]]].
  - intros st Hflag. apply loops_stop_when_flagged. exact Hflag.
  - intros fuel code st0 st H.
    destruct (run_invariant_execute _ _ _ _ _ H) as [Hiff Hlog]. auto.
  - intros fuel n code st0 st H.
    pose proof (run_invariant_main_loop js_eval fuel n (preprocess code) 0 _
                  (run_invariant_start st0)) as Hloop.
    rewrite H in Hloop. destruct Hloop as [[Hiff Hlog] Hflag].
    split; [exact Hflag|]. split; [|exact Hlog].
    destruct (errors st) eqn:E; [reflexivity|].
    assert (hasError st = true) by (apply Hiff; discriminate). congruence.
  - intros fuel lines index st Hflag.
    apply errors_extend_executeLine; [exact Hflag|apply errors_extend_refl].
  - intros fuel code st0 st H. unfold execute in H.
    destruct (main_loop js_eval fuel fuel (preprocess code) 0
                (addFlowchartNode start "Inicio" (reset st0)))
      as [[] st2|e st2|st2]; try discriminate.
    injection H as <-. exists st2. split; reflexivity.
  - intros st2. split; [reflexivity|]. split; [reflexivity|].
    unfold finish. simpl.
    destruct (connect_keeps_last (flowchart st2)
                (mkNode ("node_" ++ nat_to_string (nodeCounter st2))
                        end_ "Fin" [])) as (nodes & Hc & Hlen).
    exists nodes. split; assumption.
Qed.

(** A run whose error is raised three blocks deep: the assignment to the
    undeclared [y] is the last statement dispatched, although the loops
    around it have passes left and lines follow. *)
Lemma fatal_flag_halts_the_run_witness :
  let code := unlines ["Definir x Como Entero";
                       "Para i <- 1 Hasta 3";
                       "Mientras VERDADERO Hacer";
                       "Si 1 < 2 Entonces";
                       "y <- 1";
                       "Escribir 'despues'";
                       "FinSi";
                       "FinMientras";
                       "FinPara";
                       "Escribir 'fin'"] in
  exists st,
    execute Fragment.js_eval 10 code (new_interpreter None false) = Some st
    /\ map at_index (dispatched st) = [0; 1; 2; 3; 4]%nat
    /\ output st = []
    /\ List.length (errors st) = 1%nat
    /\ Forall clean_event (dispatched st)
    /\ (hasError st = true <-> errors st <> []).
Proof.
  intros code.
  destruct (execute Fragment.js_eval 10 code (new_interpreter None false))
    as [st|] eqn:E; [|vm_compute in E; discriminate].
  exists st. split; [reflexivity|].
  pose proof (proj1 (proj2 (fatal_flag_halts_the_run Fragment.js_eval))
                10 code (new_interpreter None false) st E) as [Hlog Hiff].
  assert (Hst : Some st
                = execute Fragment.js_eval 10 code (new_interpreter None false))
    by (symmetry; exact E).
  vm_compute in Hst. injection Hst as Hst.
  split; [subst st; reflexivity|]. split; [subst st; reflexivity|].
  split; [subst st; reflexivity|]. split; assumption.
Defined.

(** ** Undeclared identifiers *)

Lemma leer_vars_declared_quiet names :
  forall st,
    (forall v, In v names -> lookup (Str.toLowerCase v) (variables st) <> None) ->
    exists st',
      leer_vars names st = Ret false st'
      /\ errors st' = errors st
      /\ hasError st' = hasError st
      /\ dispatched st' = dispatched st
      /\ (forall key, lookup key (variables st) = None ->
                      lookup key (variables st') = None).
Proof.
  induction names as [|v names IH]; intros st Hdecl.
  - exists st. repeat split; auto.
  - destruct (lookup (Str.toLowerCase v) (variables st)) as [ev|] eqn:E;
      [|exfalso; apply (Hdecl v); [left; reflexivity|exact E]].
    rewrite (leer_vars_cons_declared _ _ _ _ E).
    match goal with |- context [leer_vars names ?s] => set (st1 := s) end.
    assert (Hsame : forall key,
               decl key (variables st1) = decl key (variables st)).
    { intros key. unfold st1. autorewrite with fields.
      rewrite decl_set_value, variables_read_input. reflexivity. }
    destruct (IH st1) as (st' & Hrun & He & Hf & Hd & Hnone).
    { intros w Hw. specialize (Hdecl w (or_intror Hw)).
      specialize (Hsame (Str.toLowerCase w)). unfold decl in Hsame.
      destruct (lookup (Str.toLowerCase w) (variables st1));
        destruct (lookup (Str.toLowerCase w) (variables st));
        simpl in Hsame; congruence. }
    exists st'. split; [exact Hrun|].
    assert (Hfields : errors st1 = errors st /\ hasError st1 = hasError st
                      /\ dispatched st1 = dispatched st).
    { unfold st1. autorewrite with fields. unfold read_input.
      destruct (inputCallback st); repeat split; reflexivity. }
    destruct Hfields as (He1 & Hf1 & Hd1).
    split; [congruence|]. split; [congruence|]. split; [congruence|].
    intros key Hk. apply Hnone. specialize (Hsame key). unfold decl in Hsame.
    rewrite Hk in Hsame.
    destruct (lookup key (variables st1)); [discriminate|reflexivity].
Qed.

(** The tests a line has to pass, in the order of [executeLine], to be
    handled as an assignment. *)
Definition reaches_assignment (l : string) : bool :=
  let line := Str.toLowerCase l in
  negb (Str.startsWith line "algoritmo")
  && negb (Str.startsWith line "proceso")
  && negb (Str.startsWith line "finalgoritmo")
  && negb (Str.startsWith line "finproceso")
  && negb (Str.startsWith line "definir")
  && negb (Str.startsWith line "dimension")
  && negb (Str.startsWith line "leer")
  && negb (Str.startsWith line "escribir")
  && negb (Str.startsWith line "mientras" && Re.test true Pat.mientras l)
  && negb (Str.startsWith line "para" && Re.test true Pat.para l)
  && negb (Str.startsWith line "segun" && Re.test true Pat.segun l)
  && negb (Str.startsWith line "si" && negb (Str.startsWith line "sino")
           && Re.test true Pat.si l)
  && negb (Re.test true Pat.sino_si_open line && Re.test true Pat.sino_si l)
  && (Str.includes line "<-" || Str.includes line "=").

Lemma dispatch_assignment js_eval exec fuel lines index l :
  reaches_assignment l = true ->
  dispatch js_eval exec fuel lines index l = exec_assignment js_eval index l.
Proof.
  intros H. unfold reaches_assignment in H. cbv zeta in H.
  repeat (apply andb_prop in H; let H' := fresh "T" in destruct H as [H H']).
  repeat match goal with
         | X : negb _ = true |- _ => apply negb_true_iff in X
         end.
  unfold dispatch. cbv zeta.
  rewrite H, T11, T10, T9, T8, T7, T6, T5. cbn [orb].
  unfold or_else, when, Re.test in *.
  destruct (Str.startsWith (Str.toLowerCase l) "mientras");
    [unfold exec_mientras;
     destruct (Re.exec true Pat.mientras l); [discriminate|]|].
  all: destruct (Str.startsWith (Str.toLowerCase l) "para");
    [unfold exec_para; destruct (Re.exec true Pat.para l); [discriminate|]|].
  all: destruct (Str.startsWith (Str.toLowerCase l) "segun");
    [unfold exec_segun; destruct (Re.exec true Pat.segun l); [discriminate|]|].
  all: destruct (Str.startsWith (Str.toLowerCase l) "si"
                 && negb (Str.startsWith (Str.toLowerCase l) "sino"));
    [unfold exec_si; destruct (Re.exec true Pat.si l); [discriminate|]|].
  all: destruct (Re.exec true Pat.sino_si_open (Str.toLowerCase l));
    [unfold exec_sino_si;
     destruct (Re.exec true Pat.sino_si l); [discriminate|]|].
  all: rewrite T; reflexivity.
Qed.

Lemma dispatch_escribir js_eval exec fuel lines index l :
  Str.startsWith (Str.toLowerCase l) "escribir" = true ->
  dispatch js_eval exec fuel lines index l = exec_escribir js_eval index l.
Proof.
  intros H. unfold dispatch.
  skip_keyword l "algoritmo" H. skip_keyword l "proceso" H.
  skip_keyword l "finalgoritmo" H. skip_keyword l "finproceso" H.
  skip_keyword l "definir" H. skip_keyword l "dimension" H.
  skip_keyword l "leer" H.
  rewrite H. reflexivity.
Qed.

(** A part of a concatenation that is a bare identifier bound to no
    variable: the case in which [evaluateExpression] records an error. *)
Definition names_undeclared (vars : list (string * Var)) (part : string)
  : bool :=
  let trimmed := Str.trim part in
  negb (is_quoted_literal trimmed)
  && match lookup (Str.toLowerCase trimmed) vars with
     | None => true
     | Some _ => false
     end
  && Re.test false Pat.identifier trimmed
  && negb (Re.test false Pat.all_digits trimmed).

Definition has_quote (expr : string) : bool :=
  Str.includes expr (String Chars.dquote EmptyString) || Str.includes expr "'".

(** What evaluating an expression may change: the errors and the flag. *)
Definition same_but_errors (st st' : interp) : Prop :=
  variables st' = variables st /\ output st' = output st
  /\ flowchart st' = flowchart st /\ nodeCounter st' = nodeCounter st
  /\ dispatched st' = dispatched st.

Lemma evaluate_part_effect js_eval p st :
  same_but_errors st (snd (evaluate_part js_eval p st))
  /\ errors (snd (evaluate_part js_eval p st))
     = errors st
         ++ (if names_undeclared (variables st) p
             then [undefined_in_expression (Str.trim p)] else [])
  /\ hasError (snd (evaluate_part js_eval p st))
     = hasError st || names_undeclared (variables st) p.
Proof.
  unfold evaluate_part, names_undeclared, same_but_errors.
  destruct (is_quoted_literal (Str.trim p)); simpl.
  { rewrite app_nil_r, orb_false_r. repeat split. }
  destruct (lookup (Str.toLowerCase (Str.trim p)) (variables st)); simpl.
  { rewrite app_nil_r, orb_false_r. repeat split. }
  destruct (Re.test false Pat.identifier (Str.trim p)
            && negb (Re.test false Pat.all_digits (Str.trim p))); simpl.
  - rewrite orb_true_r. repeat split.
  - rewrite app_nil_r, orb_false_r. repeat split.
Qed.

Lemma evaluate_parts_effect js_eval parts :
  forall results st,
    same_but_errors st (snd (evaluate_parts js_eval parts results st))
    /\ errors (snd (evaluate_parts js_eval parts results st))
       = errors st
           ++ map (fun p => undefined_in_expression (Str.trim p))
                  (filter (names_undeclared (variables st)) parts)
    /\ hasError (snd (evaluate_parts js_eval parts results st))
       = hasError st || existsb (names_undeclared (variables st)) parts.
Proof.
  induction parts as [|p parts IH]; intros results st; simpl.
  - rewrite app_nil_r, orb_false_r. unfold same_but_errors. repeat split.
  - destruct (evaluate_part_effect js_eval p st) as (Hs & He & Hf).
    destruct (evaluate_part js_eval p st) as [s st1]. simpl in Hs, He, Hf.
    destruct (IH (results ++ [s]) st1) as (Hs' & He' & Hf').
    destruct Hs as (Hv & Ho & Hfl & Hn & Hd).
    destruct Hs' as (Hv' & Ho' & Hfl' & Hn' & Hd').
    rewrite Hv in *.
    split; [unfold same_but_errors; repeat split; congruence|].
    split.
    + rewrite He', He.
      destruct (names_undeclared (variables st) p); simpl;
        rewrite <- app_assoc; reflexivity.
    + rewrite Hf', Hf, orb_assoc. reflexivity.
Qed.

(** C1, as amended.  An undeclared name met by a [Leer] statement, an
    undeclared scalar target of an assignment, and an undeclared array
    target each append exactly one error, set the fatal flag and end the
    statement.  A written expression that contains a quote appends one
    error for each of its parts that is a bare identifier bound to no
    variable, and sets the flag when there is such a part.  With the flag
    set, the block loops and the main loop return at once, so no later line
    is dispatched. *)
Theorem undeclared_identifier_is_fatal :
  forall js_eval fuel lines index st l,
    nth_error lines index = Some l ->
    (forall f pre varName post,
        Str.startsWith (Str.toLowerCase l) "leer" = true ->
        Re.exec true Pat.leer l = Some f ->
        leer_names (group_or_empty f 1) = pre ++ varName :: post ->
        (forall v, In v pre ->
                   lookup (Str.toLowerCase v) (variables st) <> None) ->
        lookup (Str.toLowerCase varName) (variables st) = None ->
        exists st',
          executeLine js_eval (S fuel) lines index st = Ret (index + 1) st'
          /\ errors st' = errors st ++ [undefined_variable varName]
          /\ hasError st' = true
          /\ dispatched st' = dispatched (log_dispatch index st))
    /\ (forall f,
           reaches_assignment l = true ->
           Re.exec true Pat.assignment l = Some f ->
           Re.exec false Pat.array_target (group_or_empty f 1) = None ->
           lookup (Str.toLowerCase (group_or_empty f 1)) (variables st) = None ->
           executeLine js_eval (S fuel) lines index st
           = Ret (index + 1)
                 (fail_with (undefined_variable (group_or_empty f 1))
                            (log_dispatch index st)))
    /\ (forall f am,
           reaches_assignment l = true ->
           Re.exec true Pat.assignment l = Some f ->
           Re.exec false Pat.array_target (group_or_empty f 1) = Some am ->
           lookup (Str.toLowerCase (group_or_empty am 1)) (variables st) = None ->
           executeLine js_eval (S fuel) lines index st
           = Ret (index + 1)
                 (fail_with (undefined_array (group_or_empty am 1))
                            (log_dispatch index st)))
    /\ (forall f,
           Str.startsWith (Str.toLowerCase l) "escribir" = true ->
           Re.exec true Pat.escribir l = Some f ->
           has_quote (group_or_empty f 1) = true ->
           exists st',
             executeLine js_eval (S fuel) lines index st = Ret (index + 1) st'
             /\ errors st'
                = errors st
                    ++ map (fun p => undefined_in_expression (Str.trim p))
                           (filter (names_undeclared (variables st))
                                   (splitByComma (group_or_empty f 1)))
             /\ hasError st'
                = hasError st
                  || existsb (names_undeclared (variables st))
                             (splitByComma (group_or_empty f 1))
             /\ dispatched st' = dispatched (log_dispatch index st))
    /\ (forall st',
           hasError st' = true ->
           (forall exec n j stop, run_lines exec n j stop st' = Ret tt st')
           /\ (forall fuel' n lines' i,
                  main_loop js_eval fuel' n lines' i st' = Ret tt st')).
Proof.
  intros js_eval fuel lines index st l Hl.
  split; [|split; [|split; [|split]]].
  - intros f pre varName post Hkw Hre Hnames Hpre Hvar.
    rewrite executeLine_unfold, Hl, dispatch_leer by exact Hkw.
    unfold exec_leer. rewrite Hre, Hnames. unfold bind at 1.
    rewrite leer_vars_app.
    destruct (leer_vars_declared_quiet pre (log_dispatch index st))
      as (st1 & Hrun & He & Hf & Hd & Hnone).
    { intros v Hv. rewrite variables_log. apply Hpre. exact Hv. }
    rewrite Hrun, leer_vars_cons_undeclared
      by (apply Hnone; rewrite variables_log; exact Hvar).
    eexists. split; [reflexivity|]. simpl. rewrite He, Hd.
    repeat split.
  - intros f Hreach Hre Hnot Hvar.
    rewrite executeLine_unfold, Hl, dispatch_assignment by exact Hreach.
    unfold exec_assignment. rewrite Hre, Hnot.
    unfold bind at 1. unfold gets. rewrite variables_log, Hvar. reflexivity.
  - intros f am Hreach Hre Harr Hvar.
    rewrite executeLine_unfold, Hl, dispatch_assignment by exact Hreach.
    unfold exec_assignment. rewrite Hre, Harr.
    unfold bind at 1. unfold gets. rewrite variables_log, Hvar. reflexivity.
  - intros f Hkw Hre Hq.
    rewrite executeLine_unfold, Hl, dispatch_escribir by exact Hkw.
    unfold exec_escribir. rewrite Hre. unfold bind at 1.
    unfold eval_expr, evaluateExpression. unfold has_quote in Hq. rewrite Hq.
    destruct (evaluate_parts_effect js_eval
                (splitByComma (group_or_empty f 1)) []
                (log_dispatch index st)) as (Hs & He & Hf).
    destruct (evaluate_parts js_eval (splitByComma (group_or_empty f 1)) []
                             (log_dispatch index st)) as [results st1].
    simpl in Hs, He, Hf. destruct Hs as (_ & _ & _ & _ & Hd).
    unfold bind, modify, ret. eexists. split; [reflexivity|].
    simpl. rewrite He, Hf, Hd. repeat split.
  - intros st' Hflag.
    destruct (loops_stop_when_flagged js_eval st' Hflag) as (H1 & _ & _ & H4).
    split; assumption.
Qed.

Lemma undeclared_identifier_is_fatal_witness :
  let st := set_variables [("a", mkVar "a" "entero" (JNum Num.zero))]
                          (new_interpreter (Some (scripted ["5"])) false) in
  (exists st',
      executeLine Fragment.js_eval 1 ["Leer a, b"; "Escribir a"] 0 st
      = Ret (0 + 1) st'
      /\ errors st' = errors st ++ [undefined_variable "b"]
      /\ hasError st' = true
      /\ dispatched st' = dispatched (log_dispatch 0 st))
  /\ executeLine Fragment.js_eval 1 ["x <- 1"] 0 st
     = Ret (0 + 1) (fail_with (undefined_variable "x") (log_dispatch 0 st))
  /\ executeLine Fragment.js_eval 1 ["v[0] = 1"] 0 st
     = Ret (0 + 1) (fail_with (undefined_array "v") (log_dispatch 0 st)).
Proof.
  intros st. split; [|split].
  - destruct (Re.exec true Pat.leer "Leer a, b") as [f|] eqn:Hre;
      [|vm_compute in Hre; discriminate].
    assert (Hf : Some f = Re.exec true Pat.leer "Leer a, b")
      by (symmetry; exact Hre).
    vm_compute in Hf. injection Hf as Hf.
    apply (proj1 (undeclared_identifier_is_fatal Fragment.js_eval 0
                    ["Leer a, b"; "Escribir a"] 0 st "Leer a, b" eq_refl)
                 f ["a"] "b" []).
    + reflexivity.
    + exact Hre.
    + subst f. reflexivity.
    + intros v [<-|[]]. vm_compute. discriminate.
    + reflexivity.
  - destruct (Re.exec true Pat.assignment "x <- 1") as [f|] eqn:Hre;
      [|vm_compute in Hre; discriminate].
    assert (Hf : Some f = Re.exec true Pat.assignment "x <- 1")
      by (symmetry; exact Hre).
    vm_compute in Hf. injection Hf as Hf.
    assert (Hname : group_or_empty f 1 = "x") by (subst f; reflexivity).
    rewrite <- Hname.
    apply (proj1 (proj2 (undeclared_identifier_is_fatal Fragment.js_eval 0
                           ["x <- 1"] 0 st "x <- 1" eq_refl)) f).
    + reflexivity.
    + exact Hre.
    + subst f. reflexivity.
    + subst f. reflexivity.
  - destruct (Re.exec true Pat.assignment "v[0] = 1") as [f|] eqn:Hre;
      [|vm_compute in Hre; discriminate].
    assert (Hf : Some f = Re.exec true Pat.assignment "v[0] = 1")
      by (symmetry; exact Hre).
    vm_compute in Hf. injection Hf as Hf.
    destruct (Re.exec false Pat.array_target (group_or_empty f 1))
      as [am|] eqn:Harr; [|rewrite Hf in Harr; vm_compute in Harr; discriminate].
    assert (Ham : Some am = Re.exec false Pat.array_target (group_or_empty f 1))
      by (symmetry; exact Harr).
    rewrite Hf in Ham. vm_compute in Ham. injection Ham as Ham.
    assert (Hname : group_or_empty am 1 = "v") by (rewrite Ham; reflexivity).
    rewrite <- Hname.
    apply (proj1 (proj2 (proj2 (undeclared_identifier_is_fatal
                                  Fragment.js_eval 0 ["v[0] = 1"] 0 st
                                  "v[0] = 1" eq_refl))) f am).
    + reflexivity.
    + exact Hre.
    + exact Harr.
    + rewrite Ham. reflexivity.
Defined.

(** C1 as stated fails inside expressions.  A written concatenation with
    two undeclared names appends two errors, not one; and an expression
    without a quote that names an undeclared variable appends none: the
    evaluator falls back to the text, which is written, and the next line
    is dispatched. *)
Lemma undeclared_identifier_in_an_expression :
  (exists st,
      execute Fragment.js_eval 10
              (unlines ["Escribir 'a', x, y"; "Escribir 'fin'"])
              (new_interpreter None false) = Some st
      /\ List.length (errors st) = 2%nat
      /\ output st = ["a [x?] [y?]"]
      /\ map at_index (dispatched st) = [0]%nat)
  /\ (exists st,
         execute Fragment.js_eval 10
                 (unlines ["Escribir x + 1"; "Escribir 'fin'"])
                 (new_interpreter None false) = Some st
         /\ errors st = []
         /\ hasError st = false
         /\ output st = ["x + 1"; "fin"]
         /\ map at_index (dispatched st) = [0; 1]%nat).
Proof.
  split; eexists; (split; [vm_compute; reflexivity|]); repeat split.
Qed.

(** * Further properties *)

(** ** Where the block scans end *)

Lemma scan_block_le opener closer rest :
  forall depth e,
    (scan_block opener closer rest depth e <= e + List.length rest)%nat.
Proof.
  induction rest as [|l r IH]; intros depth e; simpl; [lia|].
  destruct (0 <? depth)%Z; [|lia].
  match goal with |- (scan_block _ _ _ ?d _ <= _)%nat => specialize (IH d (S e)) end.
  lia.
Qed.

Lemma find_end_le opener closer lines index :
  (index < List.length lines)%nat ->
  (find_end opener closer lines index <= List.length lines)%nat.
Proof.
  intros H. unfold find_end.
  pose proof (scan_block_le opener closer (skipn (index + 1) lines) 1 (index + 1))
    as Hle.
  rewrite length_skipn in Hle. lia.
Qed.

(** An index recorded by a scan: none yet (-1), or the index of a line. *)
Definition line_or_none (L : nat) (s : Z) : Prop :=
  (s = -1 \/ (0 <= s < Z.of_nat L))%Z.

Lemma scan_si_bounds L rest :
  forall depth s e,
    (e + List.length rest = L)%nat -> line_or_none L s ->
    (snd (scan_si rest depth s e) <= L)%nat
    /\ line_or_none L (fst (scan_si rest depth s e)).
Proof.
  induction rest as [|l r IH]; intros depth s e He Hs; simpl.
  - split; [lia|exact Hs].
  - destruct (0 <? depth)%Z; [|simpl; split; [lia|exact Hs]].
    apply IH; [simpl in He; lia|].
    match goal with
    | |- line_or_none _ (if ?b then _ else _) => destruct b
    end; [|exact Hs].
    right. simpl in He. lia.
Qed.

Lemma scan_next_sino_bounds L rest :
  forall depth e,
    (e + List.length rest = L)%nat ->
    line_or_none L (scan_next_sino rest depth e).
Proof.
  induction rest as [|l r IH]; intros depth e He; simpl.
  - left. reflexivity.
  - destruct (0 <? depth)%Z; [|left; reflexivity].
    match goal with
    | |- line_or_none _ (if ?b then _ else _) => destruct b
    end.
    + right. simpl in He. lia.
    + apply IH. simpl in He. lia.
Qed.

Lemma scan_finsi_le rest :
  forall depth e, (scan_finsi rest depth e <= e + List.length rest)%nat.
Proof.
  induction rest as [|l r IH]; intros depth e; simpl; [lia|].
  destruct (0 <? depth)%Z; [|lia].
  match goal with |- (scan_finsi _ ?d _ <= _)%nat => specialize (IH d (S e)) end.
  lia.
Qed.

(** The groups a [segun] scan has recorded end at lines of the program. *)
Definition segun_within (L : nat) (s : segun_state) : Prop :=
  Forall (fun c => (endLine c < Z.of_nat L)%Z) (sg_cases s)
  /\ (forall dc, sg_defaultCase s = Some dc -> (d_endLine dc < Z.of_nat L)%Z)
  /\ (sg_endIndex s <= L)%nat.

Lemma save_previous_within L e cases start vals :
  (e < L)%nat ->
  Forall (fun c => (endLine c < Z.of_nat L)%Z) cases ->
  Forall (fun c => (endLine c < Z.of_nat L)%Z) (save_previous e cases start vals).
Proof.
  intros He H. unfold save_previous.
  destruct (_ && _); [|exact H].
  apply Forall_app. split; [exact H|]. constructor; [simpl; lia|constructor].
Qed.

Lemma segun_step_within L l s :
  (sg_endIndex s < L)%nat -> segun_within L s -> segun_within L (segun_step l s).
Proof.
  intros He (Hc & Hd & _). unfold segun_step.
  set (closing := Str.startsWith (Str.trim (Str.toLowerCase l)) "finsegun").
  set (d1 := if Str.startsWith (Str.trim (Str.toLowerCase l)) "segun"
             then (sg_depth s + 1)%Z else sg_depth s).
  match goal with
  | |- segun_within _ (match ?x with _ => _ end) =>
      assert (Hx : Forall (fun c => (endLine c < Z.of_nat L)%Z) (snd (fst x))
                   /\ (forall dc, snd x = Some dc -> (d_endLine dc < Z.of_nat L)%Z));
      [|destruct x as [[d2 cases2] default2]]
  end.
  { destruct closing; [|split; assumption].
    destruct (_ && _); [|split; assumption].
    destruct (0 <? _)%nat.
    - split; [|exact Hd]. simpl. apply Forall_app. split; [exact Hc|].
      constructor; [simpl; lia|constructor].
    - destruct (sg_defaultCase s) as [dc|] eqn:E; [|split; [exact Hc|discriminate]].
      destruct (d_startLine dc =? _)%Z; simpl.
      + split; [exact Hc|]. intros dc' [= <-]. simpl. lia.
      + split; [exact Hc|]. intros dc' [= <-]. apply Hd. reflexivity. }
  simpl in Hx. destruct Hx as [Hc2 Hd2].
  destruct (d2 =? 1)%Z.
  - match goal with
    | |- segun_within _ (match ?x with _ => _ end) =>
        assert (Hy : Forall (fun c => (endLine c < Z.of_nat L)%Z) (fst (fst x)));
        [|destruct x as [[cases3 start3] values3]]
    end.
    { destruct (Re.exec true Pat.case_label _); [|exact Hc2].
      destruct (negb _); [|exact Hc2].
      simpl. apply save_previous_within; assumption. }
    simpl in Hy.
    destruct (Str.startsWith _ "de otro modo").
    + split; [|split]; simpl.
      * apply save_previous_within; assumption.
      * intros dc [= <-]. simpl. lia.
      * lia.
    + split; [|split]; simpl; [exact Hy|exact Hd2|lia].
  - split; [|split]; simpl; [exact Hc2|exact Hd2|lia].
Qed.

Lemma scan_segun_within L rest :
  forall s,
    (sg_endIndex s + List.length rest = L)%nat ->
    segun_within L s -> segun_within L (scan_segun rest s).
Proof.
  induction rest as [|l r IH]; intros s He H; simpl; [exact H|].
  destruct (0 <? sg_depth s)%Z; [|exact H].
  simpl in He.
  assert (Hstep : segun_within L (segun_step l s))
    by (apply segun_step_within; [lia|exact H]).
  apply IH; [|exact Hstep].
  assert (sg_endIndex (segun_step l s) = S (sg_endIndex s)) as ->; [|lia].
  unfold segun_step.
  repeat match goal with
         | |- context [match ?x with pair _ _ => _ end] => destruct x as [[? ?] ?]
         | |- context [if ?b then _ else _] => destruct b
         end; reflexivity.
Qed.

Lemma scan_segun_at_within lines index :
  (index < List.length lines)%nat ->
  segun_within (List.length lines) (scan_segun_at lines index).
Proof.
  intros H. unfold scan_segun_at. apply scan_segun_within.
  - simpl. rewrite length_skipn. lia.
  - split; [constructor|]. split; [discriminate|]. simpl. lia.
Qed.

(** ** Invariants of a run

    A predicate on the interpreter state that every field update of the
    statements keeps holds after every call of [executeLine] made at a line
    of the program, and such calls only make calls at lines of the program;
    it holds at the end of every run, and in the state reached when the
    fuel runs out.  The exceptions thrown are those of the statements: the
    fetch of the line never fails. *)

Definition out_keeps {A : Type} (Inv : interp -> Prop) (Err : string -> Prop)
           (o : outcome A) : Prop :=
  match o with
  | Ret _ st => Inv st
  | Throw e st => Inv st /\ Err e
  | Timeout st => Inv st
  end.

Definition keeps {A : Type} (Inv : interp -> Prop) (Err : string -> Prop)
           (c : M A) : Prop :=
  forall st, Inv st -> out_keeps Inv Err (c st).

Section Frame.

Variable js_eval : string -> option jsval.
Variable lines : list string.
Variable Inv : interp -> Prop.
Variable Err : string -> Prop.

(** [this.variables.set(name.toLowerCase(), { name, type, value })] *)
Hypothesis Inv_declare :
  forall nm ty x st,
    Inv st ->
    Inv (set_variables
           (map_set (Str.toLowerCase nm) (mkVar nm ty x) (variables st)) st).
(** [existingVar.value = x] *)
Hypothesis Inv_assign :
  forall key x st,
    Inv st -> Inv (set_variables (set_value key x (variables st)) st).
Hypothesis Inv_push_output : forall s st, Inv st -> Inv (push_output s st).
Hypothesis Inv_fail_with : forall m st, Inv st -> Inv (fail_with m st).
Hypothesis Inv_node : forall k t st, Inv st -> Inv (addFlowchartNode k t st).
Hypothesis Inv_notify : forall st, Inv st -> Inv (notifyVariableChange st).
Hypothesis Inv_read_input : forall p st, Inv st -> Inv (snd (read_input p st)).
Hypothesis Inv_log :
  forall i st, (i < List.length lines)%nat -> Inv st -> Inv (log_dispatch i st).
(** [new Array(n)] with a length that is too large *)
Hypothesis Err_array_length : Err "RangeError: Invalid array length".

(** The recursive calls are made at lines of the program only. *)
Definition in_program (exec : nat -> M nat) : Prop :=
  forall j st, (j < List.length lines)%nat -> Inv st -> out_keeps Inv Err (exec j st).

Lemma keeps_ret (A : Type) (a : A) : keeps Inv Err (ret a).
Proof. intros st H. exact H. Qed.

Lemma keeps_throw (A : Type) e : Err e -> keeps Inv Err (@throw A e).
Proof. intros He st H. split; assumption. Qed.

Lemma keeps_gets (A : Type) (f : interp -> A) : keeps Inv Err (gets f).
Proof. intros st H. exact H. Qed.

Lemma keeps_modify f : (forall st, Inv st -> Inv (f st)) -> keeps Inv Err (modify f).
Proof. intros Hf st H. apply Hf. exact H. Qed.

Lemma keeps_bind (A B : Type) (c : M A) (k : A -> M B) :
  keeps Inv Err c -> (forall a, keeps Inv Err (k a)) -> keeps Inv Err (bind c k).
Proof.
  intros Hc Hk st H. unfold bind. specialize (Hc st H).
  destruct (c st) as [a st'|e st'|st']; simpl in *; auto.
  apply Hk. exact Hc.
Qed.

Lemma kept_by_evaluate_parts parts :
  forall results st,
    Inv st -> Inv (snd (evaluate_parts js_eval parts results st)).
Proof.
  induction parts as [|p parts IH]; intros results st H; simpl; [exact H|].
  destruct (evaluate_part js_eval p st) as [s st'] eqn:E.
  apply IH. unfold evaluate_part in E.
  destruct (is_quoted_literal (Str.trim p)); [injection E as _ <-; exact H|].
  destruct (lookup _ (variables st)); [injection E as _ <-; exact H|].
  destruct (_ && _); injection E as _ <-; auto.
Qed.

Lemma keeps_eval_expr expr : keeps Inv Err (eval_expr js_eval expr).
Proof.
  intros st H. unfold eval_expr, evaluateExpression.
  destruct (_ || _); [|exact H].
  pose proof (kept_by_evaluate_parts (splitByComma expr) [] st H) as H'.
  destruct (evaluate_parts js_eval (splitByComma expr) [] st). exact H'.
Qed.

Lemma keeps_ask p : keeps Inv Err (ask p).
Proof.
  intros st H. unfold ask. pose proof (Inv_read_input p st H) as H'.
  destruct (read_input p st). exact H'.
Qed.

Lemma kept_by_store_element key elems idx v st :
  Inv st -> Inv (store_element key elems idx v st).
Proof.
  intros H. unfold store_element.
  destruct (Val.array_index (Val.to_number idx)); auto.
Qed.

Ltac frame_step :=
  first
    [ apply keeps_ret
    | apply keeps_throw; exact Err_array_length
    | apply keeps_gets
    | apply keeps_eval_expr
    | apply keeps_ask
    | apply keeps_modify; intros;
      first [ apply Inv_declare | apply Inv_assign | apply Inv_push_output
            | apply Inv_fail_with | apply Inv_node | apply Inv_notify
            | apply kept_by_store_element ]; assumption
    | apply keeps_bind; [|intros]
    | match goal with
      | |- keeps _ _ (match ?x with _ => _ end) => destruct x
      | |- keeps _ _ (if ?b then _ else _) => destruct b
      end ].

Ltac frame := repeat frame_step.

Lemma keeps_leer_vars names : keeps Inv Err (leer_vars names).
Proof.
  induction names as [|v names IH]; simpl; frame. exact IH.
Qed.

Lemma keeps_run_lines exec n :
  in_program exec ->
  forall j stop,
    (stop <= List.length lines)%nat -> keeps Inv Err (run_lines exec n j stop).
Proof.
  intros Hexec. induction n as [|n IH]; intros j stop Hstop st H; simpl.
  - destruct ((j <? stop)%nat && negb (hasError st)); simpl; exact H.
  - destruct ((j <? stop)%nat && negb (hasError st)) eqn:E; simpl; [|exact H].
    apply andb_prop in E. destruct E as [E _]. apply Nat.ltb_lt in E.
    assert (Hj : (j < List.length lines)%nat) by lia.
    specialize (Hexec j st Hj H).
    destruct (exec j st) as [j' st'|e st'|st']; simpl in *; auto.
    apply IH; assumption.
Qed.

Lemma keeps_while_M body condition n :
  keeps Inv Err body -> keeps Inv Err (while_M js_eval body condition n).
Proof.
  intros Hbody. unfold while_M. generalize 0%nat.
  induction n as [|n IH]; intros i st H; simpl.
  - destruct (_ && negb (hasError st)); simpl; exact H.
  - destruct (_ && negb (hasError st)); simpl; [|exact H].
    specialize (Hbody st H).
    destruct (body st) as [[] st'|e st'|st']; simpl in *; auto.
    apply IH. exact Hbody.
Qed.

Lemma keeps_para_M body varName n :
  keeps Inv Err body ->
  forall v e step, keeps Inv Err (para_M body varName n v e step).
Proof.
  intros Hbody. unfold para_M.
  induction n as [|n IH]; intros v e step st H; simpl.
  - destruct (_ && negb (hasError st)); simpl; exact H.
  - destruct (_ && negb (hasError st)); simpl; [|exact H].
    match goal with
    | |- context [body ?s] =>
        assert (H1 : Inv s) by (apply Inv_notify, Inv_declare; exact H);
        specialize (Hbody s H1); destruct (body s) as [[] st'|err st'|st']
    end; simpl in *; auto.
    specialize (IH (v + step)%N e step st' Hbody). cbv beta in IH.
    destruct (para_loop body varName n (v + step) e step st'). exact IH.
Qed.

Section Branch.

Variable exec : nat -> M nat.
Variable fuel : nat.
Variable index : nat.
Variable l : string.
Hypothesis exec_in_program : in_program exec.
Hypothesis index_in_program : (index < List.length lines)%nat.

Lemma keeps_exec_definir : keeps Inv Err (exec_definir index l).
Proof. unfold exec_definir. frame. Qed.

Lemma keeps_exec_dimension : keeps Inv Err (exec_dimension index l).
Proof. unfold exec_dimension. frame. Qed.

Lemma keeps_exec_leer : keeps Inv Err (exec_leer index l).
Proof. unfold exec_leer. frame. apply keeps_leer_vars. Qed.

Lemma keeps_exec_escribir : keeps Inv Err (exec_escribir js_eval index l).
Proof. unfold exec_escribir. frame. Qed.

Lemma keeps_exec_assignment : keeps Inv Err (exec_assignment js_eval index l).
Proof. unfold exec_assignment. frame. Qed.

Lemma keeps_exec_mientras c :
  exec_mientras js_eval exec fuel lines index l = Some c -> keeps Inv Err c.
Proof.
  unfold exec_mientras. destruct (Re.exec true Pat.mientras l); [|discriminate].
  intros [= <-].
  pose proof (find_end_le "mientras" "finmientras" lines index index_in_program).
  frame. apply keeps_while_M, keeps_run_lines; [assumption|lia].
Qed.

Lemma keeps_exec_para c :
  exec_para exec fuel lines index l = Some c -> keeps Inv Err c.
Proof.
  unfold exec_para. destruct (Re.exec true Pat.para l); [|discriminate].
  intros [= <-].
  pose proof (find_end_le "para" "finpara" lines index index_in_program).
  frame. apply keeps_para_M, keeps_run_lines; [assumption|lia].
Qed.

Lemma keeps_exec_segun c :
  exec_segun exec fuel lines index l = Some c -> keeps Inv Err c.
Proof.
  unfold exec_segun. destruct (Re.exec true Pat.segun l); [|discriminate].
  intros [= <-].
  destruct (scan_segun_at_within lines index index_in_program)
    as (Hcases & Hdefault & _).
  apply keeps_bind; [apply keeps_gets|]. intros [variable|]; [|frame].
  apply keeps_bind; [frame|]. intros _.
  apply keeps_bind; [|intros; apply keeps_ret].
  destruct (find _ (sg_cases (scan_segun_at lines index))) as [caseItem|] eqn:E.
  - apply find_some in E. destruct E as [Hin _].
    rewrite Forall_forall in Hcases. specialize (Hcases _ Hin).
    apply keeps_bind; [frame|]. intros _.
    apply keeps_run_lines; [assumption|lia].
  - destruct (sg_defaultCase (scan_segun_at lines index)) as [dc|];
      [|apply keeps_ret].
    specialize (Hdefault dc eq_refl).
    destruct (negb _); [|apply keeps_ret].
    apply keeps_bind; [frame|]. intros _.
    apply keeps_run_lines; [assumption|lia].
Qed.

Lemma keeps_exec_si c :
  exec_si js_eval exec fuel lines index l = Some c -> keeps Inv Err c.
Proof.
  unfold exec_si. destruct (Re.exec true Pat.si l); [|discriminate].
  pose proof (scan_si_bounds (List.length lines) (skipn (index + 1) lines)
                1 (-1) (index + 1)) as Hb.
  destruct (scan_si (skipn (index + 1) lines) 1 (-1) (index + 1))
    as [sinoIndex endIndex].
  destruct Hb as [He Hs].
  { rewrite length_skipn. lia. }
  { left. reflexivity. }
  simpl in He, Hs. intros [= <-].
  assert (Hsino : (0 <? sinoIndex)%Z = true ->
                  (Z.to_nat sinoIndex <= List.length lines)%nat).
  { intros Hpos. apply Z.ltb_lt in Hpos. destruct Hs as [Hs|Hs]; lia. }
  apply keeps_bind; [apply keeps_gets|]. intros conditionResult.
  apply keeps_bind; [frame|]. intros _.
  apply keeps_bind; [|intros; apply keeps_ret].
  destruct conditionResult.
  - destruct (0 <? sinoIndex)%Z.
    + apply keeps_run_lines; auto.
    + apply keeps_run_lines; [assumption|lia].
  - destruct (0 <? sinoIndex)%Z; [|apply keeps_ret].
    destruct (Re.test false Pat.sino_si_open _);
      apply keeps_run_lines; first [assumption|lia].
Qed.

Lemma keeps_exec_sino_si c :
  exec_sino_si js_eval exec fuel lines index l = Some c -> keeps Inv Err c.
Proof.
  unfold exec_sino_si. destruct (Re.exec true Pat.sino_si l); [|discriminate].
  intros [= <-].
  pose proof (scan_next_sino_bounds (List.length lines)
                (skipn (index + 1) lines) 1 (index + 1)) as Hs.
  pose proof (scan_finsi_le (skipn (index + 1) lines) 1 (index + 1)) as Hf.
  rewrite length_skipn in Hs, Hf.
  specialize (Hs ltac:(lia)).
  apply keeps_bind; [apply keeps_gets|]. intros conditionResult.
  apply keeps_bind; [frame|]. intros _.
  destruct conditionResult; [|frame].
  apply keeps_bind; [|intros; apply keeps_ret].
  destruct (0 <? _)%Z eqn:Hpos.
  - apply keeps_run_lines; [assumption|].
    apply Z.ltb_lt in Hpos. destruct Hs as [Hs|Hs]; lia.
  - apply keeps_run_lines; [assumption|lia].
Qed.

Lemma keeps_dispatch : keeps Inv Err (dispatch js_eval exec fuel lines index l).
Proof.
  unfold dispatch, or_else, when.
  repeat match goal with
         | |- keeps _ _ (if ?b then _ else _) => destruct b
         end;
    try apply keeps_ret;
    try apply keeps_exec_definir; try apply keeps_exec_dimension;
    try apply keeps_exec_leer; try apply keeps_exec_escribir.
  all: repeat match goal with
         | |- keeps _ _ (match exec_mientras ?a ?b ?c ?d ?e ?f with _ => _ end) =>
             let E := fresh "E" in
             destruct (exec_mientras a b c d e f) eqn:E;
             [exact (keeps_exec_mientras _ E)|]
         | |- keeps _ _ (match exec_para ?b ?c ?d ?e ?f with _ => _ end) =>
             let E := fresh "E" in
             destruct (exec_para b c d e f) eqn:E;
             [exact (keeps_exec_para _ E)|]
         | |- keeps _ _ (match exec_segun ?b ?c ?d ?e ?f with _ => _ end) =>
             let E := fresh "E" in
             destruct (exec_segun b c d e f) eqn:E;
             [exact (keeps_exec_segun _ E)|]
         | |- keeps _ _ (match exec_si ?a ?b ?c ?d ?e ?f with _ => _ end) =>
             let E := fresh "E" in
             destruct (exec_si a b c d e f) eqn:E;
             [exact (keeps_exec_si _ E)|]
         | |- keeps _ _ (match exec_sino_si ?a ?b ?c ?d ?e ?f with _ => _ end) =>
             let E := fresh "E" in
             destruct (exec_sino_si a b c d e f) eqn:E;
             [exact (keeps_exec_sino_si _ E)|]
         | |- keeps _ _ (match (if ?b then _ else _) with _ => _ end) =>
             destruct b
         | |- keeps _ _ (if ?b then _ else _) => destruct b
         end.
  all: first [apply keeps_ret | apply keeps_exec_assignment].
Qed.

End Branch.

Lemma keeps_executeLine fuel : in_program (executeLine js_eval fuel lines).
Proof.
  induction fuel as [|fuel IH]; intros index st Hindex H.
  - exact H.
  - rewrite executeLine_unfold.
    destruct (nth_error lines index) as [l|] eqn:E.
    + apply keeps_dispatch; [exact IH|exact Hindex|].
      apply Inv_log; assumption.
    + apply nth_error_None in E. lia.
Qed.

Lemma keeps_main_loop fuel n :
  forall i st, Inv st -> out_keeps Inv Err (main_loop js_eval fuel n lines i st).
Proof.
  induction n as [|n IH]; intros i st H; simpl.
  - destruct ((i <? List.length lines)%nat && negb (hasError st)); exact H.
  - destruct ((i <? List.length lines)%nat && negb (hasError st)) eqn:E;
      [|exact H].
    apply andb_prop in E. destruct E as [E _]. apply Nat.ltb_lt in E.
    pose proof (keeps_executeLine fuel i st E H) as Hstep.
    destruct (executeLine js_eval fuel lines i st) as [i' st1|e st1|st1];
      simpl in Hstep; auto.
    apply IH, Inv_fail_with, Hstep.
Qed.

End Frame.

(** ** The calls of [executeLine] *)

(** Every call of [executeLine] so far was made at a line of the program. *)
Definition called_inside (lines : list string) (st : interp) : Prop :=
  Forall (fun e => (at_index e < List.length lines)%nat) (dispatched st).

Lemma called_inside_notify lines st :
  called_inside lines st -> called_inside lines (notifyVariableChange st).
Proof. unfold called_inside. autorewrite with fields. auto. Qed.

Lemma called_inside_read_input lines p st :
  called_inside lines st -> called_inside lines (snd (read_input p st)).
Proof. unfold read_input. destruct (inputCallback st); auto. Qed.

Lemma called_inside_log lines i st :
  (i < List.length lines)%nat ->
  called_inside lines st -> called_inside lines (log_dispatch i st).
Proof.
  intros Hi H. unfold called_inside. simpl. apply Forall_app.
  split; [exact H|]. constructor; [exact Hi|constructor].
Qed.

Definition fetch_succeeded (e : string) : Prop := e <> no_such_line.

Lemma called_inside_executeLine js_eval lines fuel :
  in_program lines (called_inside lines) fetch_succeeded
             (executeLine js_eval fuel lines).
Proof.
  apply keeps_executeLine;
    first [ exact (called_inside_notify lines)
          | exact (called_inside_read_input lines)
          | exact (called_inside_log lines)
          | discriminate
          | (intros ? ? H; exact H)
          | (intros ? ? ? H; exact H)
          | (intros ? ? ? ? H; exact H) ].
Qed.

Lemma called_inside_main_loop js_eval lines fuel n i st :
  called_inside lines st ->
  out_keeps (called_inside lines) fetch_succeeded
            (main_loop js_eval fuel n lines i st).
Proof.
  apply keeps_main_loop;
    first [ exact (called_inside_notify lines)
          | exact (called_inside_read_input lines)
          | exact (called_inside_log lines)
          | discriminate
          | (intros ? ? H; exact H)
          | (intros ? ? ? H; exact H)
          | (intros ? ? ? ? H; exact H) ].
Qed.

(** X4.  A call of [executeLine] at a line of the program only makes calls
    at lines of the program, whatever the blocks it resolves, and when it
    throws, the exception is not the failed fetch of [lines[index]].  In a
    run, started by [execute], every call is made at a line of the
    preprocessed program. *)
Theorem calls_stay_inside_the_program :
  forall js_eval,
    (forall fuel lines index st,
        (index < List.length lines)%nat ->
        called_inside lines st ->
        match executeLine js_eval fuel lines index st with
        | Ret _ st' => called_inside lines st'
        | Throw e st' => called_inside lines st' /\ e <> no_such_line
        | Timeout st' => called_inside lines st'
        end)
    /\ (forall fuel code st0 st,
           execute js_eval fuel code st0 = Some st ->
           called_inside (preprocess code) st).
Proof.
  intros js_eval. split.
  - intros fuel lines index st Hi H.
    exact (called_inside_executeLine js_eval lines fuel index st Hi H).
  - intros fuel code st0 st H. unfold execute in H.
    pose proof (called_inside_main_loop js_eval (preprocess code) fuel fuel 0
                  (addFlowchartNode start "Inicio" (reset st0))) as Hloop.
    destruct (main_loop js_eval fuel fuel (preprocess code) 0
                (addFlowchartNode start "Inicio" (reset st0)))
      as [[] st2|e st2|st2]; try discriminate.
    injection H as <-. apply Hloop. constructor.
Qed.

(** A segun whose matching group is the last one, inside a loop: the calls
    are made at the lines 0 to 4 of the six lines. *)
Lemma calls_stay_inside_the_program_witness :
  let code := unlines ["Definir x Como Entero";
                       "Para i <- 1 Hasta 2";
                       "Segun x Hacer";
                       "0:";
                       "Escribir 'cero'";
                       "FinSegun";
                       "FinPara"] in
  exists st,
    execute Fragment.js_eval 10 code (new_interpreter None false) = Some st
    /\ List.length (preprocess code) = 7%nat
    /\ map at_index (dispatched st) = [0; 1; 2; 4; 2; 4]%nat
    /\ called_inside (preprocess code) st.
Proof.
  intros code.
  destruct (execute Fragment.js_eval 10 code (new_interpreter None false))
    as [st|] eqn:E; [|vm_compute in E; discriminate].
  exists st. split; [reflexivity|].
  pose proof (proj2 (calls_stay_inside_the_program Fragment.js_eval)
                10 code (new_interpreter None false) st E) as Hin.
  assert (Hst : Some st
                = execute Fragment.js_eval 10 code (new_interpreter None false))
    by (symmetry; exact E).
  vm_compute in Hst. injection Hst as Hst.
  split; [vm_compute; reflexivity|].
  split; [subst st; reflexivity|exact Hin].
Defined.

(** ** The flowchart *)

Definition node_id (n : nat) : string := "node_" ++ nat_to_string n.

Lemma nat_to_string_inj a b : nat_to_string a = nat_to_string b -> a = b.
Proof.
  unfold nat_to_string. intros H.
  assert (Hnn : forall n, Nat.to_uint n <> Decimal.Nil).
  { intros n. rewrite <- (DecimalNat.Unsigned.of_to n) at 1.
    rewrite DecimalNat.Unsigned.to_of.
    apply DecimalFacts.unorm_nonnil. }
  assert (Hu : Some (Nat.to_uint a) = Some (Nat.to_uint b)).
  { rewrite <- (NilZero.usu (Nat.to_uint a)), <- (NilZero.usu (Nat.to_uint b));
      [rewrite H; reflexivity|apply Hnn|apply Hnn]. }
  injection Hu as Hu. apply DecimalNat.Unsigned.to_uint_inj. exact Hu.
Qed.

Lemma node_id_inj a b : node_id a = node_id b -> a = b.
Proof.
  unfold node_id. simpl. intros H. injection H as H.
  apply nat_to_string_inj. exact H.
Qed.

(** The node list before the nodes are connected: the ids count up from
    [node_0], the counter is the number of nodes, no node has a child, and
    the first node is the start node. *)
Definition numbered (st : interp) : Prop :=
  nodeCounter st = List.length (flowchart st)
  /\ map id (flowchart st) = map node_id (seq 0 (List.length (flowchart st)))
  /\ Forall (fun nd => children nd = []) (flowchart st)
  /\ exists rest, flowchart st = mkNode (node_id 0) start "Inicio" [] :: rest.

Lemma numbered_node k t st : numbered st -> numbered (addFlowchartNode k t st).
Proof.
  intros (Hn & Hids & Hch & rest & Hfirst). unfold numbered. simpl.
  rewrite length_app, map_app. simpl. rewrite Nat.add_1_r, seq_S, map_app.
  simpl. rewrite Hn, <- Hids. split; [reflexivity|]. split; [reflexivity|].
  split.
  - apply Forall_app. split; [exact Hch|]. constructor; [reflexivity|constructor].
  - rewrite Hfirst. eexists. reflexivity.
Qed.

Lemma numbered_notify st : numbered st -> numbered (notifyVariableChange st).
Proof.
  unfold notifyVariableChange. destruct (variableChangeCallback st); auto.
Qed.

Lemma numbered_read_input p st : numbered st -> numbered (snd (read_input p st)).
Proof. unfold read_input. destruct (inputCallback st); auto. Qed.

Lemma numbered_main_loop js_eval lines fuel n i st :
  numbered st ->
  out_keeps numbered (fun _ => True) (main_loop js_eval fuel n lines i st).
Proof.
  apply keeps_main_loop;
    first [ exact numbered_node
          | exact numbered_notify
          | exact numbered_read_input
          | exact I
          | (intros ? ? H; exact H)
          | (intros ? ? ? H; exact H)
          | (intros ? ? ? ? H; exact H) ].
Qed.

Lemma numbered_start st0 : numbered (addFlowchartNode start "Inicio" (reset st0)).
Proof.
  split; [reflexivity|]. split; [reflexivity|]. split.
  - constructor; [reflexivity|constructor].
  - exists []. reflexivity.
Qed.

(** What [connect] leaves alone. *)
Definition face (nd : FlowchartNode) : string * NodeType * string :=
  (id nd, kind nd, text nd).

Lemma connect_face nodes : map face (connect nodes) = map face nodes.
Proof.
  induction nodes as [|a nodes IH]; [reflexivity|].
  destruct nodes as [|b rest]; [reflexivity|].
  change (connect (a :: b :: rest))
    with (mkNode (id a) (kind a) (text a) (children a ++ [id b])
            :: connect (b :: rest)).
  rewrite map_cons, IH. reflexivity.
Qed.

Lemma connect_links nodes :
  Forall (fun nd => children nd = []) nodes ->
  linked_sequentially (connect nodes).
Proof.
  induction nodes as [|a nodes IH]; intros H; [exact I|].
  destruct nodes as [|b rest].
  - simpl. inversion H; assumption.
  - change (connect (a :: b :: rest))
      with (mkNode (id a) (kind a) (text a) (children a ++ [id b])
              :: connect (b :: rest)).
    inversion H as [|? ? Ha Hrest]; subst.
    specialize (IH Hrest).
    pose proof (connect_face (b :: rest)) as Hface.
    destruct (connect (b :: rest)) as [|b' rest'] eqn:E; [discriminate|].
    simpl. split; [|exact IH].
    rewrite Ha. simpl in Hface. injection Hface as Hb _ _ _.
    rewrite Hb. reflexivity.
Qed.

Lemma map_face_id nodes : map id nodes = map (fun f => fst (fst f)) (map face nodes).
Proof. rewrite map_map. reflexivity. Qed.

(** X1.  The flowchart [execute] returns is a chain: its first node is the
    start node "Inicio" and its last node the end node "Fin", the ids are
    node_0, node_1, ... in order (so no two nodes share an id), and every
    node but the last has exactly one child, the id of the node after it;
    the last has none. *)
Theorem execute_flowchart_is_a_chain :
  forall js_eval fuel code st0 st,
    execute js_eval fuel code st0 = Some st ->
    (exists middle,
        map (fun nd => (kind nd, text nd)) (flowchart st)
        = (start, "Inicio") :: middle ++ [(end_, "Fin")])
    /\ map id (flowchart st) = map node_id (seq 0 (List.length (flowchart st)))
    /\ NoDup (map id (flowchart st))
    /\ linked_sequentially (flowchart st).
Proof.
  intros js_eval fuel code st0 st H. unfold execute in H.
  pose proof (numbered_main_loop js_eval (preprocess code) fuel fuel 0 _
                (numbered_start st0)) as Hloop.
  destruct (main_loop js_eval fuel fuel (preprocess code) 0
              (addFlowchartNode start "Inicio" (reset st0)))
    as [[] st2|e st2|st2]; try discriminate.
  injection H as <-. simpl in Hloop.
  destruct (numbered_node end_ "Fin" st2 Hloop) as (Hn & Hids & Hch & rest & Hfirst).
  unfold finish. cbv zeta. unfold set_flowchart. cbn [flowchart].
  set (nodes := flowchart (addFlowchartNode end_ "Fin" st2)) in *.
  assert (Hlen : List.length (connect nodes) = List.length nodes).
  { rewrite <- (length_map face (connect nodes)), connect_face, length_map.
    reflexivity. }
  assert (Hid : map id (connect nodes) = map id nodes).
  { rewrite !map_face_id, connect_face. reflexivity. }
  split; [|split; [|split]].
  - assert (Hkt : map (fun nd => (kind nd, text nd)) (connect nodes)
                  = map (fun nd => (kind nd, text nd)) nodes).
    { transitivity (map (fun f => (snd (fst f), snd f)) (map face (connect nodes))).
      - rewrite map_map. reflexivity.
      - rewrite connect_face, map_map. reflexivity. }
    rewrite Hkt. unfold nodes. simpl.
    destruct Hloop as (_ & _ & _ & rest2 & Hfirst2). rewrite Hfirst2. simpl.
    rewrite map_app. simpl. eexists. reflexivity.
  - rewrite Hid, Hlen. exact Hids.
  - rewrite Hid, Hids.
    apply NoDup_map_NoDup_ForallPairs; [|apply seq_NoDup].
    intros a b _ _. apply node_id_inj.
  - apply connect_links. exact Hch.
Qed.

Lemma execute_flowchart_is_a_chain_witness :
  exists st,
    execute Fragment.js_eval 10
            (unlines ["Definir x Como Entero"; "x <- 2 + 3"; "Escribir x"])
            (new_interpreter None false) = Some st
    /\ map id (flowchart st) = ["node_0"; "node_1"; "node_2"; "node_3"; "node_4"]
    /\ map children (flowchart st)
       = [["node_1"]; ["node_2"]; ["node_3"]; ["node_4"]; []]
    /\ NoDup (map id (flowchart st))
    /\ linked_sequentially (flowchart st).
Proof.
  destruct (execute Fragment.js_eval 10
              (unlines ["Definir x Como Entero"; "x <- 2 + 3"; "Escribir x"])
              (new_interpreter None false)) as [st|] eqn:E;
    [|vm_compute in E; discriminate].
  exists st. split; [reflexivity|].
  destruct (execute_flowchart_is_a_chain Fragment.js_eval 10 _ _ st E)
    as (_ & _ & Hnodup & Hlinked).
  assert (Hst : Some st
                = execute Fragment.js_eval 10
                    (unlines ["Definir x Como Entero"; "x <- 2 + 3"; "Escribir x"])
                    (new_interpreter None false))
    by (symmetry; exact E).
  vm_compute in Hst. injection Hst as Hst.
  split; [subst st; reflexivity|]. split; [subst st; reflexivity|].
  split; assumption.
Defined.

(** ** The variable store *)

(** The state an outcome carries. *)
Definition reached {A : Type} (o : outcome A) : interp :=
  match o with
  | Ret _ st => st
  | Throw _ st => st
  | Timeout st => st
  end.

Lemma out_keeps_reached (A : Type) (Inv : interp -> Prop) (o : outcome A) :
  out_keeps Inv (fun _ => True) o -> Inv (reached o).
Proof. destruct o; simpl; tauto. Qed.

(** The [Map] holds one entry for a key, and the key of every variable is
    its display name in lower case. *)
Definition store_ok (vars : list (string * Var)) : Prop :=
  NoDup (map fst vars)
  /\ Forall (fun kv => fst kv = Str.toLowerCase (name (snd kv))) vars.

Definition declared (key : string) (st : interp) : Prop :=
  lookup key (variables st) <> None.

Definition keeps_declarations (ref st : interp) : Prop :=
  store_ok (variables st)
  /\ forall key, declared key ref -> declared key st.

Lemma in_keys_map_set key v vars x :
  In x (map fst (map_set key v vars)) -> x = key \/ In x (map fst vars).
Proof.
  induction vars as [|[k w] r IH]; simpl.
  - intros [H|[]]. left. symmetry. exact H.
  - destruct (String.eqb k key); simpl; [tauto|].
    intros [H|H]; [tauto|]. destruct (IH H); tauto.
Qed.

Lemma store_ok_map_set nm ty x vars :
  store_ok vars ->
  store_ok (map_set (Str.toLowerCase nm) (mkVar nm ty x) vars).
Proof.
  intros [Hnd Hk]. induction vars as [|[k w] r IH]; simpl.
  - split; simpl.
    + constructor; [intros []|constructor].
    + constructor; [reflexivity|constructor].
  - inversion Hnd as [|? ? Hnotin Hnd']; subst.
    inversion Hk as [|? ? Hkw Hk']; subst.
    destruct (String.eqb k (Str.toLowerCase nm)) eqn:E.
    + apply String.eqb_eq in E. split.
      * simpl. constructor; assumption.
      * constructor; [exact E|exact Hk'].
    + destruct (IH Hnd' Hk') as [IHnd IHk]. split.
      * simpl. constructor; [|exact IHnd].
        intros Hin. apply in_keys_map_set in Hin. destruct Hin as [->|Hin].
        -- rewrite String.eqb_refl in E. discriminate.
        -- apply Hnotin. exact Hin.
      * constructor; assumption.
Qed.

Lemma keys_set_value key x vars :
  map fst (set_value key x vars) = map fst vars.
Proof.
  induction vars as [|[k w] r IH]; simpl; [reflexivity|].
  destruct (String.eqb k key); simpl; [reflexivity|]. rewrite IH. reflexivity.
Qed.

Lemma store_ok_set_value key x vars :
  store_ok vars -> store_ok (set_value key x vars).
Proof.
  intros [Hnd Hk]. split; [rewrite keys_set_value; exact Hnd|].
  clear Hnd. induction vars as [|[k w] r IH]; simpl; [constructor|].
  inversion Hk as [|? ? Hkw Hk']; subst.
  destruct (String.eqb k key); constructor; auto.
Qed.

Lemma lookup_map_set_other key key' v vars :
  key' <> key -> lookup key (map_set key' v vars) = lookup key vars.
Proof.
  intros Hne. induction vars as [|[k w] r IH]; simpl.
  - destruct (String.eqb key' key) eqn:E; [|reflexivity].
    apply String.eqb_eq in E. contradiction.
  - destruct (String.eqb k key') eqn:E1; simpl.
    + apply String.eqb_eq in E1. subst k.
      destruct (String.eqb key' key) eqn:E2; [|reflexivity].
      apply String.eqb_eq in E2. contradiction.
    + destruct (String.eqb k key); auto.
Qed.

Lemma declared_map_set key key' v vars :
  lookup key vars <> None -> lookup key (map_set key' v vars) <> None.
Proof.
  intros H. destruct (string_dec key' key) as [->|Hne].
  - rewrite lookup_map_set_same. discriminate.
  - rewrite lookup_map_set_other by exact Hne. exact H.
Qed.

Lemma declared_set_value key key' x vars :
  lookup key vars <> None -> lookup key (set_value key' x vars) <> None.
Proof.
  intros H. pose proof (decl_set_value key key' x vars) as Hd.
  unfold decl in Hd.
  destruct (lookup key (set_value key' x vars)); [discriminate|].
  destruct (lookup key vars); [discriminate|contradiction].
Qed.

Lemma keeps_declarations_notify ref st :
  keeps_declarations ref st -> keeps_declarations ref (notifyVariableChange st).
Proof.
  unfold keeps_declarations, declared. autorewrite with fields. auto.
Qed.

Lemma keeps_declarations_read_input ref p st :
  keeps_declarations ref st -> keeps_declarations ref (snd (read_input p st)).
Proof. unfold read_input. destruct (inputCallback st); auto. Qed.

Lemma keeps_declarations_declare ref nm ty x st :
  keeps_declarations ref st ->
  keeps_declarations ref
    (set_variables
       (map_set (Str.toLowerCase nm) (mkVar nm ty x) (variables st)) st).
Proof.
  intros [Hok Hkeep]. split; simpl.
  - apply store_ok_map_set. exact Hok.
  - intros key Hkey. apply declared_map_set, Hkeep, Hkey.
Qed.

Lemma keeps_declarations_assign ref key x st :
  keeps_declarations ref st ->
  keeps_declarations ref (set_variables (set_value key x (variables st)) st).
Proof.
  intros [Hok Hkeep]. split; simpl.
  - apply store_ok_set_value. exact Hok.
  - intros key' Hkey. apply declared_set_value, Hkeep, Hkey.
Qed.

Ltac frame_instance :=
  first [ exact I
        | (intros ? ? H; exact H)
        | (intros ? ? ? H; exact H)
        | (intros ? ? ? ? H; exact H)
        | (intros ? ? ? ? ? H; exact H) ].

Lemma keeps_declarations_executeLine js_eval lines ref fuel :
  in_program lines (keeps_declarations ref) (fun _ => True)
             (executeLine js_eval fuel lines).
Proof.
  apply keeps_executeLine;
    first [ exact (keeps_declarations_declare ref)
          | exact (keeps_declarations_assign ref)
          | exact (keeps_declarations_notify ref)
          | exact (keeps_declarations_read_input ref)
          | frame_instance ].
Qed.

Lemma keeps_declarations_main_loop js_eval lines ref fuel n i st :
  keeps_declarations ref st ->
  out_keeps (keeps_declarations ref) (fun _ => True)
            (main_loop js_eval fuel n lines i st).
Proof.
  apply keeps_main_loop;
    first [ exact (keeps_declarations_declare ref)
          | exact (keeps_declarations_assign ref)
          | exact (keeps_declarations_notify ref)
          | exact (keeps_declarations_read_input ref)
          | frame_instance ].
Qed.

(** X3.  No statement removes a variable: a key that is declared when
    [executeLine] is called at a line of the program is declared in the
    state the call reaches, whether it returns, throws or is cut short.
    The store stays well formed: one entry for a key, and every key is the
    lower-cased display name of its variable; so it is at the end of every
    run. *)
Theorem declared_variables_stay_declared :
  forall js_eval,
    (forall fuel lines index st,
        (index < List.length lines)%nat ->
        store_ok (variables st) ->
        let st' := reached (executeLine js_eval fuel lines index st) in
        store_ok (variables st')
        /\ forall key, declared key st -> declared key st')
    /\ (forall fuel code st0 st,
           execute js_eval fuel code st0 = Some st ->
           store_ok (variables st)).
Proof.
  intros js_eval. split.
  - intros fuel lines index st Hi Hok.
    apply (out_keeps_reached nat (keeps_declarations st)).
    apply keeps_declarations_executeLine; [exact Hi|].
    split; [exact Hok|auto].
  - intros fuel code st0 st H. unfold execute in H.
    pose proof (keeps_declarations_main_loop js_eval (preprocess code)
                  (reset st0) fuel fuel 0
                  (addFlowchartNode start "Inicio" (reset st0))) as Hloop.
    destruct (main_loop js_eval fuel fuel (preprocess code) 0
                (addFlowchartNode start "Inicio" (reset st0)))
      as [[] st2|e st2|st2]; try discriminate.
    injection H as <-. apply Hloop.
    split; [split; constructor|auto].
Qed.

(** A loop that declares [Total] again on each pass and assigns to it under
    other spellings: one entry, under the key [total]. *)
Lemma declared_variables_stay_declared_witness :
  exists st,
    execute Fragment.js_eval 10
            (unlines ["Definir Total Como Entero";
                      "Para i <- 1 Hasta 2";
                      "Definir TOTAL Como Real";
                      "total <- 5";
                      "FinPara"])
            (new_interpreter None false) = Some st
    /\ map fst (variables st) = ["total"; "i"]
    /\ map (fun kv => name (snd kv)) (variables st) = ["TOTAL"; "i"]
    /\ store_ok (variables st).
Proof.
  destruct (execute Fragment.js_eval 10
              (unlines ["Definir Total Como Entero";
                        "Para i <- 1 Hasta 2";
                        "Definir TOTAL Como Real";
                        "total <- 5";
                        "FinPara"])
              (new_interpreter None false)) as [st|] eqn:E;
    [|vm_compute in E; discriminate].
  exists st. split; [reflexivity|].
  pose proof (proj2 (declared_variables_stay_declared Fragment.js_eval)
                10 _ _ st E) as Hok.
  assert (Hst : Some st
                = execute Fragment.js_eval 10
                    (unlines ["Definir Total Como Entero";
                              "Para i <- 1 Hasta 2";
                              "Definir TOTAL Como Real";
                              "total <- 5";
                              "FinPara"])
                    (new_interpreter None false))
    by (symmetry; exact E).
  vm_compute in Hst. injection Hst as Hst.
  split; [subst st; reflexivity|]. split; [subst st; reflexivity|exact Hok].
Defined.

(** ** What a statement leaves in place *)

(** The output lines and the flowchart nodes of [ref] are still there, in
    place and unchanged, and the callbacks are those of [ref]. *)
Definition extends (ref st : interp) : Prop :=
  (exists lines, output st = output ref ++ lines)
  /\ (exists nodes, flowchart st = flowchart ref ++ nodes
                    /\ nodeCounter st = (nodeCounter ref + List.length nodes)%nat)
  /\ inputCallback st = inputCallback ref
  /\ variableChangeCallback st = variableChangeCallback ref.

Lemma extends_refl st : extends st st.
Proof.
  split; [exists []; rewrite app_nil_r; reflexivity|].
  split; [exists []; rewrite app_nil_r; simpl; auto|]. auto.
Qed.

Lemma extends_push_output ref s st : extends ref st -> extends ref (push_output s st).
Proof.
  intros ([o Ho] & Hf & Hcb). split; [|split; assumption].
  exists (o ++ [s]). simpl. rewrite Ho, app_assoc. reflexivity.
Qed.

Lemma extends_node ref k t st : extends ref st -> extends ref (addFlowchartNode k t st).
Proof.
  intros (Ho & (f & Hf & Hn) & Hcb). split; [exact Ho|]. split; [|exact Hcb].
  eexists (f ++ [_]). simpl. rewrite Hf, app_assoc. split; [reflexivity|].
  rewrite Hn, length_app. simpl. lia.
Qed.

Lemma extends_notify ref st : extends ref st -> extends ref (notifyVariableChange st).
Proof.
  unfold notifyVariableChange. destruct (variableChangeCallback st) eqn:E; auto.
  intros (Ho & Hf & Hi & Hv). repeat split; simpl; auto. congruence.
Qed.

Lemma extends_read_input ref p st :
  extends ref st -> extends ref (snd (read_input p st)).
Proof.
  unfold read_input. destruct (inputCallback st) eqn:E; auto.
  intros (Ho & Hf & Hi & Hv). repeat split; simpl; auto. congruence.
Qed.

Lemma extends_executeLine js_eval lines ref fuel :
  in_program lines (extends ref) (fun _ => True) (executeLine js_eval fuel lines).
Proof.
  apply keeps_executeLine;
    first [ exact (extends_push_output ref)
          | exact (extends_node ref)
          | exact (extends_notify ref)
          | exact (extends_read_input ref)
          | frame_instance ].
Qed.

(** X2.  A statement only appends: after a call of [executeLine] at a line
    of the program, however it ends, the output lines and the flowchart
    nodes that were there are still there, in place and unchanged, the node
    counter has advanced by the number of nodes added, and the two
    callbacks are the ones that were set. *)
Theorem statements_only_append :
  forall js_eval fuel lines index st,
    (index < List.length lines)%nat ->
    let st' := reached (executeLine js_eval fuel lines index st) in
    (exists added, output st' = output st ++ added)
    /\ (exists nodes,
           flowchart st' = flowchart st ++ nodes
           /\ nodeCounter st' = (nodeCounter st + List.length nodes)%nat)
    /\ inputCallback st' = inputCallback st
    /\ variableChangeCallback st' = variableChangeCallback st.
Proof.
  intros js_eval fuel lines index st Hi.
  apply (out_keeps_reached nat (extends st)).
  apply extends_executeLine; [exact Hi|apply extends_refl].
Qed.

Lemma statements_only_append_witness :
  let lines := ["Mientras x < 2 Hacer"; "Escribir x"; "x <- x + 1"; "FinMientras"] in
  let st := mkInterp [("x", mkVar "x" "entero" (JNum (Num.of_N 0)))]
                     ["antes"] [] [mkNode "node_0" start "Inicio" []] 1
                     None false false 0 [] [] in
  let st' := reached (executeLine Fragment.js_eval 5 lines 0 st) in
  output st' = ["antes"; "0"; "1"]
  /\ (exists added, output st' = output st ++ added)
  /\ (exists nodes,
         flowchart st' = flowchart st ++ nodes
         /\ nodeCounter st' = (nodeCounter st + List.length nodes)%nat).
Proof.
  intros lines st st'.
  split; [vm_compute; reflexivity|].
  destruct (statements_only_append Fragment.js_eval 5 lines 0 st)
    as (Ho & Hf & _); [simpl; lia|].
  split; assumption.
Defined.

(** ** Trimming and splitting *)

Lemma chars_of_chars l : Str.chars (Str.of_chars l) = l.
Proof. apply list_ascii_of_string_of_list_ascii. Qed.

Lemma of_chars_chars s : Str.of_chars (Str.chars s) = s.
Proof. apply string_of_list_ascii_of_string. Qed.

Lemma drop_while_head p l c r :
  Str.drop_while p l = c :: r -> p c = false.
Proof.
  induction l as [|a l IH]; simpl; [discriminate|].
  destruct (p a) eqn:E; [exact IH|]. intros [= <- _]. exact E.
Qed.

Lemma drop_while_fixed p l :
  (forall c r, l = c :: r -> p c = false) -> Str.drop_while p l = l.
Proof.
  destruct l as [|a l]; [reflexivity|]. intros H. simpl.
  rewrite (H a l eq_refl). reflexivity.
Qed.

Lemma drop_while_split p l :
  exists dropped, l = dropped ++ Str.drop_while p l.
Proof.
  induction l as [|a l [d IH]]; [exists []; reflexivity|]. simpl.
  destruct (p a); [|exists []; reflexivity].
  exists (a :: d). simpl. rewrite <- IH. reflexivity.
Qed.

(** A text that neither starts nor ends with white space. *)
Definition trimmed (l : list ascii) : Prop :=
  (forall c r, l = c :: r -> Chars.is_space c = false)
  /\ (forall c r, rev l = c :: r -> Chars.is_space c = false).

Lemma trim_chars_fixed l : trimmed l -> Str.trim_chars l = l.
Proof.
  intros [Hfirst Hlast]. unfold Str.trim_chars.
  rewrite (drop_while_fixed _ l Hfirst), (drop_while_fixed _ (rev l) Hlast).
  apply rev_involutive.
Qed.

Lemma trim_chars_trimmed l : trimmed (Str.trim_chars l).
Proof.
  unfold Str.trim_chars.
  set (m := Str.drop_while Chars.is_space l).
  set (n := Str.drop_while Chars.is_space (rev m)).
  split.
  - intros c r E.
    destruct (drop_while_split Chars.is_space (rev m)) as [d Hd].
    fold n in Hd.
    assert (Hm : m = rev n ++ rev d).
    { rewrite <- (rev_involutive m), Hd, rev_app_distr. reflexivity. }
    rewrite E in Hm. simpl in Hm.
    apply (drop_while_head Chars.is_space l c (r ++ rev d)). exact Hm.
  - intros c r E. rewrite rev_involutive in E.
    apply (drop_while_head Chars.is_space (rev m) c r). exact E.
Qed.

Lemma trim_chars_idempotent l :
  Str.trim_chars (Str.trim_chars l) = Str.trim_chars l.
Proof. apply trim_chars_fixed, trim_chars_trimmed. Qed.

Lemma trim_idempotent s : Str.trim (Str.trim s) = Str.trim s.
Proof.
  unfold Str.trim. rewrite chars_of_chars, trim_chars_idempotent. reflexivity.
Qed.

Lemma is_empty_of_chars l : Str.is_empty (Str.of_chars l) = true -> l = [].
Proof. destruct l; [reflexivity|discriminate]. Qed.

(** ** splitByComma *)

Definition split_start : split_state := mkSplit [] [] false "000"%char None.

(** A part as [splitByComma] returns it. *)
Definition proper_part (p : string) : Prop := p <> "" /\ Str.trim p = p.

Lemma push_part_proper cur parts :
  Forall proper_part parts -> Forall proper_part (push_part cur parts).
Proof.
  intros H. unfold push_part.
  destruct (Str.is_empty _) eqn:E; [exact H|].
  apply Forall_app. split; [exact H|]. constructor; [|constructor].
  split.
  - intros Heq. rewrite Heq in E. discriminate.
  - unfold Str.trim. rewrite chars_of_chars, trim_chars_idempotent. reflexivity.
Qed.

Lemma split_step_proper s c :
  Forall proper_part (sp_parts s) -> Forall proper_part (sp_parts (split_step s c)).
Proof.
  intros H. unfold split_step.
  repeat match goal with
         | |- context [if ?b then _ else _] => destruct b
         end; simpl; auto using push_part_proper.
Qed.

Lemma fold_split_step_proper l :
  forall s,
    Forall proper_part (sp_parts s) ->
    Forall proper_part (sp_parts (fold_left split_step l s)).
Proof.
  induction l as [|c l IH]; intros s H; simpl; [exact H|].
  apply IH, split_step_proper, H.
Qed.

(** X5.  Every part [splitByComma] returns is non-empty and carries no
    white space at either end, whatever the expression: an operand that is
    empty or blank is dropped, not reported. *)
Theorem splitByComma_parts_are_trimmed :
  forall expr part,
    In part (splitByComma expr) -> part <> "" /\ Str.trim part = part.
Proof.
  intros expr part Hin.
  assert (H : Forall proper_part (splitByComma expr)).
  { unfold splitByComma. apply push_part_proper, fold_split_step_proper.
    constructor. }
  rewrite Forall_forall in H. exact (H part Hin).
Qed.

Lemma splitByComma_parts_are_trimmed_witness :
  splitByComma " 'a, b' ,, x ,  " = ["'a, b'"; "x"]
  /\ ("x" <> "" /\ Str.trim "x" = "x").
Proof.
  split; [vm_compute; reflexivity|].
  apply (splitByComma_parts_are_trimmed " 'a, b' ,, x ,  " "x").
  vm_compute. right. left. reflexivity.
Defined.

(** Without a quote the scanner never enters a string. *)
Definition quote_free (l : list ascii) : Prop :=
  Forall (fun c => is_quote c = false) l.

Definition non_empty (p : string) : bool := negb (Str.is_empty p).

Lemma trim_of_chars l :
  Str.trim (Str.of_chars l) = Str.of_chars (Str.trim_chars l).
Proof. unfold Str.trim. rewrite chars_of_chars. reflexivity. Qed.

Lemma push_part_filter cur parts :
  push_part cur parts
  = parts ++ filter non_empty [Str.trim (Str.of_chars (rev cur))].
Proof.
  unfold push_part, non_empty. simpl. rewrite trim_of_chars.
  destruct (Str.is_empty _); simpl; [rewrite app_nil_r|]; reflexivity.
Qed.

Lemma fold_split_step_quote_free l :
  quote_free l ->
  forall parts cur sc prev,
    let s := fold_left split_step l (mkSplit parts cur false sc prev) in
    push_part (sp_current s) (sp_parts s)
    = parts ++ filter non_empty (map Str.trim (Str.split_chars "," cur l)).
Proof.
  induction 1 as [|c l Hc Hl IH]; intros parts cur sc prev; simpl.
  - apply push_part_filter.
  - assert (Hstep : split_step (mkSplit parts cur false sc prev) c
                    = if Ascii.eqb c ","
                      then mkSplit (push_part cur parts) [] false sc (Some c)
                      else mkSplit parts (c :: cur) false sc (Some c)).
    { unfold split_step. simpl. rewrite Hc. simpl. rewrite andb_true_r.
      reflexivity. }
    rewrite Hstep. destruct (Ascii.eqb c ",").
    + rewrite IH, push_part_filter, <- app_assoc, <- filter_app.
      reflexivity.
    + apply IH.
Qed.

(** X6.  On an expression without quote characters [splitByComma] is the
    split at every comma, followed by trimming each piece and dropping the
    pieces that are empty. *)
Theorem splitByComma_without_quotes :
  forall expr,
    Forall (fun c => is_quote c = false) (Str.chars expr) ->
    splitByComma expr
    = filter (fun p => negb (Str.is_empty p))
             (map Str.trim (Str.split "," expr)).
Proof.
  intros expr H. unfold splitByComma, Str.split.
  exact (fold_split_step_quote_free _ H [] [] "000"%char None).
Qed.

Lemma splitByComma_without_quotes_witness :
  splitByComma "a, b+1,,c " = ["a"; "b+1"; "c"]
  /\ splitByComma "a, b+1,,c "
     = filter (fun p => negb (Str.is_empty p))
              (map Str.trim (Str.split "," "a, b+1,,c ")).
Proof.
  split; [vm_compute; reflexivity|].
  apply (splitByComma_without_quotes "a, b+1,,c ").
  vm_compute. repeat constructor.
Defined.

(** ** Quoted literals *)

Lemma chars_app a b : Str.chars (a ++ b) = Str.chars a ++ Str.chars b.
Proof.
  induction a as [|c a IH]; simpl; [reflexivity|].
  unfold Str.chars in *. simpl. rewrite IH. reflexivity.
Qed.

Lemma of_chars_app a b :
  Str.of_chars (a ++ b) = (Str.of_chars a ++ Str.of_chars b)%string.
Proof.
  induction a as [|c a IH]; simpl; [reflexivity|].
  unfold Str.of_chars in *. simpl. rewrite IH. reflexivity.
Qed.

(** A character that is no comma is appended to the part being read. *)
Lemma split_step_appends s c :
  Ascii.eqb c "," = false ->
  sp_parts (split_step s c) = sp_parts s
  /\ sp_current (split_step s c) = c :: sp_current s.
Proof.
  intros Hc. unfold split_step. rewrite Hc. simpl.
  repeat match goal with
         | |- context [if ?b then _ else _] => destruct b
         end; split; reflexivity.
Qed.

(** Inside a string every character but the closing quote is appended. *)
Lemma split_step_inside parts cur q prev c :
  c <> q ->
  split_step (mkSplit parts cur true q prev) c
  = mkSplit parts (c :: cur) true q (Some c).
Proof.
  intros Hne. unfold split_step. simpl.
  assert (Ascii.eqb c q = false) as -> by (apply Ascii.eqb_neq; exact Hne).
  rewrite andb_false_r.
  destruct (is_quote c && _); reflexivity.
Qed.

Definition last_seen (l : list ascii) (prev : option ascii) : option ascii :=
  match rev l with
  | c :: _ => Some c
  | [] => prev
  end.

Lemma last_seen_cons c l prev : last_seen (c :: l) prev = last_seen l (Some c).
Proof.
  unfold last_seen. simpl. destruct (rev l); reflexivity.
Qed.

Lemma fold_inside_string text :
  forall parts cur q prev,
    ~ In q text ->
    fold_left split_step text (mkSplit parts cur true q prev)
    = mkSplit parts (rev text ++ cur) true q (last_seen text prev).
Proof.
  induction text as [|c text IH]; intros parts cur q prev Hq; [reflexivity|].
  simpl fold_left. rewrite split_step_inside.
  - rewrite IH, last_seen_cons.
    + simpl. rewrite <- app_assoc. reflexivity.
    + intros Hin. apply Hq. right. exact Hin.
  - intros ->. apply Hq. left. reflexivity.
Qed.

Definition is_quote_char (q : ascii) : Prop := q = Chars.dquote \/ q = "'"%char.

Lemma quote_char_facts q :
  is_quote_char q ->
  is_quote q = true /\ Chars.is_space q = false /\ Ascii.eqb q "," = false.
Proof. intros [-> | ->]; repeat split. Qed.

(** The text of a literal: the quote, the content, the quote. *)
Definition literal (q : ascii) (text : list ascii) : list ascii :=
  q :: text ++ [q].

Lemma literal_trimmed q text : is_quote_char q -> trimmed (literal q text).
Proof.
  intros Hq. destruct (quote_char_facts q Hq) as (_ & Hsp & _).
  unfold literal. split.
  - intros c r [= <- _]. exact Hsp.
  - intros c r. simpl. rewrite rev_app_distr. simpl. intros [= <- _]. exact Hsp.
Qed.

Lemma prefix_empty s : String.prefix "" s = true.
Proof. destruct s; reflexivity. Qed.

Lemma is_quoted_literal_literal q text :
  is_quote_char q -> is_quoted_literal (Str.of_chars (literal q text)) = true.
Proof.
  intros Hq. unfold is_quoted_literal, Str.startsWith, Str.endsWith, literal.
  rewrite chars_of_chars. simpl rev. rewrite rev_app_distr. simpl.
  destruct Hq as [-> | ->]; simpl; rewrite !prefix_empty; reflexivity.
Qed.

Lemma slice_literal q text :
  Str.slice_1_m1 (Str.of_chars (literal q text)) = Str.of_chars text.
Proof.
  unfold Str.slice_1_m1, literal. rewrite chars_of_chars.
  rewrite removelast_last. reflexivity.
Qed.

Lemma includes_from_head l p : String.prefix p (Str.of_chars l) = true ->
  Str.includes_from l p = true.
Proof. intros H. destruct l; simpl in *; rewrite H; reflexivity. Qed.

Lemma has_quote_literal q text rest :
  is_quote_char q ->
  has_quote (Str.of_chars (literal q text ++ rest)) = true.
Proof.
  intros Hq. unfold has_quote, Str.includes. rewrite chars_of_chars.
  destruct Hq as [-> | ->].
  - rewrite includes_from_head; [reflexivity|].
    unfold literal. simpl. apply prefix_empty.
  - rewrite (includes_from_head _ "'"); [apply orb_true_r|].
    unfold literal. simpl. apply prefix_empty.
Qed.

Lemma splitByComma_literal q text :
  is_quote_char q -> ~ In q text ->
  splitByComma (Str.of_chars (literal q text)) = [Str.of_chars (literal q text)].
Proof.
  intros Hq Hin. destruct (quote_char_facts q Hq) as (Hisq & Hsp & Hcomma).
  unfold splitByComma. rewrite chars_of_chars. unfold literal.
  simpl fold_left.
  assert (Hopen : split_step (mkSplit [] [] false "000"%char None) q
                  = mkSplit [] [q] true q (Some q)).
  { unfold split_step. simpl. rewrite Hisq. reflexivity. }
  rewrite Hopen, fold_left_app, fold_inside_string by exact Hin.
  simpl fold_left.
  destruct (split_step_appends
              (mkSplit [] (rev text ++ [q]) true q (last_seen text (Some q)))
              q Hcomma) as [Hparts Hcur].
  rewrite Hparts, Hcur. simpl sp_parts. simpl sp_current.
  unfold push_part.
  assert (Hrev : rev (q :: rev text ++ [q]) = literal q text).
  { simpl. rewrite rev_app_distr, rev_involutive. reflexivity. }
  rewrite Hrev, (trim_chars_fixed _ (literal_trimmed q text Hq)).
  reflexivity.
Qed.

Lemma trim_literal q text :
  is_quote_char q ->
  Str.trim (Str.of_chars (literal q text)) = Str.of_chars (literal q text).
Proof.
  intros Hq. rewrite trim_of_chars, trim_chars_fixed; [reflexivity|].
  apply literal_trimmed. exact Hq.
Qed.

(** X7.  An expression that is one quoted literal, in double or in single
    quotes, evaluates to the text between the quotes, character for
    character: commas, blanks, backslashes and quotes of the other kind
    inside it are kept, no variable is substituted, and the state is left
    as it is.  The content must not contain the quote that delimits it. *)
Theorem quoted_literal_is_kept_verbatim :
  forall js_eval q text st,
    q = Chars.dquote \/ q = "'"%char ->
    ~ In q (Str.chars text) ->
    evaluateExpression js_eval (String q (text ++ String q "")) st
    = (JStr text, st).
Proof.
  intros js_eval q text st Hq Hin.
  assert (Hexpr : String q (text ++ String q "")
                  = Str.of_chars (literal q (Str.chars text))).
  { unfold literal. change (q :: Str.chars text ++ [q])
      with ([q] ++ Str.chars text ++ [q]).
    rewrite !of_chars_app, of_chars_chars. reflexivity. }
  rewrite Hexpr. unfold evaluateExpression.
  pose proof (has_quote_literal q (Str.chars text) [] Hq) as Hhas.
  rewrite app_nil_r in Hhas. unfold has_quote in Hhas. rewrite Hhas.
  rewrite (splitByComma_literal q _ Hq Hin). cbn [evaluate_parts app].
  unfold evaluate_part.
  rewrite (trim_literal q _ Hq), (is_quoted_literal_literal q _ Hq).
  rewrite slice_literal, of_chars_chars. reflexivity.
Qed.

Lemma quoted_literal_is_kept_verbatim_witness :
  evaluateExpression Fragment.js_eval
    (String Chars.dquote ("x, 'y' \ " ++ String Chars.dquote ""))
    (mkInterp [("x", mkVar "x" "entero" (JNum (Num.of_N 7)))]
              [] [] [] 0 None false false 0 [] [])
  = (JStr "x, 'y' \ ",
     mkInterp [("x", mkVar "x" "entero" (JNum (Num.of_N 7)))]
              [] [] [] 0 None false false 0 [] []).
Proof.
  apply (quoted_literal_is_kept_verbatim Fragment.js_eval Chars.dquote).
  - left. reflexivity.
  - vm_compute. intuition discriminate.
Defined.

(** ** Written concatenations *)








(** An operand as it is written: a literal in double quotes or a name. *)
Inductive operand : Type :=
| Literal (text : list ascii)
| Name (nm : list ascii).

Record written : Type := mkWritten {
  w_before : list ascii;        (* blanks *)
  w_operand : operand;
  w_after : list ascii          (* blanks *)
}.

Definition source (o : operand) : list ascii :=
  match o with
  | Literal text => literal Chars.dquote text
  | Name nm => nm
  end.

Definition segment (w : written) : list ascii :=
  w_before w ++ source (w_operand w) ++ w_after w.

(** The operands, separated by commas. *)
Fixpoint expression (ws : list written) : list ascii :=
  match ws with
  | [] => []
  | [w] => segment w
  | w :: rest => segment w ++ ","%char :: expression rest
  end.










Lemma drop_while_blanks a rest :
  forallb Chars.is_space a = true ->
  Str.drop_while Chars.is_space (a ++ rest) = Str.drop_while Chars.is_space rest.
Proof.
  induction a as [|c a IH]; simpl; [reflexivity|].
  intros H. apply andb_prop in H. destruct H as [Hc Ha].
  rewrite Hc. apply IH. exact Ha.
Qed.

Lemma drop_while_all_blank a :
  forallb Chars.is_space a = true -> Str.drop_while Chars.is_space a = [].
Proof.
  intros H. rewrite <- (app_nil_r a), drop_while_blanks by exact H.
  reflexivity.
Qed.

Lemma forallb_rev (A : Type) (p : A -> bool) l :
  forallb p l = true -> forallb p (rev l) = true.
Proof.
  intros H. rewrite forallb_forall in *. intros x Hx.
  apply H, in_rev. exact Hx.
Qed.

Lemma trim_chars_padded a core b :
  forallb Chars.is_space a = true ->
  forallb Chars.is_space b = true ->
  trimmed core ->
  Str.trim_chars (a ++ core ++ b) = core.
Proof.
  intros Ha Hb [Hfirst Hlast]. unfold Str.trim_chars.
  rewrite drop_while_blanks by exact Ha.
  destruct core as [|c core].
  - simpl. rewrite (drop_while_all_blank b Hb). reflexivity.
  - simpl Str.drop_while at 2. rewrite (Hfirst c core eq_refl).
    change (c :: core ++ b) with ((c :: core) ++ b).
    rewrite rev_app_distr, drop_while_blanks by (apply forallb_rev; exact Hb).
    rewrite (drop_while_fixed _ _ Hlast). apply rev_involutive.
Qed.















(** ** Declarations with a known type *)

(** The default value of a type word, by its lower-case form. *)
Definition default_of (ty : string) : jsval :=
  if String.eqb ty "entero" || String.eqb ty "real" then JNum Num.zero
  else if String.eqb ty "caracter" || String.eqb ty "cadena" then JStr ""
  else if String.eqb ty "logico" then JBool false
  else JNull.

(** X9.  A declaration [definir x como t] registers [x], under its
    lower-cased name, with the type word in lower case and the default
    value of the type, whatever the letter case of the type word: 0 for
    entero and real, the empty string for caracter and cadena, false for
    logico.  A variable already declared under that key is replaced (its
    value is reset); every other variable is left as it is; one process
    node is added and nothing is written or reported.  A line that starts
    with [definir] but does not have the form of a declaration is skipped
    without any effect. *)
Theorem definir_registers_the_default :
  forall js_eval fuel lines index st l,
    nth_error lines index = Some l ->
    Str.startsWith (Str.toLowerCase l) "definir" = true ->
    (forall f,
        Re.exec true Pat.definir l = Some f ->
        let x := group_or_empty f 1 in
        let t := Str.toLowerCase (group_or_empty f 2) in
        exists st',
          executeLine js_eval (S fuel) lines index st = Ret (index + 1) st'
          /\ lookup (Str.toLowerCase x) (variables st')
             = Some (mkVar x t (default_of t))
          /\ (t = "entero" \/ t = "real" -> default_of t = JNum Num.zero)
          /\ (t = "caracter" \/ t = "cadena" -> default_of t = JStr "")
          /\ (t = "logico" -> default_of t = JBool false)
          /\ (forall key, key <> Str.toLowerCase x ->
                          lookup key (variables st') = lookup key (variables st))
          /\ output st' = output st
          /\ errors st' = errors st
          /\ hasError st' = hasError st
          /\ flowchart st'
             = flowchart st
                 ++ [mkNode ("node_" ++ nat_to_string (nodeCounter st)) process
                            ("Definir " ++ x ++ " como " ++ group_or_empty f 2)
                            []])
    /\ (Re.exec true Pat.definir l = None ->
        executeLine js_eval (S fuel) lines index st
        = Ret (index + 1) (log_dispatch index st)).
Proof.
  intros js_eval fuel lines index st l Hl Hkw.
  rewrite executeLine_unfold, Hl, dispatch_definir by exact Hkw.
  unfold exec_definir. split.
  - intros f Hre. cbv zeta. rewrite Hre. unfold bind, modify, ret.
    eexists. split; [reflexivity|].
    autorewrite with fields.
    split; [apply lookup_map_set_same|].
    split; [intros [-> | ->]; reflexivity|].
    split; [intros [-> | ->]; reflexivity|].
    split; [intros ->; reflexivity|].
    split; [intros key Hne; simpl; apply lookup_map_set_other; congruence|].
    unfold notifyVariableChange.
    destruct (variableChangeCallback _); repeat split; reflexivity.
  - intros Hre. rewrite Hre. reflexivity.
Qed.

Lemma definir_registers_the_default_witness :
  let st := mkInterp [("a", mkVar "a" "entero" (JNum (Num.of_N 5)));
                      ("b", mkVar "b" "cadena" (JStr "x"))]
                     [] [] [] 0 None false false 0 [] [] in
  exists f,
    Re.exec true Pat.definir "DEFINIR A COMO LOGICO" = Some f
    /\ group_or_empty f 1 = "A"
    /\ Str.toLowerCase (group_or_empty f 2) = "logico"
    /\ exists st',
         executeLine Fragment.js_eval 1 ["DEFINIR A COMO LOGICO"] 0 st
         = Ret 1%nat st'
         /\ lookup "a" (variables st') = Some (mkVar "A" "logico" (JBool false))
         /\ lookup "b" (variables st') = Some (mkVar "b" "cadena" (JStr "x")).
Proof.
  intros st.
  destruct (Re.exec true Pat.definir "DEFINIR A COMO LOGICO") as [f|] eqn:Hre;
    [|vm_compute in Hre; discriminate].
  exists f. split; [reflexivity|].
  assert (Hf : Some f = Re.exec true Pat.definir "DEFINIR A COMO LOGICO")
    by (symmetry; exact Hre).
  vm_compute in Hf. injection Hf as Hf.
  assert (H1 : group_or_empty f 1 = "A") by (rewrite Hf; reflexivity).
  assert (H2 : Str.toLowerCase (group_or_empty f 2) = "logico")
    by (rewrite Hf; reflexivity).
  split; [exact H1|]. split; [exact H2|].
  destruct (proj1 (definir_registers_the_default Fragment.js_eval 0
                     ["DEFINIR A COMO LOGICO"] 0 st "DEFINIR A COMO LOGICO"
                     eq_refl eq_refl) f Hre)
    as (st' & Hrun & Hx & _ & _ & Hlog & Hother & _).
  exists st'. split; [exact Hrun|].
  rewrite H1, H2 in Hx. rewrite H1 in Hother.
  assert (Hlow : Str.toLowerCase "A" = "a") by reflexivity.
  rewrite Hlow in Hx, Hother.
  split.
  - rewrite Hx. reflexivity.
  - rewrite Hother by discriminate. reflexivity.
Defined.

(** ** Array elements *)

Lemma array_set_length l : forall i v,
  List.length (Val.array_set l i v) = Nat.max (List.length l) (S i).
Proof.
  induction l as [|x l IH]; intros i v.
  - induction i as [|i IHi]; simpl; [reflexivity|].
    simpl in IHi. rewrite IHi. reflexivity.
  - destruct i as [|i]; simpl; [|rewrite IH; reflexivity].
    destruct (List.length l); reflexivity.
Qed.

Lemma array_set_same l : forall i v,
  nth_error (Val.array_set l i v) i = Some v.
Proof.
  induction l as [|x l IH]; intros i v.
  - induction i as [|i IHi]; simpl; [reflexivity|exact IHi].
  - destruct i as [|i]; simpl; [reflexivity|apply IH].
Qed.

Lemma array_set_other l : forall i j v,
  j <> i -> (j < List.length l)%nat ->
  nth_error (Val.array_set l i v) j = nth_error l j.
Proof.
  induction l as [|x l IH]; intros i j v Hne Hj; simpl in Hj; [lia|].
  destruct i as [|i], j as [|j]; simpl; try reflexivity; try lia.
  apply IH; lia.
Qed.

Lemma array_set_hole l : forall i j v,
  (List.length l <= j)%nat -> (j < i)%nat ->
  nth_error (Val.array_set l i v) j = Some JUndefined.
Proof.
  induction l as [|x l IH]; intros i j v Hlo Hhi.
  - revert j Hlo Hhi. induction i as [|i IHi]; intros j Hlo Hhi; [lia|].
    destruct j as [|j]; simpl; [reflexivity|]. apply IHi; simpl; lia.
  - destruct i as [|i]; [lia|]. destruct j as [|j]; simpl in *; [lia|].
    apply IH; lia.
Qed.

(** X13.  An assignment to an array element, [a[i] <- e], with [a] bound to
    an array: the index and the value are evaluated, and when the index
    evaluates to a number that is an array index, the element at that index
    is replaced.  There is no bounds check: inside the array the length is
    kept and only that element changes; at or past the end the array grows
    to the index plus one and the positions skipped are left undefined.
    When the index is no array index (a negative or fractional number, NaN,
    a text that is no number) the elements stay as they are.  In no case is
    an error recorded for the index. *)
Theorem array_element_store_has_no_bounds_check :
  forall js_eval fuel lines index st l f am arr elems idx v st1 st2,
    nth_error lines index = Some l ->
    reaches_assignment l = true ->
    Re.exec true Pat.assignment l = Some f ->
    Re.exec false Pat.array_target (group_or_empty f 1) = Some am ->
    lookup (Str.toLowerCase (group_or_empty am 1)) (variables st) = Some arr ->
    value arr = JArr elems ->
    evaluateExpression js_eval (group_or_empty am 2) (log_dispatch index st)
    = (idx, st1) ->
    evaluateExpression js_eval (group_or_empty f 2) st1 = (v, st2) ->
    exists st',
      executeLine js_eval (S fuel) lines index st = Ret (index + 1) st'
      /\ errors st' = errors st2
      /\ match Val.array_index (Val.to_number idx) with
         | Some i =>
             exists elems',
               lookup (Str.toLowerCase (group_or_empty am 1)) (variables st')
               = Some (mkVar (name arr) (type arr) (JArr elems'))
               /\ nth_error elems' i = Some v
               /\ List.length elems' = Nat.max (List.length elems) (S i)
               /\ (forall j, j <> i -> (j < List.length elems)%nat ->
                             nth_error elems' j = nth_error elems j)
               /\ (forall j, (List.length elems <= j)%nat -> (j < i)%nat ->
                             nth_error elems' j = Some JUndefined)
         | None =>
             lookup (Str.toLowerCase (group_or_empty am 1)) (variables st')
             = Some arr
         end.
Proof.
  intros js_eval fuel lines index st l f am arr elems idx v st1 st2
         Hl Hreach Hre Ham Harr Helems Hidx Hv.
  rewrite executeLine_unfold, Hl, dispatch_assignment by exact Hreach.
  unfold exec_assignment. rewrite Hre, Ham.
  unfold bind at 1. unfold gets. rewrite variables_log, Harr.
  unfold bind at 1. unfold eval_expr at 1. rewrite Hidx.
  unfold bind at 1. unfold eval_expr at 1. rewrite Hv.
  rewrite Helems. unfold bind, modify, ret.
  eexists. split; [reflexivity|].
  assert (Hvars : variables st2 = variables st).
  { pose proof (evaluate_parts_effect js_eval) as Heff.
    assert (Hkeep : forall e s, variables (snd (evaluateExpression js_eval e s))
                                = variables s).
    { intros e s. unfold evaluateExpression. destruct (_ || _); [|reflexivity].
      destruct (Heff (splitByComma e) [] s) as ((Hsame & _) & _).
      destruct (evaluate_parts js_eval (splitByComma e) [] s). exact Hsame. }
    pose proof (Hkeep (group_or_empty f 2) st1) as H2. rewrite Hv in H2.
    pose proof (Hkeep (group_or_empty am 2) (log_dispatch index st)) as H1.
    rewrite Hidx in H1. simpl in H1, H2. congruence. }
  split.
  { unfold store_element, addFlowchartNode. cbn [errors].
    rewrite errors_notify.
    destruct (Val.array_index (Val.to_number idx)); reflexivity. }
  autorewrite with fields. unfold store_element.
  destruct (Val.array_index (Val.to_number idx)) as [i|].
  - exists (Val.array_set elems i v). autorewrite with fields. rewrite Hvars.
    split; [apply lookup_set_value_same; exact Harr|].
    split; [apply array_set_same|].
    split; [apply array_set_length|].
    split; [intros j Hne Hj; apply array_set_other; assumption|].
    intros j Hlo Hhi. apply array_set_hole; assumption.
  - rewrite Hvars. exact Harr.
Qed.

(** A store two positions past the end of an array of two zeros. *)
Lemma array_element_store_has_no_bounds_check_witness :
  let st := mkInterp [("datos", mkVar "Datos" "arreglo"
                                      (JArr [JNum Num.zero; JNum Num.zero]))]
                     [] [] [] 0 None false false 0 [] [] in
  exists st',
    executeLine Fragment.js_eval 1 ["datos[4] <- 9"] 0 st = Ret 1%nat st'
    /\ lookup "datos" (variables st')
       = Some (mkVar "Datos" "arreglo"
                     (JArr [JNum Num.zero; JNum Num.zero; JUndefined; JUndefined;
                            JNum (Num.of_N 9)]))
    /\ errors st' = [].
Proof.
  intros st.
  destruct (Re.exec true Pat.assignment "datos[4] <- 9") as [f|] eqn:Hre;
    [|vm_compute in Hre; discriminate].
  assert (Hf : Some f = Re.exec true Pat.assignment "datos[4] <- 9")
    by (symmetry; exact Hre).
  vm_compute in Hf. injection Hf as Hf.
  destruct (Re.exec false Pat.array_target (group_or_empty f 1)) as [am|] eqn:Ham;
    [|rewrite Hf in Ham; vm_compute in Ham; discriminate].
  assert (Ha : Some am = Re.exec false Pat.array_target (group_or_empty f 1))
    by (symmetry; exact Ham).
  rewrite Hf in Ha. vm_compute in Ha. injection Ha as Ha.
  destruct (array_element_store_has_no_bounds_check
              Fragment.js_eval 0 ["datos[4] <- 9"] 0 st "datos[4] <- 9" f am
              (mkVar "Datos" "arreglo" (JArr [JNum Num.zero; JNum Num.zero]))
              [JNum Num.zero; JNum Num.zero]
              (JNum (Num.of_N 4)) (JNum (Num.of_N 9))
              (log_dispatch 0 st) (log_dispatch 0 st))
    as (st' & Hrun & Herr & Hstore).
  - reflexivity.
  - vm_compute; reflexivity.
  - exact Hre.
  - exact Ham.
  - rewrite Ha. reflexivity.
  - reflexivity.
  - rewrite Ha. vm_compute; reflexivity.
  - rewrite Hf. vm_compute; reflexivity.
  - exists st'. split; [exact Hrun|].
    assert (Hst : Ret 1%nat st'
                  = executeLine Fragment.js_eval 1 ["datos[4] <- 9"] 0 st)
      by (symmetry; exact Hrun).
    vm_compute in Hst. injection Hst as Hst.
    split; subst st'; reflexivity.
Defined.

(** ** Lines that are no statement *)

(** The block closers and markers as they read in lower case. *)
Definition markers : list string :=
  ["finsi"; "sino"; "finmientras"; "finpara"; "finsegun"; "de otro modo:";
   "finalgoritmo"; "finproceso"].

(** X15.  A block closer or marker that is dispatched as a statement
    ([FinSi], [SiNo], [FinMientras], [FinPara], [FinSegun],
    [De Otro Modo:], [FinAlgoritmo], [FinProceso], in any letter case) is
    skipped: the call returns the next index and changes nothing but the
    ghost log.  So a closer without its opening statement is not reported. *)
Theorem block_markers_are_skipped :
  forall js_eval fuel lines index st l,
    nth_error lines index = Some l ->
    In (Str.toLowerCase l) markers ->
    executeLine js_eval (S fuel) lines index st
    = Ret (index + 1) (log_dispatch index st).
Proof.
  intros js_eval fuel lines index st l Hl Hin.
  rewrite executeLine_unfold, Hl. unfold dispatch. cbv zeta.
  unfold markers in Hin. simpl in Hin.
  repeat (destruct Hin as [Hin|Hin]; [rewrite <- Hin; reflexivity|]).
  contradiction.
Qed.

Lemma block_markers_are_skipped_witness :
  execute Fragment.js_eval 5 (unlines ["FinSi"; "SINO"; "finpara;"])
          (new_interpreter None false)
  = Some (finish (log_dispatch 2
                    (log_dispatch 1
                       (log_dispatch 0
                          (addFlowchartNode start "Inicio"
                             (new_interpreter None false))))))
  /\ executeLine Fragment.js_eval 1 ["FinSi"; "SINO"; "finpara"] 1
                 (new_interpreter None false)
     = Ret 2%nat (log_dispatch 1 (new_interpreter None false)).
Proof.
  split; [vm_compute; reflexivity|].
  apply (block_markers_are_skipped Fragment.js_eval 0
           ["FinSi"; "SINO"; "finpara"] 1 (new_interpreter None false) "SINO").
  - reflexivity.
  - vm_compute. tauto.
Defined.

(** ** The empty program *)

Definition blank_line (l : string) : Prop := Str.trim l = "".

Lemma preprocess_blank code :
  Forall blank_line (Str.split (ascii_of_nat 10) code) -> preprocess code = [].
Proof.
  unfold preprocess. generalize (Str.split (ascii_of_nat 10) code).
  induction 1 as [|l ls Hl Hls IH]; [reflexivity|].
  simpl. rewrite Hl. exact IH.
Qed.

(** X16.  A program in which no statement line is left after the
    preprocessing (it holds only blank lines and comment lines; in
    particular the empty text and any text of blank lines) runs to its end
    with any fuel: nothing is written, no error is recorded, no variable is
    declared, and the flowchart is the start node linked to the end node. *)
Theorem program_without_statements :
  forall js_eval fuel code st0,
    (Forall blank_line (Str.split (ascii_of_nat 10) code) -> preprocess code = [])
    /\ (preprocess code = [] ->
        exists st,
          execute js_eval fuel code st0 = Some st
          /\ output st = [] /\ errors st = [] /\ variables st = []
          /\ hasError st = false /\ dispatched st = []
          /\ flowchart st = [mkNode "node_0" start "Inicio" ["node_1"];
                             mkNode "node_1" end_ "Fin" []]).
Proof.
  intros js_eval fuel code st0. split; [apply preprocess_blank|].
  intros Hp. unfold execute. rewrite Hp.
  destruct fuel; simpl; eexists; repeat split.
Qed.

Lemma program_without_statements_witness :
  preprocess (unlines ["// suma de dos numeros"; "   "; ""; "//;"]) = []
  /\ exists st,
       execute Fragment.js_eval 0
               (unlines ["// suma de dos numeros"; "   "; ""; "//;"])
               (new_interpreter None false) = Some st
       /\ output st = []
       /\ map kind (flowchart st) = [start; end_].
Proof.
  assert (Hp : preprocess (unlines ["// suma de dos numeros"; "   "; ""; "//;"])
               = []) by (vm_compute; reflexivity).
  split; [exact Hp|].
  destruct (proj2 (program_without_statements Fragment.js_eval 0 _
                     (new_interpreter None false)) Hp)
    as (st & Hrun & Hout & _ & _ & _ & _ & Hflow).
  exists st. split; [exact Hrun|]. split; [exact Hout|].
  rewrite Hflow. reflexivity.
Defined.

(** ** Loop blocks and their nesting *)

Section Blocks.

(** The two keywords of a loop: mientras and finmientras, para and
    finpara. *)
Variables opener closer : string.







End Blocks.







(** ** Conditionals *)

















(** ** The answer to a logical input *)

(** [/^\s*verdadero\s*$/i] accepts the texts that spell the word, in any
    letter case, with white space around it. *)

Definition ci_match (a c : ascii) : bool := Re.cset_matches true [Re.IChar a] c.

Definition word_letters : list ascii :=
  ["v"; "e"; "r"; "d"; "a"; "o"]%char.

Lemma ci_match_letter a :
  In a word_letters ->
  forall c, ci_match a c = Ascii.eqb (Chars.to_lower c) a.
Proof.
  intros Hin c. unfold word_letters in Hin. simpl in Hin.
  repeat (destruct Hin as [<-|Hin];
          [destruct c as [[] [] [] [] [] [] [] []]; vm_compute; reflexivity|]).
  contradiction.
Qed.

Lemma space_matches c : Re.cset_matches true [Re.ISpace] c = Chars.is_space c.
Proof. destruct c as [[] [] [] [] [] [] [] []]; vm_compute; reflexivity. Qed.

Lemma space_is_no_letter a :
  In a word_letters ->
  forall c, Chars.is_space c = true -> Ascii.eqb (Chars.to_lower c) a = false.
Proof.
  intros Hin c. unfold word_letters in Hin. simpl in Hin.
  repeat (destruct Hin as [<-|Hin];
          [destruct c as [[] [] [] [] [] [] [] []]; vm_compute; intros H;
           first [reflexivity|discriminate H]|]).
  contradiction.
Qed.

(** The case-insensitive removal of a word from the front of a text. *)
Fixpoint ci_strip (w l : list ascii) : option (list ascii * list ascii) :=
  match w with
  | [] => Some ([], l)
  | a :: w' =>
      match l with
      | c :: r =>
          if ci_match a c then
            match ci_strip w' r with
            | Some (m, rest) => Some (c :: m, rest)
            | None => None
            end
          else None
      | [] => None
      end
  end.

Lemma ci_strip_cons a w c r :
  ci_strip (a :: w) (c :: r)
  = if ci_match a c then
      match ci_strip w r with
      | Some (m, rest) => Some (c :: m, rest)
      | None => None
      end
    else None.
Proof. reflexivity. Qed.

Section Engine.

Variable R : Type.

Lemma m_lit_chars w :
  w <> [] ->
  forall (k : Re.cont R) bef aft cp,
    Re.m true (Re.lit_chars w) k (Re.Cursor bef aft) cp
    = match ci_strip w aft with
      | Some (m, rest) => k (Re.Cursor (rev m ++ bef) rest) cp
      | None => None
      end.
Proof.
  induction w as [|a w IH]; intros Hne k bef aft cp; [contradiction|].
  destruct w as [|b w].
  - cbn [Re.lit_chars Re.m Re.after Re.before].
    destruct aft as [|c r]; [reflexivity|].
    rewrite ci_strip_cons.
    change (Re.cset_matches true [Re.IChar a] c) with (ci_match a c).
    destruct (ci_match a c); reflexivity.
  - change (Re.lit_chars (a :: b :: w))
      with (Re.Seq (Re.Chr [Re.IChar a]) (Re.lit_chars (b :: w))).
    cbn [Re.m Re.after Re.before]. destruct aft as [|c r]; [reflexivity|].
    rewrite ci_strip_cons.
    change (Re.cset_matches true [Re.IChar a] c) with (ci_match a c).
    destruct (ci_match a c); [|reflexivity].
    rewrite IH by discriminate.
    destruct (ci_strip (b :: w) r) as [[m rest]|]; [|reflexivity].
    simpl. rewrite <- app_assoc. reflexivity.
Qed.

(** White space before something that cannot start with white space is
    consumed whole. *)
Lemma rep_greedy_blanks (k : Re.cont R) sp :
  forallb Chars.is_space sp = true ->
  forall rest n bef cp,
    (forall c r, rest = c :: r -> Chars.is_space c = false) ->
    (forall b c r cp', Chars.is_space c = true ->
                       k (Re.Cursor b (c :: r)) cp' = None) ->
    Re.rep_greedy true [Re.ISpace] 0 k n bef (sp ++ rest) cp
    = k (Re.Cursor (rev sp ++ bef) rest) cp.
Proof.
  induction sp as [|c sp IH]; intros Hsp rest n bef cp Hrest Hk.
  - simpl. destruct rest as [|c r]; [reflexivity|].
    cbn [Re.rep_greedy]. rewrite space_matches, (Hrest c r eq_refl).
    reflexivity.
  - simpl in Hsp. apply andb_prop in Hsp. destruct Hsp as [Hc Hsp].
    cbn [app Re.rep_greedy]. rewrite space_matches, Hc.
    rewrite (IH Hsp rest (S n) (c :: bef) cp Hrest Hk).
    simpl rev. rewrite <- app_assoc. simpl.
    destruct (k (Re.Cursor (rev sp ++ c :: bef) rest) cp); [reflexivity|].
    apply Hk. exact Hc.
Qed.

(** White space before the end of the text. *)
Lemma rep_greedy_to_the_end (k kf : Re.cont R) aft :
  (forall cur cp,
      k cur cp = match Re.after cur with
                 | [] => kf cur cp
                 | _ :: _ => None
                 end) ->
  forall n bef cp,
    Re.rep_greedy true [Re.ISpace] 0 k n bef aft cp
    = if forallb Chars.is_space aft
      then kf (Re.Cursor (rev aft ++ bef) []) cp
      else None.
Proof.
  intros Hk. induction aft as [|c r IH]; intros n bef cp.
  - cbn [Re.rep_greedy]. rewrite Hk. reflexivity.
  - cbn [Re.rep_greedy forallb]. rewrite space_matches, Hk.
    destruct (Chars.is_space c); [|reflexivity].
    rewrite IH. cbn [andb Re.after]. simpl rev. rewrite <- app_assoc. simpl.
    destruct (forallb Chars.is_space r); [|reflexivity].
    destruct (kf _ cp); reflexivity.
Qed.

End Engine.

Definition the_word : list ascii := Str.chars "verdadero".

Lemma ci_strip_sound w :
  Forall (fun a => In a word_letters) w ->
  forall l m rest,
    ci_strip w l = Some (m, rest) ->
    l = m ++ rest /\ map Chars.to_lower m = w.
Proof.
  induction 1 as [|a w Ha Hw IH]; intros l m rest H; simpl in H.
  - injection H as <- <-. split; reflexivity.
  - destruct l as [|c r]; [discriminate|].
    rewrite (ci_match_letter a Ha) in H.
    destruct (Ascii.eqb (Chars.to_lower c) a) eqn:E; [|discriminate].
    destruct (ci_strip w r) as [[m' rest']|] eqn:E'; [|discriminate].
    injection H as <- <-. destruct (IH r m' rest' E') as [-> Hm].
    apply Ascii.eqb_eq in E. split; [reflexivity|]. simpl. rewrite E, Hm.
    reflexivity.
Qed.

Lemma ci_strip_complete w :
  Forall (fun a => In a word_letters) w ->
  forall m rest,
    map Chars.to_lower m = w -> ci_strip w (m ++ rest) = Some (m, rest).
Proof.
  induction 1 as [|a w Ha Hw IH]; intros m rest Hm.
  - destruct m; [reflexivity|discriminate].
  - destruct m as [|c m]; [discriminate|]. simpl in Hm. injection Hm as Hc Hm.
    simpl. rewrite (ci_match_letter a Ha), Hc, Ascii.eqb_refl, (IH m rest Hm).
    reflexivity.
Qed.

Lemma the_word_letters : Forall (fun a => In a word_letters) the_word.
Proof.
  unfold the_word. simpl.
  repeat (apply Forall_cons; [simpl; tauto|]). apply Forall_nil.
Qed.

(** The accepted texts. *)
Definition spells_verdadero (l : list ascii) : Prop :=
  exists sp m sp2,
    l = sp ++ m ++ sp2
    /\ forallb Chars.is_space sp = true
    /\ forallb Chars.is_space sp2 = true
    /\ map Chars.to_lower m = the_word.

Lemma drop_while_dropped l :
  exists dropped,
    l = dropped ++ Str.drop_while Chars.is_space l
    /\ forallb Chars.is_space dropped = true.
Proof.
  induction l as [|a l (d & IH & Hd)]; [exists []; split; reflexivity|].
  simpl. destruct (Chars.is_space a) eqn:E.
  - exists (a :: d). simpl. rewrite E, Hd, <- IH. split; reflexivity.
  - exists []. split; reflexivity.
Qed.

Lemma word_is_trimmed m : map Chars.to_lower m = the_word -> trimmed m.
Proof.
  intros Hm.
  assert (Hns : forall c a, In a word_letters -> Chars.to_lower c = a ->
                            Chars.is_space c = false).
  { intros c a Ha Hc. destruct (Chars.is_space c) eqn:E; [|reflexivity].
    pose proof (space_is_no_letter a Ha c E) as Hne.
    rewrite Hc, Ascii.eqb_refl in Hne. discriminate. }
  do 9 (destruct m as [|? m]; [discriminate|]).
  destruct m; [|discriminate].
  unfold the_word in Hm. simpl in Hm.
  injection Hm as H1 H2 H3 H4 H5 H6 H7 H8 H9.
  split.
  - intros c r [= <- _]. apply (Hns _ "v"%char); [simpl; tauto|exact H1].
  - intros c r. simpl. intros [= <- _].
    apply (Hns _ "o"%char); [simpl; tauto|exact H9].
Qed.

Lemma trim_spells l :
  Str.toLowerCase (Str.of_chars (Str.trim_chars l)) = "verdadero"
  <-> spells_verdadero l.
Proof.
  unfold Str.toLowerCase. rewrite chars_of_chars. split.
  - intros H.
    assert (Hm : map Chars.to_lower (Str.trim_chars l) = the_word).
    { rewrite <- (chars_of_chars (map _ _)), H. reflexivity. }
    destruct (drop_while_dropped l) as (sp & Hl & Hsp).
    destruct (drop_while_dropped (rev (Str.drop_while Chars.is_space l)))
      as (d & Hr & Hd).
    exists sp, (Str.trim_chars l), (rev d). unfold Str.trim_chars.
    split; [|split; [exact Hsp|split; [apply forallb_rev; exact Hd|exact Hm]]].
    rewrite <- rev_app_distr, <- Hr, rev_involutive. exact Hl.
  - intros (sp & m & sp2 & -> & Hsp & Hsp2 & Hm).
    rewrite (trim_chars_padded sp m sp2 Hsp Hsp2 (word_is_trimmed m Hm)), Hm.
    reflexivity.
Qed.

Lemma anchored_search r bef aft :
  bef <> [] -> Re.search true (Re.Seq Re.Bol r) bef aft = None.
Proof.
  revert bef. induction aft as [|c aft IH]; intros bef Hb;
    destruct bef as [|b bef]; try contradiction; simpl; [reflexivity|].
  apply IH. discriminate.
Qed.

Definition accepts (l : list ascii) : bool :=
  match ci_strip the_word (Str.drop_while Chars.is_space l) with
  | Some (_, rest) => forallb Chars.is_space rest
  | None => false
  end.

Lemma test_accepts l :
  Re.test true Pat.verdadero_input (Str.of_chars l) = accepts l.
Proof.
  unfold Re.test, Re.exec. rewrite chars_of_chars.
  assert (Hsearch : Re.search true Pat.verdadero_input [] l
                    = Re.match_at true Pat.verdadero_input (Re.Cursor [] l)).
  { destruct l as [|c l]; cbn [Re.search];
      destruct (Re.match_at true Pat.verdadero_input _); try reflexivity.
    apply anchored_search. discriminate. }
  assert (Hat : match Re.match_at true Pat.verdadero_input (Re.Cursor [] l) with
                | Some _ => true
                | None => false
                end = accepts l).
  { unfold Re.match_at, Pat.verdadero_input, Re.seq, Pat.sp0, accepts.
    cbn [Re.m Re.before Re.after].
    destruct (drop_while_dropped l) as (sp & Hl & Hsp).
    rewrite Hl at 1.
    rewrite rep_greedy_blanks.
    - change (Re.lit "verdadero") with (Re.lit_chars the_word).
      rewrite m_lit_chars by discriminate.
      destruct (ci_strip the_word (Str.drop_while Chars.is_space l))
        as [[m rest]|]; [|reflexivity].
      erewrite rep_greedy_to_the_end; [|intros cur cp; reflexivity].
      cbn [Re.after]. destruct (forallb Chars.is_space rest); reflexivity.
    - exact Hsp.
    - intros c r. apply drop_while_head.
    - intros b c r cp' Hc.
      change (Re.lit "verdadero") with (Re.lit_chars the_word).
      rewrite m_lit_chars by discriminate.
      unfold the_word. cbn [Str.chars list_ascii_of_string ci_strip].
      rewrite (ci_match_letter "v"%char) by (simpl; tauto).
      rewrite (space_is_no_letter "v"%char) by (simpl; tauto || exact Hc).
      reflexivity. }
  rewrite Hsearch. exact Hat.
Qed.

Lemma accepts_spells l : accepts l = true <-> spells_verdadero l.
Proof.
  unfold accepts. split.
  - destruct (drop_while_dropped l) as (sp & Hl & Hsp).
    destruct (ci_strip the_word (Str.drop_while Chars.is_space l))
      as [[m rest]|] eqn:E; [|discriminate].
    intros Hrest.
    destruct (ci_strip_sound the_word the_word_letters _ _ _ E) as [Hd Hm].
    exists sp, m, rest. rewrite <- Hd. auto.
  - intros (sp & m & sp2 & -> & Hsp & Hsp2 & Hm).
    rewrite drop_while_blanks by exact Hsp.
    destruct (word_is_trimmed m Hm) as [Hfirst _].
    rewrite drop_while_fixed.
    + rewrite (ci_strip_complete the_word the_word_letters m sp2 Hm). exact Hsp2.
    + intros c r E. destruct m as [|c' m]; [discriminate Hm|].
      injection E as <- _. apply (Hfirst c' m eq_refl).
Qed.

Lemma verdadero_input_test v :
  Re.test true Pat.verdadero_input v
  = String.eqb (Str.toLowerCase (Str.trim v)) "verdadero".
Proof.
  rewrite <- (of_chars_chars v) at 1. rewrite test_accepts.
  apply Bool.eq_iff_eq_true. rewrite accepts_spells, String.eqb_eq.
  unfold Str.trim. symmetry. apply trim_spells.
Qed.

(** ** What [Leer] stores *)

Lemma leer_stores js_eval fuel lines index st l f pre varName post var :
  nth_error lines index = Some l ->
  Str.startsWith (Str.toLowerCase l) "leer" = true ->
  Re.exec true Pat.leer l = Some f ->
  leer_names (group_or_empty f 1) = pre ++ varName :: post ->
  (forall v, In v (pre ++ varName :: post) ->
             lookup (Str.toLowerCase v) (variables st) <> None) ->
  ~ In (Str.toLowerCase varName) (map Str.toLowerCase post) ->
  lookup (Str.toLowerCase varName) (variables st) = Some var ->
  exists st',
    executeLine js_eval (S fuel) lines index st = Ret (index + 1) st'
    /\ lookup (Str.toLowerCase varName) (variables st')
       = Some (mkVar (name var) (type var)
                     (coerce_input (type var)
                        (answer_at st (List.length pre) (input_prompt varName)))).
Proof.
  intros Hl Hkw Hre Hnames Hdecl Hlast Hvar.
  rewrite executeLine_unfold, Hl, dispatch_leer by exact Hkw.
  unfold exec_leer. rewrite Hre, Hnames. unfold bind at 1.
  rewrite leer_vars_app.
  set (st0 := log_dispatch index st).
  destruct (leer_vars_declared pre st0) as (st1 & Hrun1 & Hd1 & _ & Hcb1 & Hans1).
  { intros v Hv. apply Hdecl. apply in_or_app. left. exact Hv. }
  rewrite Hrun1.
  assert (Hv1 : exists var1,
             lookup (Str.toLowerCase varName) (variables st1) = Some var1
             /\ name var1 = name var /\ type var1 = type var).
  { specialize (Hd1 (Str.toLowerCase varName)). unfold decl in Hd1.
    unfold st0 in Hd1. rewrite variables_log, Hvar in Hd1.
    destruct (lookup (Str.toLowerCase varName) (variables st1)) as [var1|];
      simpl in Hd1; [|discriminate].
    exists var1. injection Hd1 as Hn Ht. auto. }
  destruct Hv1 as (var1 & Hlk1 & Hn1 & Ht1).
  rewrite (leer_vars_cons_declared _ _ _ _ Hlk1).
  match goal with |- context [leer_vars post ?s] => set (st2 := s) end.
  assert (Hlk2 : lookup (Str.toLowerCase varName) (variables st2)
                 = Some (mkVar (name var) (type var)
                               (coerce_input (type var)
                                  (answer_at st (List.length pre)
                                             (input_prompt varName))))).
  { unfold st2. autorewrite with fields.
    rewrite (lookup_set_value_same _ _ _ var1), Hn1, Ht1;
      [|rewrite variables_read_input; exact Hlk1].
    rewrite fst_read_input, Hans1. unfold st0, answer_at, input_prompt.
    simpl. rewrite Nat.add_0_r. reflexivity. }
  destruct (leer_vars_declared post st2) as (st3 & Hrun3 & _ & Hother3 & _ & _).
  { intros v Hv.
    assert (Hdv : lookup (Str.toLowerCase v) (variables st) <> None).
    { apply Hdecl. apply in_or_app. right. right. exact Hv. }
    assert (Hsame : decl (Str.toLowerCase v) (variables st2)
                    = decl (Str.toLowerCase v) (variables st)).
    { unfold st2. autorewrite with fields.
      rewrite decl_set_value, variables_read_input, Hd1.
      unfold st0. rewrite variables_log. reflexivity. }
    unfold decl in Hsame.
    destruct (lookup (Str.toLowerCase v) (variables st2));
      destruct (lookup (Str.toLowerCase v) (variables st));
      simpl in Hsame; congruence. }
  rewrite Hrun3. unfold bind, modify, ret.
  eexists. split; [reflexivity|].
  rewrite variables_node, Hother3; auto.
Qed.

(** X14.  A [Leer] statement over declared names stores, for a name that is
    not read again later in the statement, a value decided by the declared
    type alone.  For the type logico it is a boolean: true exactly when the
    answer, with the white space around it removed and in lower case, is
    the word verdadero; any other answer (true, si, 1, the empty answer)
    stores false.  For a type that is neither entero, real nor logico
    (cadena, caracter, and also arreglo) it is the answer itself, as a
    string, unchanged. *)
Theorem leer_stores_by_declared_type :
  forall js_eval fuel lines index st l f pre varName post var,
    nth_error lines index = Some l ->
    Str.startsWith (Str.toLowerCase l) "leer" = true ->
    Re.exec true Pat.leer l = Some f ->
    leer_names (group_or_empty f 1) = pre ++ varName :: post ->
    (forall v, In v (pre ++ varName :: post) ->
               lookup (Str.toLowerCase v) (variables st) <> None) ->
    ~ In (Str.toLowerCase varName) (map Str.toLowerCase post) ->
    lookup (Str.toLowerCase varName) (variables st) = Some var ->
    let answer := answer_at st (List.length pre) (input_prompt varName) in
    exists st' stored,
      executeLine js_eval (S fuel) lines index st = Ret (index + 1) st'
      /\ lookup (Str.toLowerCase varName) (variables st')
         = Some (mkVar (name var) (type var) stored)
      /\ (type var = "logico" ->
          stored = JBool (String.eqb (Str.toLowerCase (Str.trim answer))
                                     "verdadero"))
      /\ (type var <> "entero" -> type var <> "real" -> type var <> "logico" ->
          stored = JStr answer).
Proof.
  intros js_eval fuel lines index st l f pre varName post var
         Hl Hkw Hre Hnames Hdecl Hlast Hvar answer.
  destruct (leer_stores js_eval fuel lines index st l f pre varName post var
                        Hl Hkw Hre Hnames Hdecl Hlast Hvar)
    as (st' & Hrun & Hlk).
  exists st', (coerce_input (type var) answer).
  split; [exact Hrun|]. split; [exact Hlk|]. split.
  - intros ->. unfold coerce_input. simpl.
    rewrite verdadero_input_test. reflexivity.
  - intros He Hr Hlog. unfold coerce_input.
    apply String.eqb_neq in He, Hr, Hlog. rewrite He, Hr, Hlog. reflexivity.
Qed.

Lemma leer_stores_by_declared_type_witness :
  let st := set_variables [("ok", mkVar "ok" "logico" (JBool false));
                           ("s", mkVar "s" "cadena" (JStr ""))]
                          (new_interpreter
                             (Some (scripted [" VerDadero "; " x "])) false) in
  exists f,
    Re.exec true Pat.leer "Leer ok, s" = Some f
    /\ leer_names (group_or_empty f 1) = [] ++ "ok" :: ["s"]
    /\ exists st',
         executeLine Fragment.js_eval 1 ["Leer ok, s"] 0 st = Ret 1%nat st'
         /\ lookup "ok" (variables st') = Some (mkVar "ok" "logico" (JBool true))
         /\ lookup "s" (variables st') = Some (mkVar "s" "cadena" (JStr " x ")).
Proof.
  intros st.
  destruct (Re.exec true Pat.leer "Leer ok, s") as [f|] eqn:Hre;
    [|vm_compute in Hre; discriminate].
  exists f. split; [reflexivity|].
  assert (Hf : Some f = Re.exec true Pat.leer "Leer ok, s")
    by (symmetry; exact Hre).
  vm_compute in Hf. injection Hf as Hf.
  assert (Hnames : leer_names (group_or_empty f 1) = [] ++ "ok" :: ["s"])
    by (rewrite Hf; vm_compute; reflexivity).
  split; [exact Hnames|].
  destruct (leer_stores_by_declared_type
              Fragment.js_eval 0 ["Leer ok, s"] 0 st "Leer ok, s" f
              [] "ok" ["s"] (mkVar "ok" "logico" (JBool false))
              eq_refl eq_refl Hre Hnames)
    as (st' & stored & Hrun & Hlk & Hlog & _).
  - intros v [<-|[<-|[]]]; vm_compute; discriminate.
  - vm_compute. intuition discriminate.
  - reflexivity.
  - exists st'. split; [exact Hrun|]. split.
    + rewrite (Hlog eq_refl) in Hlk. exact Hlk.
    + assert (Hst : Ret 1%nat st'
                    = executeLine Fragment.js_eval 1 ["Leer ok, s"] 0 st)
        by (symmetry; exact Hrun).
      vm_compute in Hst. injection Hst as Hst. subst st'. reflexivity.
Defined.
